(** * go-migrator: loader, runner and executor

    A shallow embedding of the Go packages [gomigrator] (migration.go,
    migrator.go), [drivers] (postgres.go) and [executor] (executor.go),
    followed by the properties proved about them.

    Conventions.
    - A Go [int] is a [Z]; the only place where the 64-bit range matters is
      [strconv.Atoi], whose range check is written out.
    - A Go [string] is a [string] (a sequence of bytes).
    - A Go result [(T, error)] is a pair whose second component is
      [option error]; [None] is the nil error.
    - Calls on interfaces ([fs.FS], [MigrationDriver], [context.Context],
      [Logger]) act on an explicit world [W]; every call is recorded, with
      its result, in a trace of [Event]s. *)

From Stdlib Require Import ZArith List String Ascii Bool Lia.
From Stdlib Require Import Permutation Sorted DecimalString.
Import ListNotations.

Open Scope string_scope.
Open Scope list_scope.
Open Scope Z_scope.

(* ================================================================== *)
(** * Part I. Definitions *)
(* ================================================================== *)

(** ** Errors *)

Inductive NumErrorKind : Type :=
| ErrSyntax
| ErrRange.

(** [errors_New msg] is [errors.New(msg)] (also [fmt.Errorf] without a
    [%w] verb, once formatted); [fmt_Errorf prefix e] is
    [fmt.Errorf(prefix + "%w", e)]; [strconv_NumError] is the
    [*strconv.NumError] returned by [strconv.Atoi]. *)
Inductive error : Type :=
| errors_New (msg : string)
| fmt_Errorf (prefix : string) (wrapped : error)
| strconv_NumError (func num : string) (kind : NumErrorKind)
| context_Canceled
| context_DeadlineExceeded.

(** [errors.Is(err, target)] for a target that is one of the two context
    sentinels: follow the [%w] chain. *)
Fixpoint errors_Is_Canceled (e : error) : bool :=
  match e with
  | context_Canceled => true
  | fmt_Errorf _ e' => errors_Is_Canceled e'
  | _ => false
  end.

(** ** Strings: the functions of package [strings] and [strconv] in use *)

(** [fmt.Sprintf("%d", z)]. *)
Definition itoa (z : Z) : string := NilEmpty.string_of_int (Z.to_int z).

(** [s[:n]] and [s[n:]] for an index [n] within the string. *)
Fixpoint str_take (n : nat) (s : string) : string :=
  match n, s with
  | O, _ => ""
  | S n', String c s' => String c (str_take n' s')
  | S _, EmptyString => ""
  end.

Fixpoint str_drop (n : nat) (s : string) : string :=
  match n, s with
  | O, _ => s
  | S n', String _ s' => str_drop n' s'
  | S _, EmptyString => ""
  end.

Definition slice_to (s : string) (hi : Z) : string := str_take (Z.to_nat hi) s.
Definition slice_from (s : string) (lo : Z) : string := str_drop (Z.to_nat lo) s.

(** [strings.HasSuffix(s, suffix)]. *)
Definition strings_HasSuffix (s suffix : string) : bool :=
  (String.length suffix <=? String.length s)%nat
  && String.eqb (str_drop (String.length s - String.length suffix) s) suffix.

(** [strings.TrimSuffix(s, suffix)]. *)
Definition strings_TrimSuffix (s suffix : string) : string :=
  if strings_HasSuffix s suffix
  then str_take (String.length s - String.length suffix) s
  else s.

(** [strings.Index(s, substr)]: index of the first occurrence, [-1] when
    there is none. *)
Fixpoint strings_Index (s substr : string) : Z :=
  if String.prefix substr s then 0
  else match s with
       | EmptyString => -1
       | String _ s' =>
           let r := strings_Index s' substr in
           if r <? 0 then -1 else 1 + r
       end.

Definition maxInt : Z := 2 ^ 63 - 1.
Definition minInt : Z := - 2 ^ 63.

Definition is_digit (c : ascii) : bool :=
  (48 <=? nat_of_ascii c)%nat && (nat_of_ascii c <=? 57)%nat.

Definition digit_val (c : ascii) : Z := Z.of_nat (nat_of_ascii c) - 48.

Definition maxUint64 : Z := 2 ^ 64 - 1.

(** How the digit loop of [strconv.ParseUint] ends: with the value read,
    at a byte that is not a digit, or at the digit that takes the value
    past [uint64]. *)
Inductive DigitsResult : Type :=
| DigitsValue (n : Z)
| DigitsSyntax
| DigitsRange.

(** The digit loop of [strconv.ParseUint] in base 10 and 64 bits, which
    [strconv.Atoi] runs through [strconv.ParseInt]: it goes through the
    bytes in order and returns at the first that is not a digit, or at the
    first digit with which the value overflows, without looking at the
    bytes after it. [n] is the value read so far. *)
Fixpoint parse_digits (s : string) (n : Z) : DigitsResult :=
  match s with
  | EmptyString => DigitsValue n
  | String c s' =>
      if is_digit c then
        if maxUint64 / 10 + 1 <=? n then DigitsRange
        else
          let n1 := 10 * n + digit_val c in
          if maxUint64 <? n1 then DigitsRange else parse_digits s' n1
      else DigitsSyntax
  end.

Definition atoi_digits (s0 : string) (neg : bool) (digits : string)
  : Z * option error :=
  match digits with
  | EmptyString => (0, Some (strconv_NumError "Atoi" s0 ErrSyntax))
  | _ =>
      match parse_digits digits 0 with
      | DigitsSyntax => (0, Some (strconv_NumError "Atoi" s0 ErrSyntax))
      | DigitsRange =>
          if neg then (minInt, Some (strconv_NumError "Atoi" s0 ErrRange))
          else (maxInt, Some (strconv_NumError "Atoi" s0 ErrRange))
      | DigitsValue n =>
          if neg then
            if n <=? - minInt then (- n, None)
            else (minInt, Some (strconv_NumError "Atoi" s0 ErrRange))
          else
            if n <=? maxInt then (n, None)
            else (maxInt, Some (strconv_NumError "Atoi" s0 ErrRange))
      end
  end.

(** [strconv.Atoi(s)] for a 64-bit [int]: an optional sign, then one or
    more decimal digits; out of range gives the nearest bound and
    [ErrRange]. On strings of fewer than 19 bytes Atoi takes a shorter
    path that returns the same values and errors. *)
Definition strconv_Atoi (s : string) : Z * option error :=
  match s with
  | String c rest =>
      if Ascii.eqb c "+" then atoi_digits s false rest
      else if Ascii.eqb c "-" then atoi_digits s true rest
      else atoi_digits s false s
  | EmptyString => atoi_digits s false s
  end.

(** ** The file system interface [fs.FS], top level only *)

(** [fs.DirEntry]: the two methods the loader calls. *)
Record DirEntry : Type := mkDirEntry {
  de_Name : string;
  de_IsDir : bool
}.

(** What the loader asks of an [fs.FS]: [fs.ReadDir(afs, ".")],
    [fs.ReadFile(afs, name)] and [fs.Stat(afs, name)]. *)
Record FS : Type := mkFS {
  fs_ReadDir : list DirEntry * option error;
  fs_ReadFile : string -> string * option error;
  fs_Stat : string -> option error
}.

(** ** migration.go, fixture-aware version (LoadMigrationsFromFS with the
    [fixtures] flag; parseMigrationFile) *)

Record Migration : Type := mkMigration {
  Version : Z;
  Name : string;
  MigrationSQL : string;
  FixturesSQL : string
}.

(** [&Migration{}]. *)
Definition zeroMigration : Migration := mkMigration 0 "" "" "".

Definition set_Name (m : Migration) (n : string) : Migration :=
  mkMigration (Version m) n (MigrationSQL m) (FixturesSQL m).
Definition set_Version (m : Migration) (v : Z) : Migration :=
  mkMigration v (Name m) (MigrationSQL m) (FixturesSQL m).
Definition set_MigrationSQL (m : Migration) (s : string) : Migration :=
  mkMigration (Version m) (Name m) s (FixturesSQL m).
Definition set_FixturesSQL (m : Migration) (s : string) : Migration :=
  mkMigration (Version m) (Name m) (MigrationSQL m) s.

(** The step [if fixtures { ... }] of parseMigrationFile: [fileName] is
    the name with [.sql] already trimmed. *)
Definition loadFixture (afs : FS) (fileName : string) (m : Migration)
  : option Migration * option error :=
  match fs_Stat afs (fileName ++ ".fixture.sql") with
  | None =>
      let '(fixturesSQL, err) := fs_ReadFile afs (fileName ++ ".fixture.sql") in
      match err with
      | Some e =>
          (Some m,
           Some (fmt_Errorf ("failed to read fixture file (" ++ fileName ++ "): ") e))
      | None => (Some (set_FixturesSQL m fixturesSQL), None)
      end
  | Some _ => (Some m, None)
  end.

(** [parseMigrationFile(afs, file, fixtures)]: the pointer result is an
    [option]; it can be non-nil together with an error, as in the source. *)
Definition parseMigrationFile (afs : FS) (file : DirEntry) (fixtures : bool)
  : option Migration * option error :=
  let fileName := de_Name file in
  if negb (strings_HasSuffix fileName ".sql") then (None, None)
  else if strings_HasSuffix fileName ".fixture.sql" then (None, None)
  else
    let fileName := strings_TrimSuffix fileName ".sql" in
    let m := zeroMigration in
    let underscoreIndex := strings_Index fileName "_" in
    if underscoreIndex =? -1 then
      (Some m,
       Some (errors_New ("invalid migration file name format for file: "
                         ++ fileName ++ ", (the format is <id>_<name>.sql)")))
    else
      let versionStr := slice_to fileName underscoreIndex in
      let m := set_Name m (slice_from fileName (underscoreIndex + 1)) in
      let '(v, err) := strconv_Atoi versionStr in
      let m := set_Version m v in
      match err with
      | Some e =>
          (Some m,
           Some (fmt_Errorf ("failed to parse migration file version ("
                             ++ fileName ++ "): ") e))
      | None =>
          if Version m <=? 0 then
            (Some m,
             Some (errors_New ("migration file version cannot be <= 0: "
                               ++ fileName)))
          else
            let '(migrationSQL, err) := fs_ReadFile afs (fileName ++ ".sql") in
            match err with
            | Some e =>
                (Some m,
                 Some (fmt_Errorf ("failed to read migration file ("
                                   ++ fileName ++ "): ") e))
            | None =>
                let m := set_MigrationSQL m migrationSQL in
                if fixtures then loadFixture afs fileName m else (Some m, None)
            end
      end.

(** The [for _, file := range files] loop of LoadMigrationsFromFS;
    [migrations] is the slice built so far. *)
Fixpoint loadEntries (afs : FS) (fixtures : bool) (files : list DirEntry)
  (migrations : list Migration) : list Migration * option error :=
  match files with
  | [] => (migrations, None)
  | file :: rest =>
      if de_IsDir file then loadEntries afs fixtures rest migrations
      else
        let '(m, err) := parseMigrationFile afs file fixtures in
        match err with
        | Some e => ([], Some e)
        | None =>
            match m with
            | Some m' => loadEntries afs fixtures rest (migrations ++ [m'])
            | None => loadEntries afs fixtures rest migrations
            end
        end
  end.

Definition LoadMigrationsFromFS (afs : FS) (fixtures : bool)
  : list Migration * option error :=
  let '(files, err) := fs_ReadDir afs in
  match err with
  | Some e =>
      ([], Some (fmt_Errorf "failed to read migrations from embedded filesystem: " e))
  | None =>
      if Z.of_nat (List.length files) =? 0
      then ([], Some (errors_New "no migrations found"))
      else loadEntries afs fixtures files []
  end.

(** [LoadMigrationsFromDir(path, fixtures)]; [os_DirFS] is [os.DirFS]. *)
Definition LoadMigrationsFromDir (os_DirFS : string -> FS) (path : string)
  (fixtures : bool) : list Migration * option error :=
  let dirFS := os_DirFS path in
  LoadMigrationsFromFS dirFS fixtures.

(** ** migration.go as in src/migration.go (no fixtures;
    parseMigrationFileName) *)

Module Legacy.

Record Migration : Type := mkMigration {
  Version : Z;
  Name : string;
  SQL : string
}.

Definition parseMigrationFileName (fileName : string)
  : Z * string * option error :=
  let underscoreIndex := strings_Index fileName "_" in
  if underscoreIndex =? -1 then
    (0, "",
     Some (errors_New ("invalid migration file name format for file: "
                       ++ fileName ++ ", (the format is <id>_<name>.sql)")))
  else
    let versionStr := slice_to fileName underscoreIndex in
    let name := slice_from fileName (underscoreIndex + 1) in
    let '(version, err) := strconv_Atoi versionStr in
    match err with
    | Some e =>
        (0, "",
         Some (fmt_Errorf ("failed to parse migration file version ("
                           ++ fileName ++ "): ") e))
    | None =>
        if version <=? 0 then
          (0, "",
           Some (errors_New ("migration file version cannot be <= 0: "
                             ++ fileName)))
        else (version, name, None)
    end.

Fixpoint loadEntries (afs : FS) (files : list DirEntry)
  (migrations : list Migration) : list Migration * option error :=
  match files with
  | [] => (migrations, None)
  | file :: rest =>
      if de_IsDir file then loadEntries afs rest migrations
      else
        let '(content, err) := fs_ReadFile afs (de_Name file) in
        match err with
        | Some e =>
            ([], Some (fmt_Errorf ("failed to read migration file ("
                                   ++ de_Name file ++ "): ") e))
        | None =>
            let '(version, name, err) := parseMigrationFileName (de_Name file) in
            match err with
            | Some e => ([], Some e)
            | None =>
                loadEntries afs rest
                  (migrations ++ [mkMigration version name content])
            end
        end
  end.

Definition LoadMigrationsFromFS (afs : FS) : list Migration * option error :=
  let '(files, err) := fs_ReadDir afs in
  match err with
  | Some e =>
      ([], Some (fmt_Errorf "failed to read migrations from embedded filesystem: " e))
  | None =>
      if Z.of_nat (List.length files) =? 0
      then ([], Some (errors_New "no migrations found"))
      else loadEntries afs files []
  end.

End Legacy.

(** ** An in-memory file system, after [fstest.MapFS]

    A listing of top-level entries in directory order; a regular file
    carries its contents, a directory cannot be read as a file. *)

Inductive MemNode : Type :=
| MemFile (data : string)
| MemDir.

Definition MemFS : Type := list (string * MemNode).

Fixpoint mem_lookup (name : string) (l : MemFS) : option MemNode :=
  match l with
  | [] => None
  | (n, node) :: rest => if String.eqb n name then Some node else mem_lookup name rest
  end.

Definition mem_entry (p : string * MemNode) : DirEntry :=
  mkDirEntry (fst p) (match snd p with MemDir => true | MemFile _ => false end).

Definition fs_ErrNotExist : error := errors_New "file does not exist".
Definition fs_ErrIsDir : error := errors_New "is a directory".

Definition memFS (l : MemFS) : FS :=
  mkFS (map mem_entry l, None)
       (fun name =>
          match mem_lookup name l with
          | Some (MemFile data) => (data, None)
          | Some MemDir => ("", Some fs_ErrIsDir)
          | None => ("", Some fs_ErrNotExist)
          end)
       (fun name =>
          match mem_lookup name l with
          | Some _ => None
          | None => Some fs_ErrNotExist
          end).

(** ** migrator.go: the driver, context and logger interfaces *)

(** [stdoutLogger] of executor.go, the logger the executor passes on. *)
Record stdoutLogger : Type := mkLogger {
  logger_name : string
}.

(** What a run does to the outside: every call on the driver, on the
    context, on the logger and to [time.Sleep], with its result. *)
Inductive Event : Type :=
| EvConnect (r : option error)
| EvCreateMigrationsTable (r : option error)
| EvGetCurrentVersion (v : Z) (r : option error)
| EvCtxErr (r : option error)
| EvApplyMigration (m : Migration) (r : option error)
| EvClose (r : option error)
| EvLogInfo (name msg : string)
| EvLogError (name : string) (e : error)
| EvSleep (d : Z).

(** How a Go call ends: it returns its [error] result, or it panics (the
    deferred calls still run). *)
Inductive outcome : Type :=
| Return (err : option error)
| Panic (msg : string).

(** The contract of [sort.Slice] with the comparison
    [migrations[i].Version < migrations[j].Version]: the slice is permuted
    in place into an order where no later element is smaller than an
    earlier one. The order of equal versions is left open, as the library
    does not promise stability. *)
Definition version_le (a b : Migration) : Prop := Version a <= Version b.

Class SliceSorter : Type := {
  sort_Slice : list Migration -> list Migration;
  sort_Slice_perm : forall ms, Permutation ms (sort_Slice ms);
  sort_Slice_sorted : forall ms, StronglySorted version_le (sort_Slice ms)
}.

(** The sort that [sort.Slice] runs on slices of at most 12 elements
    (insertion sort): each element in turn moves left past the elements
    that are greater than it. *)
Fixpoint insert_sorted (m : Migration) (sorted : list Migration)
  : list Migration :=
  match sorted with
  | [] => [m]
  | x :: rest =>
      if Version m <? Version x then m :: x :: rest
      else x :: insert_sorted m rest
  end.

Definition insertionSort (ms : list Migration) : list Migration :=
  fold_left (fun acc m => insert_sorted m acc) ms [].

(** [for i := lo; i < hi; i++]: the indices the loop visits, in order. The
    loop bodies below neither assign [i] nor change the bound. *)
Definition for_range (lo hi : Z) : list Z :=
  map (fun k => lo + Z.of_nat k) (seq 0 (Z.to_nat (hi - lo))).

(** [s[i]]: [None] is the run-time panic "index out of range". *)
Definition slice_index {A : Type} (s : list A) (i : Z) : option A :=
  if i <? 0 then None else nth_error s (Z.to_nat i).

(** [len(s)]. *)
Definition len {A : Type} (s : list A) : Z := Z.of_nat (List.length s).

(** [if logger != nil { logger.Info(msg) }] and the same for [Error]. *)
Definition logInfo (logger : option stdoutLogger) (msg : string) : list Event :=
  match logger with
  | Some l => [EvLogInfo (logger_name l) msg]
  | None => []
  end.

Definition logError (logger : option stdoutLogger) (e : error) : list Event :=
  match logger with
  | Some l => [EvLogError (logger_name l) e]
  | None => []
  end.

(** How one pass through the apply loop ends: the loop ran to its end with
    [appliedMigrations] applied, or the function left from inside it. *)
Inductive flow : Type :=
| LoopDone (appliedMigrations : Z)
| LoopExit (o : outcome).

Section Runner.

Context {W : Type}.

(** [context.Context]: its [Err] method, read in the current world. *)
Definition Context : Type := W -> option error.

(** [MigrationDriver]: every method takes the context and acts on the
    world. *)
Record MigrationDriver : Type := mkDriver {
  Connect : Context -> W -> option error * W;
  CreateMigrationsTable : Context -> W -> option error * W;
  GetCurrentVersion : Context -> W -> Z * option error * W;
  ApplyMigration : Context -> Migration -> W -> option error * W;
  Close : Context -> W -> option error * W
}.

(** What a call of RunMigrations leaves behind: how it ended, the
    contents of the caller's slice (sorted in place), the world and the
    calls made. *)
Record RunResult : Type := mkRunResult {
  rr_outcome : outcome;
  rr_migrations : list Migration;
  rr_world : W;
  rr_trace : list Event
}.

Context {sorter : SliceSorter}.

Variable ctx : Context.
Variable driver : MigrationDriver.
Variable logger : option stdoutLogger.

(** The loop [for i := currentVersion; i < len(migrations); i++] of
    RunMigrations, over the indices still to visit. When the test
    [ctx.Err() != nil] finds an error, [return ctx.Err()] calls the context
    a second time, in the same world, and returns what that call gives.
    The index
    expression [migrations[i]] is evaluated before [ApplyMigration] is
    called (and before the log line, with a logger), so an index out of
    range panics without an event. *)
Fixpoint applyLoop (migrations : list Migration) (idxs : list Z)
  (appliedMigrations : Z) (w : W) : flow * W * list Event :=
  match idxs with
  | [] => (LoopDone appliedMigrations, w, [])
  | i :: rest =>
      match ctx w with
      | Some e =>
          (LoopExit (Return (ctx w)), w, [EvCtxErr (Some e); EvCtxErr (ctx w)])
      | None =>
          match slice_index migrations i with
          | None => (LoopExit (Panic "index out of range"), w, [EvCtxErr None])
          | Some m =>
              let info :=
                logInfo logger ("applying migration " ++ itoa (Version m)
                                ++ ": " ++ Name m) in
              let '(err, w1) := ApplyMigration driver ctx m w in
              match err with
              | Some e =>
                  let wrapped :=
                    fmt_Errorf ("failed to apply migration "
                                ++ itoa (Version m) ++ ": ") e in
                  (LoopExit (Return (Some wrapped)), w1,
                   EvCtxErr None :: info
                     ++ EvApplyMigration m (Some e) :: logError logger wrapped)
              | None =>
                  let '(f, w2, evs) :=
                    applyLoop migrations rest (appliedMigrations + 1) w1 in
                  (f, w2,
                   EvCtxErr None :: info ++ EvApplyMigration m None :: evs)
              end
          end
      end
  end.

(** RunMigrations from [defer driver.Close(ctx)] on: everything the
    deferred call waits for. *)
Definition runConnected (migrations : list Migration) (w : W)
  : outcome * W * list Event :=
  let '(err, w1) := CreateMigrationsTable driver ctx w in
  match err with
  | Some e =>
      let wrapped := fmt_Errorf "failed to create migrations table: " e in
      (Return (Some wrapped), w1,
       EvCreateMigrationsTable (Some e) :: logError logger wrapped)
  | None =>
      let '(currentVersion, err, w2) := GetCurrentVersion driver ctx w1 in
      match err with
      | Some e =>
          let wrapped := fmt_Errorf "failed to get current version: " e in
          (Return (Some wrapped), w2,
           EvCreateMigrationsTable None
             :: EvGetCurrentVersion currentVersion (Some e)
             :: logError logger wrapped)
      | None =>
          let head :=
            EvCreateMigrationsTable None
              :: EvGetCurrentVersion currentVersion None
              :: logInfo logger ("current version: " ++ itoa currentVersion) in
          let '(f, w3, evs) :=
            applyLoop migrations (for_range currentVersion (len migrations))
              0 w2 in
          match f with
          | LoopExit o => (o, w3, head ++ evs)
          | LoopDone appliedMigrations =>
              (Return None, w3,
               head ++ evs
                 ++ logInfo logger ("applied " ++ itoa appliedMigrations
                                    ++ " migrations"))
          end
      end
  end.

(** [RunMigrations(ctx, driver, migrations, logger)]. *)
Definition RunMigrations (migrations : list Migration) (w : W) : RunResult :=
  let migrations := sort_Slice migrations in
  let '(err, w1) := Connect driver ctx w in
  match err with
  | Some e =>
      let wrapped := fmt_Errorf "failed to connect to the database: " e in
      mkRunResult (Return (Some wrapped)) migrations w1
        (EvConnect (Some e) :: logError logger wrapped)
  | None =>
      let '(o, w2, evs) := runConnected migrations w1 in
      let '(cerr, w3) := Close driver ctx w2 in
      mkRunResult o migrations w3 (EvConnect None :: evs ++ [EvClose cerr])
  end.

End Runner.

Arguments Context : clear implicits.
Arguments MigrationDriver : clear implicits.
Arguments RunResult : clear implicits.

(** ** Reading a trace *)

(** The migrations handed to [ApplyMigration], in call order, and those
    whose call returned nil. *)
Fixpoint attempted (tr : list Event) : list Migration :=
  match tr with
  | [] => []
  | EvApplyMigration m _ :: rest => m :: attempted rest
  | _ :: rest => attempted rest
  end.

Fixpoint applied (tr : list Event) : list Migration :=
  match tr with
  | [] => []
  | EvApplyMigration m None :: rest => m :: applied rest
  | _ :: rest => applied rest
  end.

Definition is_Close (e : Event) : bool :=
  match e with EvClose _ => true | _ => false end.

Definition is_CreateMigrationsTable (e : Event) : bool :=
  match e with EvCreateMigrationsTable _ => true | _ => false end.

Definition count_events (p : Event -> bool) (tr : list Event) : nat :=
  List.length (filter p tr).

(** ** The ledger contract of a driver

    [ledger w] lists the versions of the rows of the migrations table that
    are visible in world [w]; [currentVersion] is what the table reports,
    [COALESCE(MAX(id), 0)]. A driver keeps the contract when only a
    successful [ApplyMigration] touches the ledger, adding the row of the
    migration it applied, and [GetCurrentVersion] reports the ledger. *)

Definition currentVersion (rows : list Z) : Z := fold_right Z.max 0 rows.

Record LedgerContract {W : Type} (driver : MigrationDriver W)
  (ledger : W -> list Z) : Prop := mkLedgerContract {
  lc_Connect : forall ctx w, ledger (snd (Connect driver ctx w)) = ledger w;
  lc_CreateMigrationsTable :
    forall ctx w, ledger (snd (CreateMigrationsTable driver ctx w)) = ledger w;
  lc_GetCurrentVersion :
    forall ctx w, ledger (snd (GetCurrentVersion driver ctx w)) = ledger w;
  lc_reported :
    forall ctx w v w', GetCurrentVersion driver ctx w = (v, None, w') ->
                       v = currentVersion (ledger w);
  lc_Close : forall ctx w, ledger (snd (Close driver ctx w)) = ledger w;
  lc_apply_ok :
    forall ctx m w w', ApplyMigration driver ctx m w = (None, w') ->
                       ledger w' = Version m :: ledger w;
  lc_apply_fail :
    forall ctx m w e w', ApplyMigration driver ctx m w = (Some e, w') ->
                         ledger w' = ledger w
}.

(** ** A scripted driver, after the [mockDriver] of the tests

    The world scripts what [Connect], [CreateMigrationsTable] and
    [GetCurrentVersion] return and after how many [ApplyMigration] calls
    the context is cancelled; it keeps a ledger with [id] as primary key.
    [ApplyMigration] fails on the SQL text [FAIL] and on a version that
    already has a row. *)

Record MockWorld : Type := mkMock {
  mw_connect_err : option error;
  mw_table_err : option error;
  mw_version_err : option error;
  mw_cancel_after : option nat;
  mw_apply_calls : nat;
  mw_ledger : list Z;
  mw_close_calls : nat
}.

Definition mockCtx : Context MockWorld :=
  fun w =>
    match mw_cancel_after w with
    | Some n => if (n <=? mw_apply_calls w)%nat then Some context_Canceled else None
    | None => None
    end.

Definition mock_Apply (m : Migration) (w : MockWorld) : option error * MockWorld :=
  let w1 := mkMock (mw_connect_err w) (mw_table_err w) (mw_version_err w)
              (mw_cancel_after w) (S (mw_apply_calls w)) (mw_ledger w)
              (mw_close_calls w) in
  if String.eqb (MigrationSQL m) "FAIL" then
    (Some (errors_New "migration failed"), w1)
  else if existsb (Z.eqb (Version m)) (mw_ledger w) then
    (Some (errors_New "duplicate key value violates unique constraint"), w1)
  else
    (None,
     mkMock (mw_connect_err w) (mw_table_err w) (mw_version_err w)
       (mw_cancel_after w) (S (mw_apply_calls w)) (Version m :: mw_ledger w)
       (mw_close_calls w)).

Definition mock_Close (w : MockWorld) : option error * MockWorld :=
  (None,
   mkMock (mw_connect_err w) (mw_table_err w) (mw_version_err w)
     (mw_cancel_after w) (mw_apply_calls w) (mw_ledger w)
     (S (mw_close_calls w))).

Definition mockDriver : MigrationDriver MockWorld :=
  mkDriver
    (fun _ w => (mw_connect_err w, w))
    (fun _ w => (mw_table_err w, w))
    (fun _ w =>
       match mw_version_err w with
       | Some e => (0, Some e, w)
       | None => (currentVersion (mw_ledger w), None, w)
       end)
    (fun _ m w => mock_Apply m w)
    (fun _ w => mock_Close w).

(** A fresh world: every scripted call succeeds, no cancellation, and the
    ledger holds the given rows. *)
Definition mockWorld (rows : list Z) : MockWorld :=
  mkMock None None None None 0 rows 0.

Definition mig (v : Z) (name sql : string) : Migration :=
  mkMigration v name sql "".

(** The migrations of the test "migrations are sorted by version". *)
Definition three_migrations : list Migration :=
  [mig 3 "add_index" "CREATE INDEX idx_users_id ON users(id);";
   mig 1 "create_users" "CREATE TABLE users (id INT);";
   mig 2 "create_posts" "CREATE TABLE posts (id INT);"].

(** ** executor.go *)

Record postgresConfig : Type := mkPostgresConfig {
  DSN : string
}.

Record migrationConfig : Type := mkMigrationConfig {
  mc_Name : string;
  mc_Source : string;
  mc_Postgres : option postgresConfig
}.

Record Config : Type := mkConfig {
  MaxRetries : Z;
  RetryDelay : Z;
  Timeout : Z;
  Fixtures : bool;
  Migrations : list migrationConfig
}.

Section Executor.

Context {W : Type} {sorter : SliceSorter}.

(** What the executor reaches outside the repository: [os.DirFS],
    [drivers.NewPostgresDriver] with the database behind it,
    [context.WithTimeout] and [time.Sleep]. *)
Record Collaborators : Type := mkCollaborators {
  os_DirFS : string -> FS;
  drivers_NewPostgresDriver : string -> MigrationDriver W;
  context_WithTimeout : Context W -> Z -> W -> Context W;
  time_Sleep : Z -> W -> W
}.

(** One call of RunMigrations made by the retry loop: the contents of
    the slice it was handed and what it left. The Go code keeps none of
    this; it is recorded to state properties. *)
Record Attempt : Type := mkAttempt {
  at_input : list Migration;
  at_result : RunResult W
}.

Record UnitResult : Type := mkUnitResult {
  ur_attempts : list Attempt;
  ur_panicked : bool;
  ur_world : W;
  ur_trace : list Event
}.

Variable env : Collaborators.

(** [(m *migrationConfig) getDriver()]. *)
Definition getDriver (m : migrationConfig) : option (MigrationDriver W) :=
  match mc_Postgres m with
  | Some p => Some (drivers_NewPostgresDriver env (DSN p))
  | None => None
  end.

(** The loop [for i := 0; i < cfg.MaxRetries; i++] of executeMigration;
    [migrations] is the one slice every attempt is handed. *)
Fixpoint retryLoop (ctx : Context W) (cfg : Config) (migrationCfg : migrationConfig)
  (driver : MigrationDriver W) (idxs : list Z) (migrations : list Migration)
  (w : W) : list Attempt * bool * W * list Event :=
  match idxs with
  | [] => ([], false, w, [])
  | i :: rest =>
      let logger :=
        mkLogger (mc_Name migrationCfg ++ " (attempt " ++ itoa (i + 1) ++ ")") in
      let r := RunMigrations ctx driver (Some logger) migrations w in
      let a := mkAttempt migrations r in
      match rr_outcome r with
      | Panic _ => ([a], true, rr_world r, rr_trace r)
      | Return None => ([a], false, rr_world r, rr_trace r)
      | Return (Some _) =>
          let w1 := time_Sleep env (RetryDelay cfg) (rr_world r) in
          let '(atts, p, w2, evs) :=
            retryLoop ctx cfg migrationCfg driver rest (rr_migrations r) w1 in
          (a :: atts, p, w2, rr_trace r ++ EvSleep (RetryDelay cfg) :: evs)
      end
  end.

(** [executeMigration(ctx, cfg, migrationCfg)]. *)
Definition executeMigration (ctx : Context W) (cfg : Config)
  (migrationCfg : migrationConfig) (w : W) : UnitResult :=
  let name := mc_Name migrationCfg in
  match getDriver migrationCfg with
  | None =>
      mkUnitResult [] false w
        [EvLogError name (errors_New "failed to resolve driver")]
  | Some driver =>
      let '(migrations, err) :=
        LoadMigrationsFromDir (os_DirFS env) (mc_Source migrationCfg)
          (Fixtures cfg) in
      match err with
      | Some e =>
          mkUnitResult [] false w
            [EvLogError name (fmt_Errorf "failed to load migrations: " e)]
      | None =>
          let ctx := context_WithTimeout env ctx (Timeout cfg) w in
          let '(atts, p, w1, evs) :=
            retryLoop ctx cfg migrationCfg driver
              (for_range 0 (MaxRetries cfg)) migrations w in
          mkUnitResult atts p w1 evs
      end
  end.

(** [Execute(ctx, cfg)]. Every goroutine owns its driver and connection,
    so each unit is run on its own copy of the world; the WaitGroup makes
    Execute return after all of them. A panic in a goroutine ends the
    process: then there is no return value ([None]). *)
Definition Execute (ctx : Context W) (cfg : Config) (w : W)
  : option bool * list UnitResult :=
  let units := map (fun migration => executeMigration ctx cfg migration w)
                   (Migrations cfg) in
  if existsb ur_panicked units then (None, units) else (Some true, units).

(** In the words of the specification: a unit succeeded when one of its
    Runner invocations, within the retry budget, returned without
    error. *)
Definition attempt_succeeded (a : Attempt) : bool :=
  match rr_outcome (at_result a) with
  | Return None => true
  | _ => false
  end.

Definition unit_succeeded (u : UnitResult) : bool :=
  existsb attempt_succeeded (ur_attempts u).

End Executor.

Arguments Collaborators : clear implicits.
Arguments Attempt : clear implicits.
Arguments UnitResult : clear implicits.

(** Collaborators for the scripted driver: one directory tree, a clock
    that does nothing, and a timeout that keeps the parent's state. *)
Definition mockEnv (dirs : string -> MemFS) : Collaborators MockWorld :=
  mkCollaborators (fun path => memFS (dirs path))
    (fun _ => mockDriver) (fun parent _ _ => parent) (fun _ w => w).

(** ** drivers/postgres.go: ApplyMigration over a pgx connection *)

Inductive SqlArg : Type :=
| ArgInt (z : Z)
| ArgString (s : string).

Section Postgres.

Context {C : Type}.

(** The calls ApplyMigration makes on [*pgx.Conn] and on the [pgx.Tx] it
    begins. A [pgx.Conn] is one session: while its transaction is open,
    [conn_Exec] runs inside it. [time_Now_Unix] is [time.Now().Unix()]. *)
Record PgxConn : Type := mkPgxConn {
  conn_Begin : Context C -> C -> option error * C;
  conn_Exec : Context C -> string -> list SqlArg -> C -> option error * C;
  tx_Exec : Context C -> string -> C -> option error * C;
  tx_Commit : Context C -> C -> option error * C;
  tx_Rollback : Context C -> C -> option error * C;
  time_Now_Unix : C -> Z
}.

Variable pgx : PgxConn.

(** The constant [migrationsTable] is declared outside the files at
    hand; it is a parameter here. *)
Variable migrationsTable : string.

Definition LF : string := String (ascii_of_nat 10) "".
Definition TAB : string := String (ascii_of_nat 9) "".

Definition insertQuery : string :=
  LF ++ TAB ++ "INSERT INTO " ++ migrationsTable
     ++ " (id, name, applied_at) VALUES ($1, $2, $3)" ++ LF ++ TAB.

(** [(d *postgresDriver) ApplyMigration(ctx, migration)]. The result of the
    ledger insert is overwritten by that of [tx.Commit] before it is
    looked at; [defer tx.Rollback(ctx)] runs on every exit after a
    successful [Begin]. The SQL text is the field [SQL] of the migration
    ([MigrationSQL] in the fixture-aware struct). *)
Definition postgres_ApplyMigration (ctx : Context C) (migration : Migration)
  (c : C) : option error * C :=
  let '(err, c1) := conn_Begin pgx ctx c in
  match err with
  | Some e => (Some e, c1)
  | None =>
      let '(result, c5) :=
        let '(err, c2) := tx_Exec pgx ctx (MigrationSQL migration) c1 in
        match err with
        | Some e =>
            (Some (fmt_Errorf ("failed to apply migration ("
                               ++ Name migration ++ "): ") e), c2)
        | None =>
            let '(_, c3) :=
              conn_Exec pgx ctx insertQuery
                [ArgInt (Version migration); ArgString (Name migration);
                 ArgInt (time_Now_Unix pgx c2)] c2 in
            let '(err, c4) := tx_Commit pgx ctx c3 in
            match err with
            | Some e =>
                (Some (fmt_Errorf "failed to commit transaction: " e), c4)
            | None => (None, c4)
            end
        end in
      let '(_, c6) := tx_Rollback pgx ctx c5 in
      (result, c6)
  end.

(** What PostgreSQL promises of a transaction, as far as the ledger that
    other sessions see is concerned: nothing done inside an open
    transaction is visible before a successful commit. *)
Record PgxTransactional (visible : C -> list Z) (in_tx : C -> bool)
  : Prop := mkPgxTransactional {
  pt_Begin_visible :
    forall ctx c, visible (snd (conn_Begin pgx ctx c)) = visible c;
  pt_Begin_in_tx :
    forall ctx c c', conn_Begin pgx ctx c = (None, c') -> in_tx c' = true;
  pt_tx_Exec :
    forall ctx sql c, in_tx c = true ->
      visible (snd (tx_Exec pgx ctx sql c)) = visible c
      /\ in_tx (snd (tx_Exec pgx ctx sql c)) = true;
  pt_conn_Exec :
    forall ctx sql args c, in_tx c = true ->
      visible (snd (conn_Exec pgx ctx sql args c)) = visible c;
  pt_Commit_fail :
    forall ctx c e c', tx_Commit pgx ctx c = (Some e, c') ->
      visible c' = visible c;
  pt_Rollback :
    forall ctx c, visible (snd (tx_Rollback pgx ctx c)) = visible c
}.

End Postgres.

Arguments PgxConn : clear implicits.

(** An in-memory session: the committed ledger rows, the working copy of
    an open transaction, and whether that transaction is aborted. A
    statement whose text is [FAIL] fails; an insert of an [id] that already
    has a row fails; a failure inside a transaction aborts it, and
    committing an aborted transaction rolls it back and reports so. *)
Record MemDB : Type := mkMemDB {
  db_rows : list (Z * string);
  db_tx : option (list (Z * string));
  db_aborted : bool
}.

Definition memdb_insert (args : list SqlArg) (rows : list (Z * string))
  : option (list (Z * string)) :=
  match args with
  | [ArgInt id; ArgString name; ArgInt _] =>
      if existsb (fun r => Z.eqb (fst r) id) rows then None
      else Some ((id, name) :: rows)
  | _ => None
  end.

Definition memPgx : PgxConn MemDB :=
  mkPgxConn
    (fun _ c =>
       match db_tx c with
       | Some _ => (Some (errors_New "conn busy"), c)
       | None => (None, mkMemDB (db_rows c) (Some (db_rows c)) false)
       end)
    (fun _ _ args c =>
       match db_tx c with
       | Some rows =>
           if db_aborted c then
             (Some (errors_New "current transaction is aborted"), c)
           else
             match memdb_insert args rows with
             | Some rows' => (None, mkMemDB (db_rows c) (Some rows') false)
             | None =>
                 (Some (errors_New "insert failed"),
                  mkMemDB (db_rows c) (Some rows) true)
             end
       | None =>
           match memdb_insert args (db_rows c) with
           | Some rows' => (None, mkMemDB rows' None false)
           | None => (Some (errors_New "insert failed"), c)
           end
       end)
    (fun _ sql c =>
       match db_tx c with
       | Some rows =>
           if db_aborted c then
             (Some (errors_New "current transaction is aborted"), c)
           else if String.eqb sql "FAIL" then
             (Some (errors_New "syntax error"),
              mkMemDB (db_rows c) (Some rows) true)
           else (None, c)
       | None => (Some (errors_New "tx is closed"), c)
       end)
    (fun _ c =>
       match db_tx c with
       | Some rows =>
           if db_aborted c then
             (Some (errors_New "commit unexpectedly resulted in rollback"),
              mkMemDB (db_rows c) None false)
           else (None, mkMemDB rows None false)
       | None => (Some (errors_New "tx is closed"), c)
       end)
    (fun _ c =>
       match db_tx c with
       | Some _ => (None, mkMemDB (db_rows c) None false)
       | None => (Some (errors_New "tx is closed"), c)
       end)
    (fun _ => 0).

Definition memdb_visible (c : MemDB) : list Z := map fst (db_rows c).

Definition memdb_in_tx (c : MemDB) : bool :=
  match db_tx c with Some _ => true | None => false end.

(** The postgres driver on the in-memory session. [ApplyMigration] is
    the code of postgres.go. The other four methods are one call on the
    connection each in postgres.go; here the in-memory database answers
    them: connecting and closing succeed, the ledger table exists already,
    and the version query [COALESCE(MAX(id), 0)] gives the greatest id of
    the ledger, or 0 when it has no row (the ids are versions of applied
    migrations, which are positive). *)
Definition memPostgresDriver : MigrationDriver MemDB :=
  mkDriver
    (fun _ c => (None, c))
    (fun _ c => (None, c))
    (fun _ c => (currentVersion (memdb_visible c), None, c))
    (postgres_ApplyMigration memPgx "migrations")
    (fun _ c => (None, c)).

(** ** Definitions used to state the properties *)

(** No byte of the string is an underscore. *)
Fixpoint no_underscore (s : string) : bool :=
  match s with
  | EmptyString => true
  | String c s' => negb (Ascii.eqb c "_") && no_underscore s'
  end.

Definition is_sql (name : string) : bool := strings_HasSuffix name ".sql".
Definition is_fixture (name : string) : bool :=
  strings_HasSuffix name ".fixture.sql".

(** The entries that parseMigrationFile does not skip. *)
Definition usable (file : DirEntry) : bool :=
  negb (de_IsDir file) && is_sql (de_Name file)
  && negb (is_fixture (de_Name file)).

(** The fixture file of a migration file: the same stem, with
    [.fixture.sql] in place of [.sql]. *)
Definition fixtureFileName (file : DirEntry) : string :=
  strings_TrimSuffix (de_Name file) ".sql" ++ ".fixture.sql".

(** Migration [m], loaded from [file] without fixtures, with the contents
    of the fixture file of [file] as FixturesSQL when [fs.Stat] finds that
    file, and as it is when [fs.Stat] does not. *)
Definition withFixture (afs : FS) (file : DirEntry) (m : Migration)
  : Migration :=
  match fs_Stat afs (fixtureFileName file) with
  | None => set_FixturesSQL m (fst (fs_ReadFile afs (fixtureFileName file)))
  | Some _ => m
  end.

(** The failed [ApplyMigration] calls of a trace. *)
Fixpoint failures (tr : list Event) : list (Migration * error) :=
  match tr with
  | [] => []
  | EvApplyMigration m (Some e) :: rest => (m, e) :: failures rest
  | _ :: rest => failures rest
  end.

(** Every [ApplyMigration] follows a [ctx.Err()] that returned nil, made
    after the previous [ApplyMigration]; once [ctx.Err()] has returned an
    error, no [ApplyMigration] follows. [checked] tells whether such a
    check is pending. *)
Fixpoint guarded (checked : bool) (tr : list Event) : bool :=
  match tr with
  | [] => true
  | EvCtxErr None :: rest => guarded true rest
  | EvCtxErr (Some _) :: rest =>
      match attempted rest with [] => true | _ => false end
  | EvApplyMigration _ _ :: rest => checked && guarded false rest
  | _ :: rest => guarded checked rest
  end.

(** Events that are calls on the logger. *)
Definition is_log (e : Event) : bool :=
  match e with
  | EvLogInfo _ _ | EvLogError _ _ => true
  | _ => false
  end.

(** Events the apply loop can emit. *)
Definition is_loop_event (e : Event) : bool :=
  match e with
  | EvCtxErr _ | EvApplyMigration _ _ | EvLogInfo _ _ | EvLogError _ _ => true
  | _ => false
  end.

(** Events that are neither a cancellation check nor an [ApplyMigration]. *)
Definition inert (e : Event) : bool :=
  match e with
  | EvCtxErr _ | EvApplyMigration _ _ => false
  | _ => true
  end.

(** The errors handed to [logger.Error], in call order. *)
Fixpoint logged_errors (tr : list Event) : list error :=
  match tr with
  | [] => []
  | EvLogError _ e :: rest => e :: logged_errors rest
  | _ :: rest => logged_errors rest
  end.

Section RunnerReading.

Context {W : Type}.
Variable ctx : Context W.
Variable driver : MigrationDriver W.
Variable logger : option stdoutLogger.

Definition applyError (m : Migration) (e : error) : error :=
  fmt_Errorf ("failed to apply migration " ++ itoa (Version m) ++ ": ") e.

Definition applyInfo (m : Migration) : list Event :=
  logInfo logger ("applying migration " ++ itoa (Version m) ++ ": " ++ Name m).

(** The apply loop read over the migrations still to apply, instead of
    over their indices. *)
Fixpoint applyPending (pending : list Migration) (appliedMigrations : Z)
  (w : W) : flow * W * list Event :=
  match pending with
  | [] => (LoopDone appliedMigrations, w, [])
  | m :: rest =>
      match ctx w with
      | Some e =>
          (LoopExit (Return (ctx w)), w, [EvCtxErr (Some e); EvCtxErr (ctx w)])
      | None =>
          let '(err, w1) := ApplyMigration driver ctx m w in
          match err with
          | Some e =>
              (LoopExit (Return (Some (applyError m e))), w1,
               EvCtxErr None :: applyInfo m
                 ++ EvApplyMigration m (Some e)
                 :: logError logger (applyError m e))
          | None =>
              let '(f, w2, evs) := applyPending rest (appliedMigrations + 1) w1 in
              (f, w2, EvCtxErr None :: applyInfo m ++ EvApplyMigration m None :: evs)
          end
      end
  end.

(** The world reached when each migration of [done], in turn, finds the
    context not cancelled and is applied without error. *)
Fixpoint applied_through (done : list Migration) (w : W) : option W :=
  match done with
  | [] => Some w
  | m :: rest =>
      match ctx w with
      | Some _ => None
      | None =>
          match ApplyMigration driver ctx m w with
          | (None, w1) => applied_through rest w1
          | (Some _, _) => None
          end
      end
  end.

(** [Connect] and [CreateMigrationsTable] succeeded from world [w], and
    [GetCurrentVersion] returned [v] without error, leaving world [w3]. *)
Definition setup_ok (w : W) (v : Z) (w3 : W) : Prop :=
  exists w1 w2,
    Connect driver ctx w = (None, w1)
    /\ CreateMigrationsTable driver ctx w1 = (None, w2)
    /\ GetCurrentVersion driver ctx w2 = (v, None, w3).

Definition setupEvents (v : Z) : list Event :=
  EvConnect None :: EvCreateMigrationsTable None
    :: EvGetCurrentVersion v None
    :: logInfo logger ("current version: " ++ itoa v).

Definition appliedInfo (f : flow) : list Event :=
  match f with
  | LoopDone a => logInfo logger ("applied " ++ itoa a ++ " migrations")
  | LoopExit _ => []
  end.

Definition flow_outcome (f : flow) : outcome :=
  match f with
  | LoopDone _ => Return None
  | LoopExit o => o
  end.

(** How the apply loop ends, and what it logged as errors. *)
Definition loop_error_report (f : flow) (evs : list Event) : Prop :=
  match f with
  | LoopDone _ => logged_errors evs = []
  | LoopExit (Return None) => False
  | LoopExit (Panic _) => logged_errors evs = []
  | LoopExit (Return (Some err)) =>
      (In (EvCtxErr (Some err)) evs /\ logged_errors evs = [])
      \/ (logged_errors evs = logged_errors (logError logger err)
          /\ exists m e, err = applyError m e
                         /\ In (EvApplyMigration m (Some e)) evs)
  end.

End RunnerReading.

(** Every attempt of a retry loop is handed the slice as the attempt
    before left it: [input] for the first, sorted in place by each. *)
Fixpoint attempts_reuse_slice {W : Type} {sorter : SliceSorter}
  (input : list Migration) (atts : list (Attempt W)) : Prop :=
  match atts with
  | [] => True
  | a :: rest =>
      at_input a = input
      /\ rr_migrations (at_result a) = sort_Slice input
      /\ attempts_reuse_slice (sort_Slice input) rest
  end.

Definition retry_attempts {W : Type}
  (x : list (Attempt W) * bool * W * list Event) : list (Attempt W) :=
  fst (fst (fst x)).



(** ** executor/config.go: validation *)

(** [(p *postgresConfig) validate()]. *)
Definition postgresConfig_validate (p : postgresConfig) : list string :=
  let faults : list string := [] in
  if String.eqb (DSN p) "" then faults ++ ["dsn must be specified"] else faults.

(** [(m *migrationConfig) validate()]. There is one kind of driver, so
    [specifiedDrivers] is 0 or 1. *)
Definition migrationConfig_validate (m : migrationConfig) : list string :=
  let faults : list string := [] in
  let faults :=
    if String.eqb (mc_Source m) ""
    then faults ++ [("[" ++ mc_Name m ++ "] source must be specified")%string]
    else faults in
  let specifiedDrivers := 0 in
  let '(specifiedDrivers, faults) :=
    match mc_Postgres m with
    | Some p => (specifiedDrivers + 1, faults ++ postgresConfig_validate p)
    | None => (specifiedDrivers, faults)
    end in
  let faults :=
    if specifiedDrivers =? 0
    then faults ++ [("[" ++ mc_Name m ++ "] a driver must be specified")%string]
    else faults in
  let faults :=
    if 1 <? specifiedDrivers
    then faults ++ [("[" ++ mc_Name m ++ "] only one driver can be specified")%string]
    else faults in
  faults.

(** The loop [for i, migration := range c.Migrations] of validate: the
    loop variable is a copy, so the default name [migration-<i>] given to
    an unnamed target is used in the fault texts and not stored in the
    configuration. *)
Fixpoint validate_targets (i : Z) (targets : list migrationConfig)
  (faults : list string) : list string :=
  match targets with
  | [] => faults
  | migration :: rest =>
      let migration :=
        if String.eqb (mc_Name migration) ""
        then mkMigrationConfig ("migration-" ++ itoa i)
               (mc_Source migration) (mc_Postgres migration)
        else migration in
      validate_targets (i + 1) rest (faults ++ migrationConfig_validate migration)
  end.

(** [(c *Config) validate()]. [Timeout] is a [time.Duration], a count of
    nanoseconds; [c.Timeout.Seconds() <= 0] holds exactly when the count
    is not positive. *)
Definition Config_validate (c : Config) : list string :=
  let faults : list string := [] in
  let faults :=
    if Timeout c <=? 0
    then faults ++ ["timeout must be greater than 0"] else faults in
  let faults :=
    if len (Migrations c) =? 0
    then faults ++ ["no migrations specified"] else faults in
  validate_targets 0 (Migrations c) faults.

(* ================================================================== *)
(** * Part II. Properties *)
(* ================================================================== *)

(** ** Strings *)

Lemma string_length_app (a b : string) :
  String.length (a ++ b)%string = (String.length a + String.length b)%nat.
Proof. induction a as [|c a IH]; simpl; [reflexivity | now rewrite IH]. Qed.

Lemma str_drop_app (a b : string) : str_drop (String.length a) (a ++ b)%string = b.
Proof. induction a as [|c a IH]; simpl; [now destruct b | exact IH]. Qed.

Lemma str_take_app (a b : string) : str_take (String.length a) (a ++ b)%string = a.
Proof. induction a as [|c a IH]; simpl; [reflexivity | now rewrite IH]. Qed.

Lemma str_take_drop (n : nat) (s : string) : (str_take n s ++ str_drop n s)%string = s.
Proof.
  revert s; induction n as [|n IH]; intros s; simpl; [reflexivity|].
  destruct s as [|c s]; simpl; [reflexivity | now rewrite IH].
Qed.

Lemma str_take_length (n : nat) (s : string) :
  (n <= String.length s)%nat -> String.length (str_take n s) = n.
Proof.
  revert s; induction n as [|n IH]; intros s H; simpl; [reflexivity|].
  destruct s as [|c s]; simpl in *; [lia | now rewrite IH by lia].
Qed.

Lemma string_app_assoc (a b c : string) : ((a ++ b) ++ c = a ++ (b ++ c))%string.
Proof. induction a as [|x a IH]; simpl; [reflexivity | now rewrite IH]. Qed.

Lemma HasSuffix_app (a suffix : string) :
  strings_HasSuffix (a ++ suffix)%string suffix = true.
Proof.
  unfold strings_HasSuffix. rewrite string_length_app.
  replace (String.length a + String.length suffix - String.length suffix)%nat
    with (String.length a) by lia.
  rewrite str_drop_app, String.eqb_refl, andb_true_r.
  apply Nat.leb_le. lia.
Qed.

(** [HasSuffix] holds exactly of the strings that end in the suffix. *)
Lemma HasSuffix_spec (s suffix : string) :
  strings_HasSuffix s suffix = true <-> exists a, s = (a ++ suffix)%string.
Proof.
  split.
  - unfold strings_HasSuffix. intros H.
    apply andb_true_iff in H as [_ H]. apply String.eqb_eq in H.
    exists (str_take (String.length s - String.length suffix) s).
    rewrite <- (str_take_drop (String.length s - String.length suffix) s) at 1.
    now rewrite H.
  - intros [a ->]. apply HasSuffix_app.
Qed.

Lemma TrimSuffix_app (a suffix : string) :
  strings_TrimSuffix (a ++ suffix)%string suffix = a.
Proof.
  unfold strings_TrimSuffix. rewrite HasSuffix_app, string_length_app.
  replace (String.length a + String.length suffix - String.length suffix)%nat
    with (String.length a) by lia.
  apply str_take_app.
Qed.

Lemma TrimSuffix_restore (s suffix : string) :
  strings_HasSuffix s suffix = true ->
  (strings_TrimSuffix s suffix ++ suffix)%string = s.
Proof.
  intros H. destruct (proj1 (HasSuffix_spec s suffix) H) as [a ->].
  now rewrite TrimSuffix_app.
Qed.

Lemma Index_first_underscore (a rest : string) :
  no_underscore a = true ->
  strings_Index (a ++ String "_" rest)%string "_" = Z.of_nat (String.length a).
Proof.
  induction a as [|c a IH]; intros H.
  - simpl. now destruct rest.
  - simpl in H. apply andb_true_iff in H as [Hc Ha].
    apply negb_true_iff in Hc.
    change (strings_Index (String c a ++ String "_" rest)%string "_")
      with (if String.prefix "_" (String c (a ++ String "_" rest)%string) then 0
            else let r := strings_Index (a ++ String "_" rest)%string "_" in
                 if r <? 0 then -1 else 1 + r).
    assert (Hp : String.prefix "_" (String c (a ++ String "_" rest)%string) = false).
    { change (String.prefix "_" (String c (a ++ String "_" rest)%string))
        with (if ascii_dec "_" c
              then String.prefix "" (a ++ String "_" rest)%string else false).
      destruct (ascii_dec "_" c) as [E|E]; [|reflexivity].
      subst c. discriminate Hc. }
    rewrite Hp. cbv zeta. rewrite (IH Ha).
    destruct (Z.of_nat (String.length a) <? 0) eqn:E; [apply Z.ltb_lt in E; lia|].
    simpl String.length. lia.
Qed.

Lemma parse_digits_no_underscore (s : string) (acc n : Z) :
  parse_digits s acc = DigitsValue n -> no_underscore s = true.
Proof.
  revert acc; induction s as [|c s IH]; intros acc H;
    cbn [parse_digits no_underscore] in *; [reflexivity|].
  destruct (is_digit c) eqn:D; [|discriminate].
  destruct (maxUint64 / 10 + 1 <=? acc); [discriminate|].
  destruct (maxUint64 <? 10 * acc + digit_val c); [discriminate|].
  rewrite (IH _ H), andb_true_r.
  destruct (Ascii.eqb_spec c "_") as [->|]; [discriminate D | reflexivity].
Qed.

Lemma atoi_digits_no_underscore (s0 digits : string) (neg : bool) (v : Z) :
  atoi_digits s0 neg digits = (v, None) -> no_underscore digits = true.
Proof.
  unfold atoi_digits. intros H.
  destruct digits as [|c d]; [discriminate|].
  destruct (parse_digits (String c d) 0) as [n| |] eqn:P;
    [|discriminate|destruct neg; discriminate].
  exact (parse_digits_no_underscore _ _ _ P).
Qed.

(** A string that [strconv.Atoi] accepts holds no underscore. *)
Lemma Atoi_no_underscore (s : string) (v : Z) :
  strconv_Atoi s = (v, None) -> no_underscore s = true.
Proof.
  unfold strconv_Atoi. intros H.
  destruct s as [|c rest]; [reflexivity|].
  destruct (Ascii.eqb_spec c "+") as [->|Hp].
  - simpl. exact (atoi_digits_no_underscore _ _ _ _ H).
  - destruct (Ascii.eqb_spec c "-") as [->|Hm].
    + simpl. exact (atoi_digits_no_underscore _ _ _ _ H).
    + exact (atoi_digits_no_underscore _ _ _ _ H).
Qed.

(** Cutting [<vs>_<rest>] at the first underscore gives back [vs] and
    [rest], whatever underscores [rest] holds. *)
Lemma split_at_first_underscore (vs rest : string) :
  no_underscore vs = true ->
  let fileName := (vs ++ "_" ++ rest)%string in
  let underscoreIndex := strings_Index fileName "_" in
  (underscoreIndex =? -1) = false
  /\ slice_to fileName underscoreIndex = vs
  /\ slice_from fileName (underscoreIndex + 1) = rest.
Proof.
  intros H. cbv zeta.
  change (vs ++ "_" ++ rest)%string with (vs ++ String "_" rest)%string.
  rewrite (Index_first_underscore vs rest H).
  split; [apply Z.eqb_neq; lia|]. split.
  - unfold slice_to. rewrite Nat2Z.id. apply str_take_app.
  - unfold slice_from.
    replace (Z.to_nat (Z.of_nat (String.length vs) + 1))
      with (String.length (vs ++ "_")%string) by (rewrite string_length_app; simpl; lia).
    change (vs ++ String "_" rest)%string with (vs ++ ("_" ++ rest))%string.
    rewrite <- string_app_assoc. apply str_drop_app.
Qed.

(** ** The loader *)

Lemma sql_name_assoc (vs name : string) :
  (vs ++ "_" ++ name ++ ".sql")%string = ((vs ++ "_" ++ name) ++ ".sql")%string.
Proof. now rewrite !string_app_assoc. Qed.

(** On a well-formed name whose file can be read, parseMigrationFile goes
    all the way to the fixture step with version, stem and SQL filled in. *)
Lemma parseMigrationFile_valid (afs : FS) (isDir fixtures : bool)
  (vs name sql : string) (v : Z) :
  let fileName := (vs ++ "_" ++ name ++ ".sql")%string in
  strconv_Atoi vs = (v, None) -> 0 < v ->
  is_fixture fileName = false ->
  fs_ReadFile afs fileName = (sql, None) ->
  parseMigrationFile afs (mkDirEntry fileName isDir) fixtures
  = if fixtures
    then loadFixture afs (vs ++ "_" ++ name) (mkMigration v name sql "")
    else (Some (mkMigration v name sql ""), None).
Proof.
  cbv zeta. intros Hv Hpos Hfix Hread.
  unfold is_fixture in Hfix.
  destruct (split_at_first_underscore vs name (Atoi_no_underscore _ _ Hv))
    as (Hidx & Hto & Hfrom).
  unfold parseMigrationFile. cbn [de_Name].
  rewrite Hfix. rewrite sql_name_assoc in *. rewrite HasSuffix_app.
  cbn [negb]. rewrite TrimSuffix_app.
  rewrite Hidx, Hto, Hfrom, Hv.
  cbn [set_Version set_Name Version Name MigrationSQL FixturesSQL zeroMigration].
  destruct (v <=? 0) eqn:E; [apply Z.leb_le in E; lia|].
  rewrite Hread. reflexivity.
Qed.

Lemma parseMigrationFileName_valid (vs rest : string) (v : Z) :
  strconv_Atoi vs = (v, None) -> 0 < v ->
  Legacy.parseMigrationFileName (vs ++ "_" ++ rest) = (v, rest, None).
Proof.
  intros Hv Hpos.
  destruct (split_at_first_underscore vs rest (Atoi_no_underscore _ _ Hv))
    as (Hidx & Hto & Hfrom).
  unfold Legacy.parseMigrationFileName.
  rewrite Hidx, Hto, Hfrom, Hv.
  destruct (v <=? 0) eqn:E; [apply Z.leb_le in E; lia | reflexivity].
Qed.

Lemma loadFixture_keeps (afs : FS) (stem : string) (m : Migration) :
  exists m', fst (loadFixture afs stem m) = Some m'
             /\ Version m' = Version m /\ Name m' = Name m
             /\ MigrationSQL m' = MigrationSQL m.
Proof.
  unfold loadFixture.
  destruct (fs_Stat afs (stem ++ ".fixture.sql")).
  - exists m. auto.
  - destruct (fs_ReadFile afs (stem ++ ".fixture.sql")) as [c [e|]].
    + exists m. auto.
    + exists (set_FixturesSQL m c). auto.
Qed.

(** Entries that are not [.sql] files, and fixture files, give neither a
    migration nor an error. *)
Lemma parseMigrationFile_skips (afs : FS) (file : DirEntry) (fixtures : bool) :
  is_sql (de_Name file) = false \/ is_fixture (de_Name file) = true ->
  parseMigrationFile afs file fixtures = (None, None).
Proof.
  unfold parseMigrationFile, is_sql, is_fixture. intros [H|H]; rewrite H.
  - reflexivity.
  - now destruct (strings_HasSuffix (de_Name file) ".sql").
Qed.

(** Every other entry gives a (possibly half-filled) migration. *)
Lemma parseMigrationFile_usable (afs : FS) (file : DirEntry) (fixtures : bool) :
  is_sql (de_Name file) = true -> is_fixture (de_Name file) = false ->
  exists m, fst (parseMigrationFile afs file fixtures) = Some m.
Proof.
  unfold parseMigrationFile, is_sql, is_fixture. intros H1 H2.
  rewrite H1, H2. cbn [negb].
  set (stem := strings_TrimSuffix (de_Name file) ".sql").
  destruct (strings_Index stem "_" =? -1); [eexists; reflexivity|].
  destruct (strconv_Atoi _) as [v [e|]]; [eexists; reflexivity|].
  destruct (Version _ <=? 0); [eexists; reflexivity|].
  destruct (fs_ReadFile afs (stem ++ ".sql")) as [sql [e|]];
    [eexists; reflexivity|].
  destruct fixtures; [|eexists; reflexivity].
  destruct (loadFixture_keeps afs stem
              (set_MigrationSQL
                 (set_Version
                    (set_Name zeroMigration
                       (slice_from stem (strings_Index stem "_" + 1))) v) sql))
    as (m' & Hm' & _).
  exists m'. exact Hm'.
Qed.

(** The flag [fixtures] only adds the fixture step. *)
Lemma parseMigrationFile_fixtures (afs : FS) (file : DirEntry) (m : Migration) :
  parseMigrationFile afs file false = (Some m, None) ->
  parseMigrationFile afs file true
  = loadFixture afs (strings_TrimSuffix (de_Name file) ".sql") m
  /\ FixturesSQL m = "".
Proof.
  unfold parseMigrationFile.
  destruct (negb (strings_HasSuffix (de_Name file) ".sql")); [discriminate|].
  destruct (strings_HasSuffix (de_Name file) ".fixture.sql"); [discriminate|].
  set (stem := strings_TrimSuffix (de_Name file) ".sql").
  destruct (strings_Index stem "_" =? -1); [discriminate|].
  destruct (strconv_Atoi _) as [v [e|]]; [discriminate|].
  destruct (Version _ <=? 0); [discriminate|].
  destruct (fs_ReadFile afs (stem ++ ".sql")) as [sql [e|]]; [discriminate|].
  intros H. injection H as <-. split; reflexivity.
Qed.

(** What the loop of LoadMigrationsFromFS appends: one migration per
    usable entry, in listing order. *)
Lemma loadEntries_usable (afs : FS) (fixtures : bool) (files : list DirEntry) :
  forall acc ms,
    loadEntries afs fixtures files acc = (ms, None) ->
    exists new,
      ms = acc ++ new
      /\ Forall2 (fun file m => parseMigrationFile afs file fixtures = (Some m, None))
           (filter usable files) new.
Proof.
  induction files as [|file rest IH]; intros acc ms H; simpl in H.
  - injection H as <-. exists []. rewrite app_nil_r. split; [reflexivity|constructor].
  - cbn [filter]. destruct (de_IsDir file) eqn:D.
    + assert (U : usable file = false) by (unfold usable; now rewrite D).
      rewrite U. now apply IH.
    + destruct (parseMigrationFile afs file fixtures) as [m [e|]] eqn:P;
        [discriminate|].
      destruct (is_sql (de_Name file)) eqn:S1;
        [destruct (is_fixture (de_Name file)) eqn:S2|].
      * assert (U : usable file = false)
          by (unfold usable; now rewrite D, S1, S2).
        rewrite parseMigrationFile_skips in P by (now right).
        injection P as <-. rewrite U. now apply IH.
      * assert (U : usable file = true)
          by (unfold usable; now rewrite D, S1, S2).
        destruct (parseMigrationFile_usable afs file fixtures S1 S2) as [m' Hm'].
        rewrite P in Hm'. cbn [fst] in Hm'. subst m.
        destruct (IH _ _ H) as (new & -> & HF).
        exists (m' :: new). rewrite <- app_assoc. split; [reflexivity|].
        rewrite U. constructor; assumption.
      * assert (U : usable file = false)
          by (unfold usable; now rewrite D, S1).
        rewrite parseMigrationFile_skips in P by (now left).
        injection P as <-. rewrite U. now apply IH.
Qed.

(** The error of the loop is never the empty-source error. *)
Lemma parseMigrationFile_error_not_empty (afs : FS) (file : DirEntry)
  (fixtures : bool) (m : option Migration) :
  parseMigrationFile afs file fixtures
  <> (m, Some (errors_New "no migrations found")).
Proof.
  unfold parseMigrationFile.
  destruct (negb _); [discriminate|].
  destruct (strings_HasSuffix _ ".fixture.sql"); [discriminate|].
  set (stem := strings_TrimSuffix (de_Name file) ".sql").
  destruct (_ =? -1); [discriminate|].
  destruct (strconv_Atoi _) as [v [e|]]; [discriminate|].
  destruct (Version _ <=? 0); [discriminate|].
  destruct (fs_ReadFile afs (stem ++ ".sql")) as [sql [e|]]; [discriminate|].
  destruct fixtures; [|discriminate].
  unfold loadFixture.
  destruct (fs_Stat afs _); [discriminate|].
  destruct (fs_ReadFile afs (stem ++ ".fixture.sql")) as [c [e|]]; discriminate.
Qed.

Lemma loadEntries_error_not_empty (afs : FS) (fixtures : bool)
  (files : list DirEntry) :
  forall acc ms,
    loadEntries afs fixtures files acc
    <> (ms, Some (errors_New "no migrations found")).
Proof.
  induction files as [|file rest IH]; intros acc ms; simpl; [discriminate|].
  destruct (de_IsDir file); [apply IH|].
  destruct (parseMigrationFile afs file fixtures) as [m [e|]] eqn:P.
  - intros H. injection H as _ ->.
    exact (parseMigrationFile_error_not_empty _ _ _ _ P).
  - destruct m; apply IH.
Qed.

(** What the code does: the empty-source error is returned exactly when
    the top-level listing itself is empty. *)
Lemma LoadMigrationsFromFS_empty_error_iff (afs : FS) (fixtures : bool) :
  snd (LoadMigrationsFromFS afs fixtures) = Some (errors_New "no migrations found")
  <-> fs_ReadDir afs = ([], None).
Proof.
  unfold LoadMigrationsFromFS.
  destruct (fs_ReadDir afs) as [files [e|]]; cbn [snd].
  - split; discriminate.
  - destruct files as [|f files]; cbn [List.length Nat.add].
    + split; reflexivity.
    + destruct (Z.of_nat (S (List.length files)) =? 0) eqn:E;
        [apply Z.eqb_eq in E; lia|].
      split; [|discriminate]. intros H.
      destruct (loadEntries afs fixtures (f :: files) []) as [ms err] eqn:L.
      cbn [snd] in H. subst err.
      now apply loadEntries_error_not_empty in L.
Qed.

(** A listing that holds only directories is loaded without error, as the
    empty list of migrations. *)
Lemma loadEntries_only_directories (afs : FS) (fixtures : bool)
  (files : list DirEntry) (acc : list Migration) :
  forallb de_IsDir files = true ->
  loadEntries afs fixtures files acc = (acc, None).
Proof.
  induction files as [|file rest IH]; simpl; intros H; [reflexivity|].
  apply andb_true_iff in H as [-> H]. now apply IH.
Qed.

(** C4 (the code departs from the claim). The claim: loading fails with
    "no migrations found" exactly when the source yields zero usable
    entries, a source holding only subdirectories failing like an empty
    one. LoadMigrationsFromFS tests [len(files) == 0] on the raw listing,
    before directories are skipped: an empty source fails, while a source
    whose only entry is a subdirectory is loaded without error as the
    empty list, in the fixture-aware loader and in the one of
    src/migration.go alike. *)
Theorem C4_only_subdirectories_load_without_error :
  forall fixtures : bool,
    LoadMigrationsFromFS (memFS []) fixtures
    = ([], Some (errors_New "no migrations found"))
    /\ filter usable (fst (fs_ReadDir (memFS [("subdir", MemDir)]))) = []
    /\ LoadMigrationsFromFS (memFS [("subdir", MemDir)]) fixtures = ([], None)
    /\ Legacy.LoadMigrationsFromFS (memFS [("subdir", MemDir)]) = ([], None).
Proof.
  intros fixtures. repeat split; reflexivity.
Qed.

(** C5, refuted as stated: the fixture-aware loader gives the file
    [10_add_index_to_users_table.sql] the name [add_index_to_users_table],
    not [add_index_to_users_table.sql]. *)
Lemma C5_counterexample :
  exists m,
    parseMigrationFile
      (memFS [("10_add_index_to_users_table.sql", MemFile "CREATE INDEX i;")])
      (mkDirEntry "10_add_index_to_users_table.sql" false) false
    = (Some m, None)
    /\ Version m = 10
    /\ Name m = "add_index_to_users_table"
    /\ Name m <> "add_index_to_users_table.sql".
Proof.
  eexists. split; [vm_compute; reflexivity|].
  cbn [Version Name]. repeat split. discriminate.
Qed.

(** C5 (amended). For a file name [<vs>_<name>.sql] whose prefix [vs]
    [strconv.Atoi] reads as [v > 0], that is not a fixture file and whose
    file can be read, parseMigrationFile extracts version [v] and the name
    [<name>] with the suffix [.sql] trimmed, whatever underscores [<name>]
    holds; parseMigrationFileName of src/migration.go extracts version [v]
    and the name [<name>.sql]. *)
Theorem C5_version_and_name_extracted :
  forall (afs : FS) (isDir fixtures : bool) (vs name sql : string) (v : Z),
    let fileName := (vs ++ "_" ++ name ++ ".sql")%string in
    strconv_Atoi vs = (v, None) -> 0 < v ->
    is_fixture fileName = false ->
    fs_ReadFile afs fileName = (sql, None) ->
    (exists m,
        fst (parseMigrationFile afs (mkDirEntry fileName isDir) fixtures) = Some m
        /\ Version m = v /\ Name m = name /\ MigrationSQL m = sql)
    /\ parseMigrationFile afs (mkDirEntry fileName isDir) false
       = (Some (mkMigration v name sql ""), None)
    /\ Legacy.parseMigrationFileName fileName = (v, (name ++ ".sql")%string, None).
Proof.
  intros afs isDir fixtures vs name sql v fileName Hv Hpos Hfix Hread.
  split; [|split].
  - subst fileName.
    rewrite (parseMigrationFile_valid afs isDir fixtures vs name sql v Hv Hpos Hfix Hread).
    destruct fixtures.
    + apply loadFixture_keeps.
    + eexists. cbn [fst]. repeat split.
  - apply (parseMigrationFile_valid afs isDir false vs name sql v Hv Hpos Hfix Hread).
  - apply (parseMigrationFileName_valid vs (name ++ ".sql") v Hv Hpos).
Qed.

Lemma C5_version_and_name_extracted_witness :
  parseMigrationFile
    (memFS [("10_add_index_to_users_table.sql", MemFile "CREATE INDEX i;")])
    (mkDirEntry "10_add_index_to_users_table.sql" false) false
  = (Some (mkMigration 10 "add_index_to_users_table" "CREATE INDEX i;" ""), None)
  /\ Legacy.parseMigrationFileName "10_add_index_to_users_table.sql"
     = (10, "add_index_to_users_table.sql", None).
Proof.
  apply (C5_version_and_name_extracted
           (memFS [("10_add_index_to_users_table.sql", MemFile "CREATE INDEX i;")])
           false false "10" "add_index_to_users_table" "CREATE INDEX i;" 10).
  - reflexivity.
  - lia.
  - reflexivity.
  - reflexivity.
Defined.

(** Entries that are skipped change nothing in the loop: it gives what
    it gives on the usable entries alone, migrations and error. *)
Lemma loadEntries_skips (afs : FS) (fixtures : bool) (files : list DirEntry) :
  forall acc,
    loadEntries afs fixtures files acc
    = loadEntries afs fixtures (filter usable files) acc.
Proof.
  induction files as [|file rest IH]; intros acc; [reflexivity|].
  cbn [filter]. unfold usable at 1.
  destruct (de_IsDir file) eqn:D; cbn [negb andb].
  { cbn [loadEntries]. rewrite D. apply IH. }
  destruct (is_sql (de_Name file)) eqn:S1; cbn [andb].
  2:{ cbn [loadEntries]. rewrite D.
      rewrite parseMigrationFile_skips by (now left). apply IH. }
  destruct (is_fixture (de_Name file)) eqn:S2; cbn [negb].
  { cbn [loadEntries]. rewrite D.
    rewrite parseMigrationFile_skips by (now right). apply IH. }
  cbn [loadEntries]. rewrite D.
  destruct (parseMigrationFile afs file fixtures) as [[m|] [e|]];
    try reflexivity; apply IH.
Qed.

Lemma usable_not_dir (file : DirEntry) :
  usable file = true -> de_IsDir file = false.
Proof.
  unfold usable. destruct (de_IsDir file); [discriminate | reflexivity].
Qed.

(** When every entry of a listing parses, the loop returns their
    migrations, in order. *)
Lemma loadEntries_all_parse (afs : FS) (fixtures : bool)
  (files : list DirEntry) (ms : list Migration) :
  Forall (fun file => de_IsDir file = false) files ->
  Forall2 (fun file m => parseMigrationFile afs file fixtures = (Some m, None))
    files ms ->
  forall acc, loadEntries afs fixtures files acc = ((acc ++ ms)%list, None).
Proof.
  intros Hd HF. induction HF as [|file m files ms Hp HF IH]; intros acc.
  - now rewrite app_nil_r.
  - apply Forall_cons_iff in Hd as [D Hd].
    cbn [loadEntries]. rewrite D, Hp, (IH Hd), <- app_assoc. reflexivity.
Qed.

(** A source whose listing is not empty loads exactly when each of its
    usable entries parses: the entries that are skipped give neither a
    migration nor an error. *)
Lemma LoadMigrationsFromFS_usable (afs : FS) (fixtures : bool)
  (files : list DirEntry) :
  fs_ReadDir afs = (files, None) -> files <> [] ->
  LoadMigrationsFromFS afs fixtures
  = loadEntries afs fixtures (filter usable files) []
  /\ forall ms,
      LoadMigrationsFromFS afs fixtures = (ms, None)
      <-> Forall2 (fun file m =>
                     parseMigrationFile afs file fixtures = (Some m, None))
            (filter usable files) ms.
Proof.
  intros Hdir Hne.
  assert (E : LoadMigrationsFromFS afs fixtures
              = loadEntries afs fixtures (filter usable files) []).
  { unfold LoadMigrationsFromFS. rewrite Hdir.
    destruct files as [|f files]; [now elim Hne|].
    cbn [List.length Z.eqb]. rewrite <- loadEntries_skips.
    destruct (Z.of_nat (S (List.length files)) =? 0) eqn:Z0;
      [apply Z.eqb_eq in Z0; lia | reflexivity]. }
  split; [exact E|]. intros ms. rewrite E. split.
  - intros H. rewrite <- loadEntries_skips in H.
    destruct (loadEntries_usable afs fixtures files [] ms H) as (new & -> & HF).
    exact HF.
  - intros HF.
    apply (loadEntries_all_parse afs fixtures _ _) with (acc := []) in HF;
      [exact HF|].
    apply Forall_forall. intros file Hin. apply filter_In in Hin as [_ U].
    now apply usable_not_dir.
Qed.

Lemma Forall2_map_combine {A B : Type} (R R' : A -> B -> Prop) (f : A -> B -> B)
  (l : list A) (ms : list B) :
  Forall2 R l ms ->
  (forall x m, In x l -> R x m -> R' x (f x m)) ->
  Forall2 R' l (map (fun p => f (fst p) (snd p)) (combine l ms)).
Proof.
  induction 1 as [|x m l ms Hx HF IH]; intros Hf; cbn [combine map fst snd].
  - constructor.
  - constructor; [apply Hf; [now left | exact Hx]|].
    apply IH. intros y n Hy. apply Hf. now right.
Qed.

Lemma map_combine_same {A B : Type} (f : A -> B -> B) (l : list A) (ms : list B) :
  List.length l = List.length ms ->
  (forall x m, In x l -> f x m = m) ->
  map (fun p => f (fst p) (snd p)) (combine l ms) = ms.
Proof.
  revert ms. induction l as [|x l IH]; intros [|m ms] Hlen Hf;
    cbn [combine map fst snd List.length] in *; try discriminate; [reflexivity|].
  rewrite Hf by (now left). f_equal. apply IH; [lia|].
  intros y n Hy. apply Hf. now right.
Qed.

(** C9. Loading a source whose listing is not empty gives what the loop
    gives on the usable entries alone: an entry that does not end in
    [.sql] and an entry that ends in [.fixture.sql] add no migration and
    cause no error, whatever the other entries, so the source loads
    exactly when each usable entry parses, with one migration per usable
    entry in listing order. A source that loads without fixtures has
    empty FixturesSQL throughout, and loads with fixtures enabled too
    whenever each fixture file that exists can be read: each migration
    then carries the contents of its [<stem>.fixture.sql] when [fs.Stat]
    finds that file and is unchanged, FixturesSQL empty, when it does
    not; with no fixture file at all the result is the same as without
    fixtures. The same holds entry by entry for parseMigrationFile. *)
Theorem C9_fixtures_and_skipped_entries :
  forall (afs : FS) (fixtures : bool),
    (forall file,
        is_sql (de_Name file) = false \/ is_fixture (de_Name file) = true ->
        parseMigrationFile afs file fixtures = (None, None))
    /\ (forall files,
           fs_ReadDir afs = (files, None) -> files <> [] ->
           LoadMigrationsFromFS afs fixtures
           = loadEntries afs fixtures (filter usable files) []
           /\ Forall (fun file => is_fixture (de_Name file) = false
                                  /\ is_sql (de_Name file) = true)
                (filter usable files)
           /\ (forall ms,
                  LoadMigrationsFromFS afs fixtures = (ms, None)
                  <-> Forall2 (fun file m =>
                                 parseMigrationFile afs file fixtures
                                 = (Some m, None))
                        (filter usable files) ms)
           /\ (forall ms,
                  LoadMigrationsFromFS afs false = (ms, None) ->
                  Forall (fun m => FixturesSQL m = "") ms
                  /\ ((forall file,
                          In file (filter usable files) ->
                          fs_Stat afs (fixtureFileName file) = None ->
                          snd (fs_ReadFile afs (fixtureFileName file)) = None) ->
                      LoadMigrationsFromFS afs true
                      = (map (fun p => withFixture afs (fst p) (snd p))
                           (combine (filter usable files) ms), None))
                  /\ ((forall file,
                          In file (filter usable files) ->
                          fs_Stat afs (fixtureFileName file) <> None) ->
                      LoadMigrationsFromFS afs true = (ms, None))))
    /\ (forall file m,
           parseMigrationFile afs file false = (Some m, None) ->
           let fixtureName :=
             (strings_TrimSuffix (de_Name file) ".sql" ++ ".fixture.sql")%string in
           FixturesSQL m = ""
           /\ (forall contents,
                  fs_Stat afs fixtureName = None ->
                  fs_ReadFile afs fixtureName = (contents, None) ->
                  parseMigrationFile afs file true
                  = (Some (set_FixturesSQL m contents), None))
           /\ (forall e,
                  fs_Stat afs fixtureName = Some e ->
                  parseMigrationFile afs file true = (Some m, None))).
Proof.
  intros afs fixtures. split; [|split].
  - intros file H. now apply parseMigrationFile_skips.
  - intros files Hdir Hne.
    destruct (LoadMigrationsFromFS_usable afs fixtures files Hdir Hne)
      as [E Hiff].
    split; [exact E|]. split.
    { apply Forall_forall. intros file Hin.
      apply filter_In in Hin as [_ U]. unfold usable in U.
      apply andb_true_iff in U as [U U2]. apply andb_true_iff in U as [_ U1].
      apply negb_true_iff in U2. now split. }
    split; [exact Hiff|].
    intros ms Hload.
    destruct (LoadMigrationsFromFS_usable afs false files Hdir Hne) as [_ Hoff].
    destruct (LoadMigrationsFromFS_usable afs true files Hdir Hne) as [_ Hon].
    apply Hoff in Hload.
    assert (Hattach :
              (forall file,
                  In file (filter usable files) ->
                  fs_Stat afs (fixtureFileName file) = None ->
                  snd (fs_ReadFile afs (fixtureFileName file)) = None) ->
              LoadMigrationsFromFS afs true
              = (map (fun p => withFixture afs (fst p) (snd p))
                   (combine (filter usable files) ms), None)).
    { intros Hread. apply Hon.
      apply (Forall2_map_combine _ _ (withFixture afs) _ _ Hload).
      intros file m Hin Hp.
      destruct (parseMigrationFile_fixtures afs file m Hp) as [-> _].
      specialize (Hread file Hin).
      unfold loadFixture, withFixture. fold (fixtureFileName file).
      destruct (fs_Stat afs (fixtureFileName file)); [reflexivity|].
      specialize (Hread eq_refl).
      destruct (fs_ReadFile afs (fixtureFileName file)) as [contents err].
      cbn [snd] in Hread. subst err. reflexivity. }
    split; [|split].
    + assert (Hempty : forall l ms',
                 Forall2 (fun file m =>
                            parseMigrationFile afs file false = (Some m, None))
                   l ms' ->
                 Forall (fun m => FixturesSQL m = "") ms').
      { induction 1 as [|file m l ms' Hp _ IH]; constructor; [|exact IH].
        exact (proj2 (parseMigrationFile_fixtures afs file m Hp)). }
      exact (Hempty _ _ Hload).
    + exact Hattach.
    + intros Hmissing. rewrite Hattach.
      * f_equal. apply map_combine_same; [exact (Forall2_length Hload)|].
        intros file m Hin. unfold withFixture.
        specialize (Hmissing file Hin).
        destruct (fs_Stat afs (fixtureFileName file)); [reflexivity|].
        now elim Hmissing.
      * intros file Hin Hs. now elim (Hmissing file Hin).
  - intros file m H fixtureName.
    destruct (parseMigrationFile_fixtures afs file m H) as [Hp Hf].
    split; [exact Hf|]. split.
    + intros contents Hs Hr. rewrite Hp. unfold loadFixture.
      fold fixtureName. now rewrite Hs, Hr.
    + intros e Hs. rewrite Hp. unfold loadFixture.
      fold fixtureName. now rewrite Hs.
Qed.

Lemma C9_fixtures_and_skipped_entries_witness :
  LoadMigrationsFromFS
    (memFS [("README.md", MemFile "notes");
            ("1_users.fixture.sql", MemFile "INSERT INTO users VALUES (1);");
            ("1_users.sql", MemFile "CREATE TABLE users (id INT);");
            ("seeds", MemDir);
            ("2_posts.sql", MemFile "CREATE TABLE posts (id INT);")])
    true
  = ([mkMigration 1 "users" "CREATE TABLE users (id INT);"
        "INSERT INTO users VALUES (1);";
      mkMigration 2 "posts" "CREATE TABLE posts (id INT);" ""], None).
Proof.
  destruct (C9_fixtures_and_skipped_entries
              (memFS [("README.md", MemFile "notes");
                      ("1_users.fixture.sql",
                       MemFile "INSERT INTO users VALUES (1);");
                      ("1_users.sql", MemFile "CREATE TABLE users (id INT);");
                      ("seeds", MemDir);
                      ("2_posts.sql", MemFile "CREATE TABLE posts (id INT);")])
              true) as (_ & H & _).
  destruct (H _ eq_refl) as (_ & _ & _ & Hfx); [discriminate|].
  destruct (Hfx [mkMigration 1 "users" "CREATE TABLE users (id INT);" "";
                 mkMigration 2 "posts" "CREATE TABLE posts (id INT);" ""]
              eq_refl) as (_ & Hattach & _).
  rewrite Hattach; [reflexivity|].
  intros file Hin Hs.
  destruct Hin as [<-|[<-|[]]]; [reflexivity | discriminate Hs].
Defined.

(** ** Sorting *)

Lemma insert_sorted_perm (m : Migration) (l : list Migration) :
  Permutation (m :: l) (insert_sorted m l).
Proof.
  induction l as [|x l IH]; simpl; [constructor; constructor|].
  destruct (Version m <? Version x); [reflexivity|].
  rewrite perm_swap. now constructor.
Qed.

Lemma insert_sorted_sorted (m : Migration) (l : list Migration) :
  StronglySorted version_le l -> StronglySorted version_le (insert_sorted m l).
Proof.
  induction 1 as [|x l Hs IH Hx]; simpl.
  - repeat constructor.
  - destruct (Version m <? Version x) eqn:E.
    + apply Z.ltb_lt in E. constructor; [now constructor|].
      constructor; [unfold version_le; lia|].
      eapply Forall_impl; [|exact Hx]. unfold version_le. intros; lia.
    + apply Z.ltb_ge in E. constructor; [exact IH|].
      eapply Permutation_Forall; [apply insert_sorted_perm|].
      constructor; [exact E | exact Hx].
Qed.

Lemma insertion_fold_perm (ms acc : list Migration) :
  Permutation (ms ++ acc) (fold_left (fun a m => insert_sorted m a) ms acc).
Proof.
  revert acc; induction ms as [|m ms IH]; intros acc; simpl; [reflexivity|].
  rewrite <- IH. rewrite <- insert_sorted_perm. apply Permutation_middle.
Qed.

Lemma insertion_fold_sorted (ms acc : list Migration) :
  StronglySorted version_le acc ->
  StronglySorted version_le (fold_left (fun a m => insert_sorted m a) ms acc).
Proof.
  revert acc; induction ms as [|m ms IH]; intros acc H; simpl; [exact H|].
  apply IH. now apply insert_sorted_sorted.
Qed.

(** Insertion sort keeps the contract of [sort.Slice]. *)
#[export] Instance insertionSorter : SliceSorter := {|
  sort_Slice := insertionSort;
  sort_Slice_perm := fun ms =>
    eq_ind _ (fun l => Permutation l (insertionSort ms))
      (insertion_fold_perm ms []) _ (app_nil_r ms);
  sort_Slice_sorted := fun ms =>
    insertion_fold_sorted ms [] (SSorted_nil version_le)
|}.

(** ** The counted loop *)

Lemma for_range_nil (lo hi : Z) : hi <= lo -> for_range lo hi = [].
Proof.
  intros H. unfold for_range.
  replace (Z.to_nat (hi - lo)) with 0%nat by lia. reflexivity.
Qed.

Lemma for_range_cons (lo hi : Z) :
  lo < hi -> for_range lo hi = lo :: for_range (lo + 1) hi.
Proof.
  intros H. unfold for_range.
  replace (Z.to_nat (hi - lo)) with (S (Z.to_nat (hi - (lo + 1)))) by lia.
  cbn [seq map]. f_equal; [lia|].
  rewrite <- seq_shift, map_map. apply map_ext. intros k. lia.
Qed.

Lemma slice_index_skipn {A : Type} (s : list A) (i : Z) :
  0 <= i ->
  slice_index s i = hd_error (skipn (Z.to_nat i) s).
Proof.
  intros H. unfold slice_index.
  destruct (i <? 0) eqn:E; [apply Z.ltb_lt in E; lia|].
  generalize (Z.to_nat i) as n. clear.
  intros n; revert s; induction n as [|n IH]; intros [|x s]; simpl; auto.
Qed.

Lemma skipn_succ_tail {A : Type} (s : list A) (n : nat) (x : A) (rest : list A) :
  skipn n s = x :: rest -> skipn (S n) s = rest.
Proof.
  revert s; induction n as [|n IH]; intros [|y s] H; simpl in *;
    try discriminate.
  - now injection H as _ ->.
  - now apply IH.
Qed.

Lemma skipn_len_nil {A : Type} (s : list A) (i : Z) :
  len s <= i -> skipn (Z.to_nat i) s = [].
Proof. unfold len. intros H. apply skipn_all2. lia. Qed.

Lemma skipn_nonempty_lt {A : Type} (s : list A) (i : Z) (x : A) (rest : list A) :
  0 <= i -> skipn (Z.to_nat i) s = x :: rest -> i < len s.
Proof.
  intros Hi H. unfold len.
  destruct (Z_lt_ge_dec i (Z.of_nat (List.length s))) as [L|G]; [exact L|].
  rewrite skipn_all2 in H by lia. discriminate.
Qed.

(** ** Reading traces *)

Lemma attempted_app (a b : list Event) :
  attempted (a ++ b) = attempted a ++ attempted b.
Proof.
  induction a as [|e a IH]; simpl; [reflexivity|].
  destruct e; simpl; now rewrite ?IH.
Qed.

Lemma applied_app (a b : list Event) : applied (a ++ b) = applied a ++ applied b.
Proof.
  induction a as [|e a IH]; simpl; [reflexivity|].
  destruct e as [| | | |m [err|]| | | |]; simpl; now rewrite ?IH.
Qed.

Lemma failures_app (a b : list Event) :
  failures (a ++ b) = failures a ++ failures b.
Proof.
  induction a as [|e a IH]; simpl; [reflexivity|].
  destruct e as [| | | |m [err|]| | | |]; simpl; now rewrite ?IH.
Qed.

Lemma failures_In (tr : list Event) (m : Migration) (e : error) :
  In (EvApplyMigration m (Some e)) tr <-> In (m, e) (failures tr).
Proof.
  induction tr as [|x tr IH]; simpl; [tauto|].
  destruct x as [| | | |m' [err|]| | | |]; simpl; rewrite <- IH;
    try (split; [intros [H|H]; [discriminate H | exact H] | tauto]).
  split.
  - intros [H|H]; [injection H as -> ->; now left | now right].
  - intros [H|H]; [injection H as -> ->; now left | now right].
Qed.

Lemma logs_silent (tr : list Event) :
  forallb is_log tr = true ->
  attempted tr = [] /\ applied tr = [] /\ failures tr = []
  /\ filter is_Close tr = [] /\ filter is_CreateMigrationsTable tr = []
  /\ forall c rest, guarded c (tr ++ rest) = guarded c rest.
Proof.
  induction tr as [|e tr IH]; simpl; intros H; [repeat split; reflexivity|].
  apply andb_true_iff in H as [He H]. specialize (IH H).
  destruct IH as (A & B & C & D & E & F).
  destruct e; try discriminate He; simpl; repeat split; auto.
Qed.

Lemma logInfo_is_log (logger : option stdoutLogger) (msg : string) :
  forallb is_log (logInfo logger msg) = true.
Proof. now destruct logger. Qed.

Lemma logError_is_log (logger : option stdoutLogger) (e : error) :
  forallb is_log (logError logger e) = true.
Proof. now destruct logger. Qed.

Lemma count_events_app (p : Event -> bool) (a b : list Event) :
  count_events p (a ++ b) = (count_events p a + count_events p b)%nat.
Proof. unfold count_events. now rewrite filter_app, length_app. Qed.

Lemma loop_events_counts (tr : list Event) :
  forallb is_loop_event tr = true ->
  count_events is_Close tr = 0%nat
  /\ count_events is_CreateMigrationsTable tr = 0%nat.
Proof.
  unfold count_events.
  induction tr as [|e tr IH]; simpl; intros H; [split; reflexivity|].
  apply andb_true_iff in H as [He H]. specialize (IH H).
  destruct e; try discriminate He; simpl; exact IH.
Qed.

Lemma logs_are_loop_events (tr : list Event) :
  forallb is_log tr = true -> forallb is_loop_event tr = true.
Proof.
  induction tr as [|e tr IH]; simpl; intros H; [reflexivity|].
  apply andb_true_iff in H as [He H]. rewrite (IH H), andb_true_r.
  destruct e; try discriminate He; reflexivity.
Qed.

(** ** The apply loop *)

(** Equal traces up to the bracketing of [++]. *)
Ltac trace_assoc :=
  cbn [app]; rewrite <- ?app_assoc; cbn [app]; rewrite ?app_nil_r;
  try reflexivity.

Section RunnerFacts.

Context {W : Type} {sorter : SliceSorter}.
Variable ctx : Context W.
Variable driver : MigrationDriver W.
Variable logger : option stdoutLogger.

Lemma applyLoop_pending (migrations : list Migration) :
  forall (n : nat) (v a : Z) (w : W),
    0 <= v -> n = Z.to_nat (len migrations - v) ->
    applyLoop ctx driver logger migrations (for_range v (len migrations)) a w
    = applyPending ctx driver logger (skipn (Z.to_nat v) migrations) a w.
Proof.
  induction n as [|n IH]; intros v a w Hv Hn.
  - rewrite for_range_nil by lia. rewrite skipn_len_nil by lia. reflexivity.
  - rewrite for_range_cons by lia.
    destruct (skipn (Z.to_nat v) migrations) as [|m rest] eqn:Hs.
    + exfalso. unfold len in Hn.
      assert (List.length (skipn (Z.to_nat v) migrations) = 0%nat)
        by now rewrite Hs.
      rewrite length_skipn in H. lia.
    + cbn [applyLoop applyPending].
      rewrite (slice_index_skipn migrations v Hv), Hs. cbn [hd_error].
      destruct (ctx w); [reflexivity|].
      fold (applyInfo logger m). fold (applyError m).
      destruct (ApplyMigration driver ctx m w) as [[e|] w1]; [reflexivity|].
      rewrite (IH (v + 1) (a + 1) w1) by lia.
      replace (Z.to_nat (v + 1)) with (S (Z.to_nat v)) by lia.
      now rewrite (skipn_succ_tail _ _ _ _ Hs).
Qed.

(** A negative current version makes the first pass of the loop end the
    call: by cancellation or by the index panic, before any
    [ApplyMigration]. *)
Lemma applyLoop_negative (migrations : list Migration) (v a : Z) (w : W) :
  v < 0 ->
  exists o evs,
    applyLoop ctx driver logger migrations (for_range v (len migrations)) a w
    = (LoopExit o, w, evs)
    /\ o <> Return None /\ attempted evs = [].
Proof.
  intros Hv. unfold len. rewrite for_range_cons by lia.
  cbn [applyLoop]. destruct (ctx w) as [e|].
  - eexists _, _. repeat split. discriminate.
  - unfold slice_index. destruct (v <? 0) eqn:E; [|apply Z.ltb_ge in E; lia].
    eexists _, _. repeat split. discriminate.
Qed.

Lemma applyLoop_events (migrations : list Migration) (idxs : list Z) :
  forall a w,
    let evs := snd (applyLoop ctx driver logger migrations idxs a w) in
    forallb is_loop_event evs = true /\ guarded false evs = true.
Proof.
  induction idxs as [|i rest IH]; intros a w; cbn [applyLoop].
  - split; reflexivity.
  - destruct (ctx w); [split; reflexivity|].
    destruct (slice_index migrations i) as [m|]; [|split; reflexivity].
    fold (applyInfo logger m). fold (applyError m).
    pose proof (logInfo_is_log logger
                  ("applying migration " ++ itoa (Version m) ++ ": " ++ Name m))
      as Hi.
    fold (applyInfo logger m) in Hi.
    destruct (logs_silent _ Hi) as (_ & _ & _ & _ & _ & Gi).
    destruct (ApplyMigration driver ctx m w) as [[e|] w1].
    + cbn [snd]. split.
      * cbn [forallb is_loop_event]. rewrite forallb_app.
        rewrite (logs_are_loop_events _ Hi). cbn [forallb is_loop_event andb].
        apply logs_are_loop_events, logError_is_log.
      * cbn [guarded]. rewrite Gi. cbn [guarded andb].
        pose proof (logError_is_log logger (applyError m e)) as He.
        destruct (logs_silent _ He) as (_ & _ & _ & _ & _ & Ge).
        specialize (Ge false []). rewrite app_nil_r in Ge. exact Ge.
    + specialize (IH (a + 1) w1).
      destruct (applyLoop ctx driver logger migrations rest (a + 1) w1)
        as [[f w2] evs].
      cbn [snd] in *. destruct IH as [IH1 IH2]. split.
      * cbn [forallb is_loop_event]. rewrite forallb_app.
        rewrite (logs_are_loop_events _ Hi). cbn [forallb is_loop_event andb].
        exact IH1.
      * cbn [guarded]. rewrite Gi. cbn [guarded andb]. exact IH2.
Qed.

Lemma applyInfo_silent (m : Migration) :
  attempted (applyInfo logger m) = [] /\ applied (applyInfo logger m) = []
  /\ failures (applyInfo logger m) = [].
Proof.
  destruct (logs_silent (applyInfo logger m) (logInfo_is_log _ _))
    as (A & B & C & _). auto.
Qed.

(** The loop runs to its end only by applying every pending migration. *)
Lemma applyPending_done (pending : list Migration) :
  forall a w a' w' evs,
    applyPending ctx driver logger pending a w = (LoopDone a', w', evs) ->
    a' = a + len pending
    /\ attempted evs = pending /\ applied evs = pending
    /\ failures evs = []
    /\ applied_through ctx driver pending w = Some w'.
Proof.
  induction pending as [|m rest IH]; intros a w a' w' evs H;
    cbn [applyPending applied_through] in *.
  - injection H as <- <- <-. unfold len. cbn. repeat split; auto; lia.
  - destruct (ctx w); [discriminate|].
    destruct (ApplyMigration driver ctx m w) as [[e|] w1]; [discriminate|].
    destruct (applyPending ctx driver logger rest (a + 1) w1) as [[f w2] evs'] eqn:R.
    injection H as -> -> <-.
    destruct (IH _ _ _ _ _ R) as (Ha & Hat & Hap & Hf & Ht).
    destruct (applyInfo_silent m) as (I1 & I2 & I3).
    cbn [attempted applied failures].
    rewrite attempted_app, applied_app, failures_app, I1, I2, I3.
    cbn [attempted applied failures app]. rewrite Hat, Hap, Hf.
    repeat split; auto. unfold len in *. cbn [List.length]. lia.
Qed.

(** The loop is left early at one pending migration [m]: because the
    context is found cancelled before it, or because applying it fails.
    The migrations before [m] were applied, and nothing is tried after
    it. *)
Lemma applyPending_exit (pending : list Migration) :
  forall a w o w' evs,
    applyPending ctx driver logger pending a w = (LoopExit o, w', evs) ->
    exists done m rest w_mid pre,
      pending = done ++ m :: rest
      /\ applied_through ctx driver done w = Some w_mid
      /\ attempted pre = done /\ applied pre = done /\ failures pre = []
      /\ ((exists e, ctx w_mid = Some e /\ o = Return (Some e) /\ w' = w_mid
                     /\ evs = pre ++ [EvCtxErr (Some e); EvCtxErr (Some e)])
          \/ (exists e, ctx w_mid = None
                        /\ ApplyMigration driver ctx m w_mid = (Some e, w')
                        /\ o = Return (Some (applyError m e))
                        /\ evs = pre ++ EvApplyMigration m (Some e)
                                       :: logError logger (applyError m e))).
Proof.
  induction pending as [|m rest IH]; intros a w o w' evs H;
    cbn [applyPending] in H; [discriminate|].
  destruct (applyInfo_silent m) as (I1 & I2 & I3).
  destruct (ctx w) as [e|] eqn:C.
  - injection H as <- <- <-.
    exists [], m, rest, w, []. cbn [applied_through app attempted applied failures].
    repeat split; auto. left. exists e. auto.
  - destruct (ApplyMigration driver ctx m w) as [[e|] w1] eqn:A.
    + injection H as <- <- <-.
      exists [], m, rest, w, (EvCtxErr None :: applyInfo logger m).
      cbn [applied_through app attempted applied failures].
      repeat split; auto. right. exists e. auto.
    + destruct (applyPending ctx driver logger rest (a + 1) w1) as [[f w2] evs'] eqn:R.
      injection H as -> -> <-.
      destruct (IH _ _ _ _ _ R)
        as (done & m' & rest' & w_mid & pre & -> & Ht & Hat & Hap & Hf & Hcase).
      exists (m :: done), m', rest', w_mid,
        (EvCtxErr None :: applyInfo logger m ++ EvApplyMigration m None :: pre).
      cbn [applied_through]. rewrite C, A.
      cbn [attempted applied failures].
      rewrite attempted_app, applied_app, failures_app, I1, I2, I3.
      cbn [attempted applied failures app]. rewrite Hat, Hap, Hf.
      repeat split; auto.
      destruct Hcase as [(e & H1 & H2 & H3 & ->)|(e & H1 & H2 & H3 & ->)];
        [left | right]; exists e; repeat split; auto; trace_assoc.
Qed.

(** Cancellation found before a pending migration ends the loop with
    the context's error, that migration and the later ones untried. *)
Lemma applyPending_cancelled (done : list Migration) :
  forall m rest a w w_mid e,
    applied_through ctx driver done w = Some w_mid -> ctx w_mid = Some e ->
    exists pre,
      applyPending ctx driver logger (done ++ m :: rest) a w
      = (LoopExit (Return (Some e)), w_mid,
         pre ++ [EvCtxErr (Some e); EvCtxErr (Some e)])
      /\ attempted pre = done /\ applied pre = done.
Proof.
  induction done as [|d done IH]; intros m rest a w w_mid e Ht Hc;
    cbn [applied_through app applyPending] in *.
  - injection Ht as ->. rewrite Hc. exists []. auto.
  - destruct (ctx w); [discriminate|].
    destruct (ApplyMigration driver ctx d w) as [[e'|] w1]; [discriminate|].
    destruct (IH m rest (a + 1) _ _ _ Ht Hc) as (pre & -> & Hat & Hap).
    destruct (applyInfo_silent d) as (I1 & I2 & _).
    exists (EvCtxErr None :: applyInfo logger d ++ EvApplyMigration d None :: pre).
    cbn [attempted applied].
    rewrite attempted_app, applied_app, I1, I2.
    cbn [attempted applied app]. rewrite Hat, Hap.
    repeat split; auto. trace_assoc.
Qed.

(** ** RunMigrations *)

(** After a successful setup with a current version that is not
    negative, RunMigrations is the apply loop over the migrations from
    sorted index [v] on, then [Close]. *)
Lemma RunMigrations_after_setup (migrations : list Migration) (w w3 : W) (v : Z) :
  setup_ok ctx driver w v w3 -> 0 <= v ->
  forall f w4 evs,
    applyPending ctx driver logger
      (skipn (Z.to_nat v) (sort_Slice migrations)) 0 w3 = (f, w4, evs) ->
    RunMigrations ctx driver logger migrations w
    = mkRunResult (flow_outcome f) (sort_Slice migrations)
        (snd (Close driver ctx w4))
        (setupEvents logger v ++ evs ++ appliedInfo logger f
           ++ [EvClose (fst (Close driver ctx w4))]).
Proof.
  intros (w1 & w2 & H1 & H2 & H3) Hv f w4 evs HL.
  unfold RunMigrations, runConnected. rewrite H1, H2, H3.
  rewrite (applyLoop_pending (sort_Slice migrations) _ v 0 w3 Hv eq_refl), HL.
  unfold setupEvents.
  destruct f as [a|o]; cbn [flow_outcome appliedInfo];
    destruct (Close driver ctx w4) as [cerr w5]; cbn [fst snd]; trace_assoc.
Qed.

(** Without such a setup, the call fails before any [ApplyMigration]. *)
Lemma RunMigrations_cases (migrations : list Migration) (w : W) :
  (exists v w3, setup_ok ctx driver w v w3 /\ 0 <= v)
  \/ (rr_outcome (RunMigrations ctx driver logger migrations w) <> Return None
      /\ attempted (rr_trace (RunMigrations ctx driver logger migrations w)) = []).
Proof.
  unfold RunMigrations, runConnected.
  destruct (Connect driver ctx w) as [[e|] w1] eqn:H1.
  { right. cbn [rr_outcome rr_trace attempted]. split; [discriminate|].
    now destruct (logs_silent _ (logError_is_log logger
          (fmt_Errorf "failed to connect to the database: " e))). }
  destruct (CreateMigrationsTable driver ctx w1) as [[e|] w2] eqn:H2.
  { right. destruct (Close driver ctx w2) as [cerr w5].
    cbn [rr_outcome rr_trace]. split; [discriminate|].
    cbn [attempted app]. rewrite attempted_app.
    now destruct (logs_silent _ (logError_is_log logger
          (fmt_Errorf "failed to create migrations table: " e))) as [-> _]. }
  destruct (GetCurrentVersion driver ctx w2) as [[v [e|]] w3] eqn:H3.
  { right. destruct (Close driver ctx w3) as [cerr w5].
    cbn [rr_outcome rr_trace]. split; [discriminate|].
    cbn [attempted app]. rewrite attempted_app.
    now destruct (logs_silent _ (logError_is_log logger
          (fmt_Errorf "failed to get current version: " e))) as [-> _]. }
  destruct (Z_lt_ge_dec v 0) as [Hneg|Hpos].
  - right.
    destruct (applyLoop_negative (sort_Slice migrations) v 0 w3 Hneg)
      as (o & evs & -> & Ho & Hat).
    destruct (Close driver ctx w3) as [cerr w5].
    cbn [rr_outcome rr_trace]. split; [exact Ho|].
    cbn [attempted app]. rewrite !attempted_app, Hat.
    now destruct (logs_silent _ (logInfo_is_log logger
          ("current version: " ++ itoa v))) as [-> _].
  - left. exists v, w3. split; [|lia]. exists w1, w2. auto.
Qed.

End RunnerFacts.

(** ** Sorted slices *)

Lemma StronglySorted_skipn {A : Type} (R : A -> A -> Prop) (n : nat) (l : list A) :
  StronglySorted R l -> StronglySorted R (skipn n l).
Proof.
  revert l; induction n as [|n IH]; intros l H; [exact H|].
  destruct l as [|x l]; [exact H|]. simpl. apply IH.
  now apply StronglySorted_inv in H.
Qed.



Lemma len_sort_Slice {sorter : SliceSorter} (ms : list Migration) :
  len (sort_Slice ms) = len ms.
Proof.
  unfold len. f_equal. symmetry. apply Permutation_length, sort_Slice_perm.
Qed.

(** ** Claims about RunMigrations *)

Section RunnerClaims.

Context {W : Type} {sorter : SliceSorter}.
Variable ctx : Context W.
Variable driver : MigrationDriver W.
Variable logger : option stdoutLogger.

Lemma setupEvents_silent (v : Z) :
  attempted (setupEvents logger v) = [] /\ applied (setupEvents logger v) = []
  /\ failures (setupEvents logger v) = [].
Proof.
  unfold setupEvents. cbn [attempted applied failures].
  destruct (logs_silent _ (logInfo_is_log logger ("current version: " ++ itoa v)))
    as (A & B & C & _). auto.
Qed.

Lemma appliedInfo_silent (f : flow) :
  attempted (appliedInfo logger f) = [] /\ applied (appliedInfo logger f) = []
  /\ failures (appliedInfo logger f) = [].
Proof.
  destruct f as [a|o]; cbn [appliedInfo]; [|auto].
  destruct (logs_silent _ (logInfo_is_log logger
                             ("applied " ++ itoa a ++ " migrations")))
    as (A & B & C & _). auto.
Qed.

(** Reading the trace of a run that got past the setup. *)
Lemma run_trace_reading (v : Z) (evs : list Event) (f : flow) (cerr : option error) :
  let tr := setupEvents logger v ++ evs ++ appliedInfo logger f ++ [EvClose cerr] in
  attempted tr = attempted evs /\ applied tr = applied evs
  /\ failures tr = failures evs.
Proof.
  cbv zeta.
  destruct (setupEvents_silent v) as (A1 & B1 & C1).
  destruct (appliedInfo_silent f) as (A2 & B2 & C2).
  rewrite !attempted_app, !applied_app, !failures_app.
  rewrite A1, B1, C1, A2, B2, C2. cbn [attempted applied failures app].
  now rewrite !app_nil_r.
Qed.

Lemma RunMigrations_sorts (migrations : list Migration) (w : W) :
  rr_migrations (RunMigrations ctx driver logger migrations w)
  = sort_Slice migrations.
Proof.
  unfold RunMigrations.
  destruct (Connect driver ctx w) as [[e|] w1]; [reflexivity|].
  destruct (runConnected ctx driver logger (sort_Slice migrations) w1)
    as [[o w2] evs].
  now destruct (Close driver ctx w2).
Qed.

End RunnerClaims.



(** C3, refuted as stated: two calls that both succeed, one applying no
    migration and one applying a migration, return the same value, the nil
    error; the value returned does not carry the count. *)
Lemma C3_counterexample :
  rr_outcome (RunMigrations mockCtx mockDriver None [] (mockWorld []))
  = Return None
  /\ rr_outcome (RunMigrations mockCtx mockDriver None [mig 1 "a" "A"] (mockWorld []))
     = Return None
  /\ len (applied (rr_trace (RunMigrations mockCtx mockDriver None []
                               (mockWorld [])))) = 0
  /\ len (applied (rr_trace (RunMigrations mockCtx mockDriver None
                               [mig 1 "a" "A"] (mockWorld [])))) = 1.
Proof. repeat split. Qed.

(** C3 (amended). On full success RunMigrations returns the nil error and
    nothing else. The count of the migrations applied in this invocation,
    possibly 0, is handed to [logger.Info] as [applied <count> migrations],
    the last call before [Close], when a logger is given. *)
Theorem C3_count_is_logged_not_returned :
  forall (W : Type) (sorter : SliceSorter) (ctx : Context W)
         (driver : MigrationDriver W) (logger : option stdoutLogger)
         (migrations : list Migration) (w : W),
    let r := RunMigrations ctx driver logger migrations w in
    rr_outcome r = Return None ->
    exists pre cerr,
      rr_trace r
      = pre ++ logInfo logger ("applied " ++ itoa (len (applied (rr_trace r)))
                               ++ " migrations")
            ++ [EvClose cerr]
      /\ applied pre = applied (rr_trace r).
Proof.
  intros W sorter ctx driver logger migrations w r Hok.
  destruct (RunMigrations_cases ctx driver logger migrations w)
    as [(v & w3 & Hs & Hv)|[Hbad _]]; [|now elim Hbad].
  destruct (applyPending ctx driver logger
              (skipn (Z.to_nat v) (sort_Slice migrations)) 0 w3)
    as [[f w4] evs] eqn:HL.
  pose proof (RunMigrations_after_setup ctx driver logger migrations w w3 v
                Hs Hv f w4 evs HL) as HR.
  fold r in HR.
  destruct (run_trace_reading logger v evs f (fst (Close driver ctx w4)))
    as (_ & Hap & _).
  destruct (setupEvents_silent logger v) as (_ & Hset & _).
  rewrite HR in Hok |- *. cbn [rr_outcome rr_trace] in *. rewrite Hap.
  destruct f as [a|o].
  - destruct (applyPending_done ctx driver logger _ _ _ _ _ _ HL)
      as (Ha & _ & Happ & _).
    exists (setupEvents logger v ++ evs), (fst (Close driver ctx w4)).
    rewrite applied_app, Hset. cbn [app appliedInfo].
    rewrite Happ, Ha. split; [|reflexivity].
    rewrite <- app_assoc. reflexivity.
  - cbn [flow_outcome] in Hok. subst o.
    destruct (applyPending_exit ctx driver logger _ _ _ _ _ _ HL)
      as (done & m & rest & w_mid & pre & _ & _ & _ & _ & _ & Hcase).
    destruct Hcase as [(e & _ & Ho & _)|(e & _ & _ & Ho & _)]; discriminate Ho.
Qed.

Lemma C3_count_is_logged_not_returned_witness :
  exists pre cerr,
    rr_trace (RunMigrations mockCtx mockDriver (Some (mkLogger "db"))
                [mig 2 "b" "B"; mig 1 "a" "A"] (mockWorld []))
    = pre ++ [EvLogInfo "db" "applied 2 migrations"] ++ [EvClose cerr].
Proof.
  destruct (C3_count_is_logged_not_returned MockWorld insertionSorter
              mockCtx mockDriver (Some (mkLogger "db"))
              [mig 2 "b" "B"; mig 1 "a" "A"] (mockWorld []) eq_refl)
    as (pre & cerr & H & _).
  exists pre, cerr. exact H.
Defined.

(** ** Close *)

Lemma runConnected_counts {W : Type} (ctx : Context W) (driver : MigrationDriver W)
  (logger : option stdoutLogger) (migrations : list Migration) (w : W) :
  count_events is_Close (snd (runConnected ctx driver logger migrations w)) = 0%nat.
Proof.
  unfold runConnected.
  destruct (CreateMigrationsTable driver ctx w) as [[e|] w1].
  { cbn [snd]. unfold count_events. cbn [filter is_Close].
    now destruct (logs_silent _ (logError_is_log logger
          (fmt_Errorf "failed to create migrations table: " e)))
      as (_ & _ & _ & -> & _). }
  destruct (GetCurrentVersion driver ctx w1) as [[v [e|]] w2].
  { cbn [snd]. unfold count_events. cbn [filter is_Close].
    now destruct (logs_silent _ (logError_is_log logger
          (fmt_Errorf "failed to get current version: " e)))
      as (_ & _ & _ & -> & _). }
  pose proof (applyLoop_events ctx driver logger migrations
                (for_range v (len migrations)) 0 w2) as [Hloop _].
  destruct (applyLoop ctx driver logger migrations
              (for_range v (len migrations)) 0 w2) as [[f w3] evs].
  cbn [snd] in Hloop. apply loop_events_counts in Hloop as [Hc _].
  destruct (logs_silent _ (logInfo_is_log logger ("current version: " ++ itoa v)))
    as (_ & _ & _ & L1 & _).
  destruct f as [a|o]; cbn [snd]; rewrite <- !app_comm_cons;
    unfold count_events in *; cbn [filter is_Close];
    rewrite !filter_app, !length_app, L1, Hc; cbn [List.length Nat.add];
    [|reflexivity].
  now destruct (logs_silent _ (logInfo_is_log logger
        ("applied " ++ itoa a ++ " migrations"))) as (_ & _ & _ & -> & _).
Qed.

(** C7. When [Connect] succeeds, RunMigrations calls [Close] exactly once,
    as its last call, however the call ends (nil, a table-setup, version
    query or apply error, cancellation, a panic). When [Connect] fails,
    RunMigrations returns the wrapped error having called neither
    [CreateMigrationsTable] nor [Close]. *)
Theorem C7_close_exactly_once_after_connect :
  forall (W : Type) (sorter : SliceSorter) (ctx : Context W)
         (driver : MigrationDriver W) (logger : option stdoutLogger)
         (migrations : list Migration) (w : W),
    let r := RunMigrations ctx driver logger migrations w in
    match fst (Connect driver ctx w) with
    | None =>
        count_events is_Close (rr_trace r) = 1%nat
        /\ exists pre cerr,
             rr_trace r = pre ++ [EvClose cerr]
             /\ count_events is_Close pre = 0%nat
    | Some e =>
        count_events is_Close (rr_trace r) = 0%nat
        /\ count_events is_CreateMigrationsTable (rr_trace r) = 0%nat
        /\ rr_trace r
           = EvConnect (Some e)
               :: logError logger (fmt_Errorf "failed to connect to the database: " e)
        /\ rr_outcome r
           = Return (Some (fmt_Errorf "failed to connect to the database: " e))
    end.
Proof.
  intros W sorter ctx driver logger migrations w. cbv zeta.
  unfold RunMigrations.
  destruct (Connect driver ctx w) as [[e|] w1]; cbn [fst].
  - cbn [rr_trace rr_outcome].
    destruct (loop_events_counts _ (logs_are_loop_events _
                (logError_is_log logger
                   (fmt_Errorf "failed to connect to the database: " e))))
      as [Hc Ht].
    unfold count_events in *. cbn [filter is_Close is_CreateMigrationsTable].
    repeat split; assumption.
  - pose proof (runConnected_counts ctx driver logger (sort_Slice migrations) w1)
      as Hc.
    destruct (runConnected ctx driver logger (sort_Slice migrations) w1)
      as [[o w2] evs].
    destruct (Close driver ctx w2) as [cerr w3].
    cbn [rr_trace snd] in *. split.
    + rewrite app_comm_cons, count_events_app.
      unfold count_events in *. cbn [filter is_Close List.length].
      rewrite Hc. reflexivity.
    + exists (EvConnect None :: evs), cerr. split; [reflexivity|].
      unfold count_events in *. cbn [filter is_Close]. exact Hc.
Qed.

(** ** Cancellation *)

Lemma inert_attempted (tr : list Event) :
  forallb inert tr = true -> attempted tr = [].
Proof.
  induction tr as [|e tr IH]; simpl; intros H; [reflexivity|].
  apply andb_true_iff in H as [He H].
  destruct e; try discriminate He; auto.
Qed.

Lemma guarded_inert (tr : list Event) (c : bool) :
  forallb inert tr = true -> guarded c tr = true.
Proof.
  induction tr as [|e tr IH]; simpl; intros H; [reflexivity|].
  apply andb_true_iff in H as [He H].
  destruct e; try discriminate He; auto.
Qed.

Lemma guarded_inert_prefix (pre rest : list Event) (c : bool) :
  forallb inert pre = true -> guarded c (pre ++ rest) = guarded c rest.
Proof.
  induction pre as [|e pre IH]; simpl; intros H; [reflexivity|].
  apply andb_true_iff in H as [He H].
  destruct e; try discriminate He; auto.
Qed.

Lemma guarded_inert_tail (evs tail : list Event) :
  forallb inert tail = true ->
  forall c, guarded c (evs ++ tail) = guarded c evs.
Proof.
  intros H. induction evs as [|e evs IH]; intros c.
  - simpl. now apply guarded_inert.
  - destruct e as [| | |[err|]|m r| | | |]; simpl; rewrite ?IH; auto.
    now rewrite attempted_app, (inert_attempted _ H), app_nil_r.
Qed.

Lemma logs_inert (tr : list Event) :
  forallb is_log tr = true -> forallb inert tr = true.
Proof.
  induction tr as [|e tr IH]; simpl; intros H; [reflexivity|].
  apply andb_true_iff in H as [He H]. rewrite (IH H), andb_true_r.
  destruct e; try discriminate He; reflexivity.
Qed.

(** The trace of a run: calls that neither check the context nor apply,
    around the events of the apply loop. *)
Lemma RunMigrations_trace_shape {W : Type} {sorter : SliceSorter}
  (ctx : Context W) (driver : MigrationDriver W) (logger : option stdoutLogger)
  (migrations : list Migration) (w : W) :
  exists pre evs tail,
    rr_trace (RunMigrations ctx driver logger migrations w) = pre ++ evs ++ tail
    /\ forallb inert pre = true /\ forallb inert tail = true
    /\ guarded false evs = true.
Proof.
  unfold RunMigrations, runConnected.
  destruct (Connect driver ctx w) as [[e|] w1].
  { exists (EvConnect (Some e)
            :: logError logger (fmt_Errorf "failed to connect to the database: " e)),
      [], [].
    cbn [rr_trace forallb inert andb guarded]. rewrite app_nil_r.
    repeat split. apply logs_inert, logError_is_log. }
  destruct (CreateMigrationsTable driver ctx w1) as [[e|] w2].
  { destruct (Close driver ctx w2) as [cerr w5].
    exists (EvConnect None :: EvCreateMigrationsTable (Some e)
            :: logError logger (fmt_Errorf "failed to create migrations table: " e)),
      [], [EvClose cerr].
    cbn [rr_trace forallb inert andb guarded app].
    repeat split. apply logs_inert, logError_is_log. }
  destruct (GetCurrentVersion driver ctx w2) as [[v [e|]] w3].
  { destruct (Close driver ctx w3) as [cerr w5].
    exists (EvConnect None :: EvCreateMigrationsTable None
            :: EvGetCurrentVersion v (Some e)
            :: logError logger (fmt_Errorf "failed to get current version: " e)),
      [], [EvClose cerr].
    cbn [rr_trace forallb inert andb guarded app].
    repeat split. apply logs_inert, logError_is_log. }
  pose proof (applyLoop_events ctx driver logger (sort_Slice migrations)
                (for_range v (len (sort_Slice migrations))) 0 w3) as [_ Hg].
  destruct (applyLoop ctx driver logger (sort_Slice migrations)
              (for_range v (len (sort_Slice migrations))) 0 w3) as [[f w4] evs].
  cbn [snd] in Hg.
  destruct f as [a|o]; destruct (Close driver ctx w4) as [cerr w5].
  - exists (setupEvents logger v), evs,
      (logInfo logger ("applied " ++ itoa a ++ " migrations") ++ [EvClose cerr]).
    unfold setupEvents. cbn [rr_trace forallb inert andb].
    rewrite forallb_app.
    rewrite (logs_inert _ (logInfo_is_log logger ("current version: " ++ itoa v))).
    rewrite (logs_inert _ (logInfo_is_log logger
                             ("applied " ++ itoa a ++ " migrations"))).
    repeat split; auto; trace_assoc.
  - exists (setupEvents logger v), evs, [EvClose cerr].
    unfold setupEvents. cbn [rr_trace forallb inert andb].
    rewrite (logs_inert _ (logInfo_is_log logger ("current version: " ++ itoa v))).
    repeat split; auto; trace_assoc.
Qed.

(** C8. In every call of RunMigrations each [ApplyMigration] follows a
    [ctx.Err()] that returned nil, made after the previous
    [ApplyMigration], and no [ApplyMigration] follows a [ctx.Err()] that
    returned an error. If, after a successful setup, the context is found
    cancelled before a pending migration, the migrations [done] before it
    having been applied, then RunMigrations returns the context's error,
    has applied exactly [done] (nothing, when the cancellation precedes the
    first pending migration) and leaves the world as [done] made it, but
    for [Close]. *)
Theorem C8_cancellation_checked_before_each_migration :
  forall (W : Type) (sorter : SliceSorter) (ctx : Context W)
         (driver : MigrationDriver W) (logger : option stdoutLogger)
         (migrations : list Migration) (w : W),
    let r := RunMigrations ctx driver logger migrations w in
    guarded false (rr_trace r) = true
    /\ forall (v : Z) (w3 w_mid : W) (done rest : list Migration)
              (m : Migration) (e : error),
        setup_ok ctx driver w v w3 -> 0 <= v ->
        skipn (Z.to_nat v) (sort_Slice migrations) = done ++ m :: rest ->
        applied_through ctx driver done w3 = Some w_mid ->
        ctx w_mid = Some e ->
        rr_outcome r = Return (Some e)
        /\ attempted (rr_trace r) = done
        /\ applied (rr_trace r) = done
        /\ rr_world r = snd (Close driver ctx w_mid).
Proof.
  intros W sorter ctx driver logger migrations w r. split.
  - destruct (RunMigrations_trace_shape ctx driver logger migrations w)
      as (pre & evs & tail & Htr & Hpre & Htail & Hg).
    unfold r. rewrite Htr.
    rewrite (guarded_inert_prefix _ _ _ Hpre).
    now rewrite (guarded_inert_tail _ _ Htail).
  - intros v w3 w_mid done rest m e Hs Hv Hskip Hthrough Hc.
    destruct (applyPending_cancelled ctx driver logger done m rest 0 w3 w_mid e
                Hthrough Hc) as (pre & HL & Hat & Hap).
    rewrite <- Hskip in HL.
    pose proof (RunMigrations_after_setup ctx driver logger migrations w w3 v
                  Hs Hv _ _ _ HL) as HR.
    fold r in HR. rewrite HR. cbn [rr_outcome rr_trace rr_world flow_outcome].
    destruct (run_trace_reading logger v
                (pre ++ [EvCtxErr (Some e); EvCtxErr (Some e)])
                (LoopExit (Return (Some e))) (fst (Close driver ctx w_mid)))
      as (A & B & _).
    rewrite A, B, attempted_app, applied_app, Hat, Hap.
    cbn [attempted applied]. rewrite !app_nil_r. repeat split.
Qed.

Lemma C8_cancellation_checked_before_each_migration_witness :
  let r := RunMigrations mockCtx mockDriver None
             [mig 3 "c" "C"; mig 1 "a" "A"; mig 2 "b" "B"]
             (mkMock None None None (Some 1%nat) 0 [] 0) in
  rr_outcome r = Return (Some context_Canceled)
  /\ attempted (rr_trace r) = [mig 1 "a" "A"]
  /\ applied (rr_trace r) = [mig 1 "a" "A"]
  /\ mw_ledger (rr_world r) = [1].
Proof.
  cbv zeta.
  destruct (C8_cancellation_checked_before_each_migration MockWorld
              insertionSorter mockCtx mockDriver None
              [mig 3 "c" "C"; mig 1 "a" "A"; mig 2 "b" "B"]
              (mkMock None None None (Some 1%nat) 0 [] 0)) as [_ H].
  destruct (H 0 (mkMock None None None (Some 1%nat) 0 [] 0)
              (mkMock None None None (Some 1%nat) 1 [1] 0)
              [mig 1 "a" "A"] [mig 3 "c" "C"] (mig 2 "b" "B") context_Canceled)
    as (H1 & H2 & H3 & H4).
  - exists (mkMock None None None (Some 1%nat) 0 [] 0),
      (mkMock None None None (Some 1%nat) 0 [] 0). repeat split.
  - lia.
  - reflexivity.
  - reflexivity.
  - reflexivity.
  - repeat split; try assumption; rewrite H4; reflexivity.
Defined.

(** ** The ledger *)

Lemma currentVersion_bounds (rows : list Z) :
  0 <= currentVersion rows /\ Forall (fun x => x <= currentVersion rows) rows.
Proof.
  induction rows as [|x rows [IH0 IH]]; cbn [currentVersion fold_right].
  - split; [lia | constructor].
  - fold (currentVersion rows). split; [lia|].
    constructor; [lia|]. eapply Forall_impl; [|exact IH]. cbv beta. lia.
Qed.

Lemma currentVersion_below (rows : list Z) (k : Z) :
  0 < k -> Forall (fun x => x < k) rows -> currentVersion rows < k.
Proof.
  intros Hk. induction 1 as [|x rows Hx _ IH]; cbn [currentVersion fold_right].
  - exact Hk.
  - fold (currentVersion rows). lia.
Qed.

Lemma sorted_distinct_above (l : list Z) :
  StronglySorted Z.le l -> NoDup l ->
  forall b, Forall (fun x => b < x) l ->
  forall i x, nth_error l i = Some x -> b + Z.of_nat i < x.
Proof.
  induction 1 as [|a l Hs IH Ha]; intros ND b HF i x Hn.
  - destruct i; discriminate.
  - apply NoDup_cons_iff in ND as [Hnotin ND].
    apply Forall_cons_iff in HF as [Hb HF].
    destruct i as [|i]; cbn [nth_error] in Hn.
    + injection Hn as <-. lia.
    + assert (Habove : Forall (fun y => a < y) l).
      { apply Forall_forall. intros y Hy.
        pose proof (proj1 (Forall_forall _ _) Ha y Hy) as Hle.
        assert (y <> a) by (intros ->; contradiction). lia. }
      pose proof (IH ND a Habove i x Hn). lia.
Qed.

Lemma versions_sorted (l : list Migration) :
  StronglySorted version_le l -> StronglySorted Z.le (map Version l).
Proof.
  induction 1 as [|a l Hs IH Ha]; cbn [map]; constructor; [exact IH|].
  apply Forall_map. exact Ha.
Qed.

Lemma sorted_before (a b : list Migration) (x : Migration) :
  StronglySorted version_le (a ++ x :: b) -> Forall (fun d => version_le d x) a.
Proof.
  induction a as [|d a IH]; cbn [app]; intros H; [constructor|].
  apply StronglySorted_inv in H as [Hs Hd]. constructor; [|now apply IH].
  apply (proj1 (Forall_forall _ _) Hd). apply in_or_app. right. now left.
Qed.

Section LedgerFacts.

Context {W : Type} {sorter : SliceSorter}.
Variable ctx : Context W.
Variable driver : MigrationDriver W.
Variable logger : option stdoutLogger.
Variable ledger : W -> list Z.
Hypothesis contract : LedgerContract driver ledger.

Lemma ledger_applied_through (done : list Migration) :
  forall w w',
    applied_through ctx driver done w = Some w' ->
    ledger w' = rev (map Version done) ++ ledger w.
Proof.
  induction done as [|d done IH]; intros w w' H; cbn [applied_through] in H.
  - now injection H as ->.
  - destruct (ctx w); [discriminate|].
    destruct (ApplyMigration driver ctx d w) as [[e|] w1] eqn:A; [discriminate|].
    rewrite (IH _ _ H), (lc_apply_ok _ _ contract _ _ _ _ A).
    cbn [map rev]. now rewrite <- app_assoc.
Qed.

Lemma ledger_setup (w w3 : W) (v : Z) :
  setup_ok ctx driver w v w3 ->
  ledger w3 = ledger w /\ v = currentVersion (ledger w).
Proof.
  intros (w1 & w2 & H1 & H2 & H3).
  pose proof (lc_Connect _ _ contract ctx w) as L1.
  pose proof (lc_CreateMigrationsTable _ _ contract ctx w1) as L2.
  pose proof (lc_GetCurrentVersion _ _ contract ctx w2) as L3.
  rewrite H1 in L1. rewrite H2 in L2. rewrite H3 in L3. cbn [snd] in *.
  rewrite (lc_reported _ _ contract _ _ _ _ H3).
  rewrite L3, L2, L1. split; reflexivity.
Qed.

End LedgerFacts.

(** A failed [ApplyMigration] in the trace of a run: how the run went. *)
Lemma RunMigrations_failure_inv {W : Type} {sorter : SliceSorter}
  (ctx : Context W) (driver : MigrationDriver W) (logger : option stdoutLogger)
  (migrations : list Migration) (w : W) (m : Migration) (e : error) :
  In (EvApplyMigration m (Some e))
     (rr_trace (RunMigrations ctx driver logger migrations w)) ->
  exists v w3 done rest w_mid w' pre,
    setup_ok ctx driver w v w3 /\ 0 <= v
    /\ skipn (Z.to_nat v) (sort_Slice migrations) = done ++ m :: rest
    /\ applied_through ctx driver done w3 = Some w_mid
    /\ ApplyMigration driver ctx m w_mid = (Some e, w')
    /\ attempted pre = done /\ applied pre = done
    /\ RunMigrations ctx driver logger migrations w
       = mkRunResult (Return (Some (applyError m e))) (sort_Slice migrations)
           (snd (Close driver ctx w'))
           (setupEvents logger v
              ++ (pre ++ EvApplyMigration m (Some e)
                        :: logError logger (applyError m e))
              ++ [EvClose (fst (Close driver ctx w'))]).
Proof.
  intros Hin. apply failures_In in Hin.
  destruct (RunMigrations_cases ctx driver logger migrations w)
    as [(v & w3 & Hs & Hv)|[_ Hnone]].
  2:{ exfalso. apply failures_In in Hin.
      assert (In m (attempted (rr_trace (RunMigrations ctx driver logger migrations w)))).
      { revert Hin. generalize (rr_trace (RunMigrations ctx driver logger migrations w)).
        induction l as [|x l IH]; cbn [In attempted]; [tauto|].
        intros [->|H]; [now left|].
        destruct x; cbn [In]; auto. }
      rewrite Hnone in H. exact H. }
  destruct (applyPending ctx driver logger
              (skipn (Z.to_nat v) (sort_Slice migrations)) 0 w3)
    as [[f w4] evs] eqn:HL.
  pose proof (RunMigrations_after_setup ctx driver logger migrations w w3 v
                Hs Hv f w4 evs HL) as HR.
  rewrite HR in Hin. cbn [rr_trace] in Hin.
  destruct (run_trace_reading logger v evs f (fst (Close driver ctx w4)))
    as (_ & _ & Hf).
  rewrite Hf in Hin.
  destruct f as [a|o].
  - destruct (applyPending_done ctx driver logger _ _ _ _ _ _ HL)
      as (_ & _ & _ & Hnil & _).
    rewrite Hnil in Hin. contradiction.
  - destruct (applyPending_exit ctx driver logger _ _ _ _ _ _ HL)
      as (done & m' & rest & w_mid & pre & Hp & Ht & Hat & Hap & Hfp & Hcase).
    destruct Hcase as [(e' & _ & _ & _ & ->)|(e' & Hc & HA & -> & ->)].
    + rewrite failures_app, Hfp in Hin. cbn in Hin. contradiction.
    + rewrite failures_app, Hfp in Hin. cbn [failures app] in Hin.
      destruct (logs_silent _ (logError_is_log logger (applyError m' e')))
        as (_ & _ & Hfl & _).
      rewrite Hfl in Hin. destruct Hin as [Heq|[]]. injection Heq as -> ->.
      exists v, w3, done, rest, w_mid, w4, pre.
      repeat split; auto.
Qed.

Lemma mockDriver_contract : LedgerContract mockDriver mw_ledger.
Proof.
  constructor; cbn [mockDriver Connect CreateMigrationsTable GetCurrentVersion
                    ApplyMigration Close snd].
  - reflexivity.
  - reflexivity.
  - intros _ w. now destruct (mw_version_err w).
  - intros _ w v w' H. destruct (mw_version_err w); [discriminate|].
    now injection H as <- _.
  - reflexivity.
  - intros _ m w w'. unfold mock_Apply.
    destruct (String.eqb _ _); [discriminate|].
    destruct (existsb _ _); [discriminate|].
    intros H. now injection H as <-.
  - intros _ m w e w'. unfold mock_Apply.
    destruct (String.eqb _ _); [intros H; now injection H as _ <-|].
    destruct (existsb _ _); [intros H; now injection H as _ <-|discriminate].
Qed.

(** Versions are unique within a migration set. The bound on the ledger
    below rests on it: with two migrations of version 1 the second
    [ApplyMigration] fails on the primary key, so the run fails at version
    1 while the ledger holds the row of version 1 written by the first and
    reports version 1. *)
Example duplicate_versions_reach_the_failing_version :
  LedgerContract mockDriver mw_ledger
  /\ In (EvApplyMigration (mig 1 "b" "B")
           (Some (errors_New "duplicate key value violates unique constraint")))
        (rr_trace (RunMigrations mockCtx mockDriver None
                     [mig 1 "a" "A"; mig 1 "b" "B"] (mockWorld [])))
  /\ In (Version (mig 1 "b" "B"))
        (mw_ledger (rr_world (RunMigrations mockCtx mockDriver None
                                [mig 1 "a" "A"; mig 1 "b" "B"] (mockWorld []))))
  /\ currentVersion
       (mw_ledger (rr_world (RunMigrations mockCtx mockDriver None
                               [mig 1 "a" "A"; mig 1 "b" "B"] (mockWorld []))))
     = Version (mig 1 "b" "B").
Proof.
  split; [exact mockDriver_contract|].
  split; [|split].
  - vm_compute. do 6 right. left. reflexivity.
  - vm_compute. left. reflexivity.
  - reflexivity.
Qed.

(** The postgres ApplyMigration on the in-memory session keeps the
    ledger contract: a call that returns nil has committed the row of the
    migration, and no other; a call that returns an error has committed
    nothing. *)
Lemma memPostgresDriver_contract :
  LedgerContract memPostgresDriver memdb_visible.
Proof.
  constructor;
    cbn [memPostgresDriver Connect CreateMigrationsTable GetCurrentVersion
         ApplyMigration Close snd]; try reflexivity.
  - intros _ c v c' H. now injection H as <- _.
  - intros ctx m [rows [tx|] ab] c'; unfold postgres_ApplyMigration;
      cbn [memPgx conn_Begin tx_Exec conn_Exec tx_Commit tx_Rollback
           time_Now_Unix db_tx db_rows db_aborted]; [discriminate|].
    destruct (String.eqb (MigrationSQL m) "FAIL"); [discriminate|].
    cbn [db_tx db_rows db_aborted memdb_insert].
    destruct (existsb (fun r => fst r =? Version m) rows);
      cbn [db_tx db_rows db_aborted]; [discriminate|].
    intros H. now injection H as <-.
  - intros ctx m [rows [tx|] ab] e c'; unfold postgres_ApplyMigration;
      cbn [memPgx conn_Begin tx_Exec conn_Exec tx_Commit tx_Rollback
           time_Now_Unix db_tx db_rows db_aborted];
      [intros H; now injection H as _ <-|].
    destruct (String.eqb (MigrationSQL m) "FAIL");
      [cbn [db_tx db_rows db_aborted]; intros H; now injection H as _ <-|].
    cbn [db_tx db_rows db_aborted memdb_insert].
    destruct (existsb (fun r => fst r =? Version m) rows);
      cbn [db_tx db_rows db_aborted];
      [intros H; now injection H as _ <- | discriminate].
Qed.

(** C6. If [ApplyMigration] fails with [e] at migration [m],
    RunMigrations logs and returns [failed to apply migration
    <Version m>: e], and the only call it still makes on the driver is
    [Close]: no later migration is attempted, and every migration
    attempted before [m] was applied. With a driver that keeps the ledger
    contract of the driver capability, the ledger afterwards is the
    ledger before the call plus the rows of the migrations applied before
    [m], and no more: what was applied stays committed. For a migration
    set as the data model has it, versions positive and unique, the
    ledger then holds no row for [Version m] and reports a version below
    it. *)
Theorem C6_apply_failure_stops_the_run :
  forall (W : Type) (sorter : SliceSorter) (ctx : Context W)
         (driver : MigrationDriver W) (logger : option stdoutLogger)
         (migrations : list Migration) (w : W) (m : Migration) (e : error),
    let r := RunMigrations ctx driver logger migrations w in
    In (EvApplyMigration m (Some e)) (rr_trace r) ->
    rr_outcome r = Return (Some (applyError m e))
    /\ (exists pre cerr,
           rr_trace r
           = pre ++ EvApplyMigration m (Some e)
                 :: logError logger (applyError m e) ++ [EvClose cerr]
           /\ attempted pre = applied pre
           /\ applied (rr_trace r) = applied pre)
    /\ forall ledger : W -> list Z,
        LedgerContract driver ledger ->
        ledger (rr_world r)
        = rev (map Version (applied (rr_trace r))) ++ ledger w
        /\ (NoDup (map Version migrations) ->
            Forall (fun x => 0 < Version x) migrations ->
            ~ In (Version m) (ledger (rr_world r))
            /\ currentVersion (ledger (rr_world r)) < Version m).
Proof.
  intros W sorter ctx driver logger migrations w m e r Hin.
  destruct (RunMigrations_failure_inv ctx driver logger migrations w m e Hin)
    as (v & w3 & done & rest & w_mid & w' & pre
        & Hs & Hv & Hskip & Ht & HA & Hat & Hap & HR).
  fold r in HR.
  destruct (setupEvents_silent logger v) as (S1 & S2 & _).
  destruct (logs_silent _ (logError_is_log logger (applyError m e)))
    as (_ & L2 & _).
  assert (Happlied : applied (rr_trace r) = done).
  { rewrite HR. cbn [rr_trace].
    rewrite !applied_app, S2, Hap. cbn [applied app].
    now rewrite L2, !app_nil_r. }
  split; [now rewrite HR|]. split.
  - exists (setupEvents logger v ++ pre), (fst (Close driver ctx w')).
    rewrite Happlied, attempted_app, applied_app, S1, S2, Hat, Hap.
    repeat split. rewrite HR. cbn [rr_trace]. trace_assoc.
  - intros ledger contract.
    assert (Hledger : ledger (rr_world r) = rev (map Version done) ++ ledger w).
    { rewrite HR. cbn [rr_world].
      rewrite (lc_Close _ _ contract).
      rewrite (lc_apply_fail _ _ contract _ _ _ _ _ HA).
      rewrite (ledger_applied_through ctx driver ledger contract _ _ _ Ht).
      now destruct (ledger_setup ctx driver ledger contract w w3 v Hs) as [-> _]. }
    rewrite Happlied. split; [exact Hledger|].
    intros Hnodup Hpos.
    pose proof (sort_Slice_perm migrations) as Hperm.
    pose proof (sort_Slice_sorted migrations) as Hsorted.
    assert (ND : NoDup (map Version (sort_Slice migrations)))
      by (eapply Permutation_NoDup; [apply Permutation_map, Hperm | exact Hnodup]).
    assert (Hpos' : Forall (fun x => 0 < x) (map Version (sort_Slice migrations))).
    { apply Forall_map. eapply Permutation_Forall; [exact Hperm | exact Hpos]. }
    assert (Hnth : nth_error (map Version (sort_Slice migrations))
                     (Z.to_nat v + List.length done) = Some (Version m)).
    { rewrite nth_error_map, <- nth_error_skipn, Hskip.
      rewrite nth_error_app2 by lia. now rewrite Nat.sub_diag. }
    pose proof (sorted_distinct_above _ (versions_sorted _ Hsorted) ND 0 Hpos'
                  _ _ Hnth) as Habove.
    assert (Hdone : Forall (fun d => Version d < Version m) done).
    { pose proof (StronglySorted_skipn version_le (Z.to_nat v) _ Hsorted) as Hss.
      rewrite Hskip in Hss.
      pose proof (sorted_before _ _ _ Hss) as Hle.
      assert (ND' : NoDup (map Version (done ++ m :: rest))).
      { rewrite <- Hskip.
        rewrite <- (firstn_skipn (Z.to_nat v) (sort_Slice migrations)) in ND.
        rewrite map_app in ND. exact (NoDup_app_remove_l _ _ ND). }
      rewrite map_app in ND'. cbn [map] in ND'.
      apply NoDup_remove_2 in ND'.
      apply Forall_forall. intros d Hd.
      pose proof (proj1 (Forall_forall _ _) Hle d Hd) as Hdle.
      unfold version_le in Hdle.
      assert (Version d <> Version m).
      { intros Heq. apply ND'. apply in_or_app. left.
        rewrite <- Heq. now apply in_map. }
      lia. }
    destruct (ledger_setup ctx driver ledger contract w w3 v Hs) as [_ Hv'].
    assert (Hall : Forall (fun x => x < Version m) (ledger (rr_world r))).
    { rewrite Hledger. apply Forall_app. split.
      - apply Forall_rev, Forall_map. exact Hdone.
      - destruct (currentVersion_bounds (ledger w)) as [_ Hb].
        eapply Forall_impl; [|exact Hb]. cbv beta. intros x Hx. lia. }
    split.
    + intros Hm. pose proof (proj1 (Forall_forall _ _) Hall _ Hm) as Hlt.
      cbv beta in Hlt. lia.
    + apply currentVersion_below; [lia | exact Hall].
Qed.

Lemma C6_apply_failure_stops_the_run_witness :
  let r := RunMigrations (fun _ => None) memPostgresDriver None
             [mig 3 "c" "C"; mig 1 "a" "A"; mig 2 "b" "FAIL"]
             (mkMemDB [] None false) in
  rr_outcome r
  = Return (Some (fmt_Errorf "failed to apply migration 2: "
                    (fmt_Errorf "failed to apply migration (b): "
                       (errors_New "syntax error"))))
  /\ db_rows (rr_world r) = [(1, "a")]
  /\ ~ In 2 (memdb_visible (rr_world r))
  /\ currentVersion (memdb_visible (rr_world r)) < 2.
Proof.
  cbv zeta.
  destruct (C6_apply_failure_stops_the_run MemDB insertionSorter
              (fun _ => None) memPostgresDriver None
              [mig 3 "c" "C"; mig 1 "a" "A"; mig 2 "b" "FAIL"]
              (mkMemDB [] None false)
              (mig 2 "b" "FAIL")
              (fmt_Errorf "failed to apply migration (b): "
                 (errors_New "syntax error")))
    as (Hout & _ & Hled).
  - vm_compute. do 6 right. left. reflexivity.
  - destruct (Hled memdb_visible memPostgresDriver_contract) as [_ Hbelow].
    destruct Hbelow as [Hnot Hlt].
    + vm_compute. repeat constructor; cbn; intuition discriminate.
    + repeat constructor.
    + split; [exact Hout|]. split; [reflexivity|]. split; [exact Hnot | exact Hlt].
Defined.

(** ** The executor *)

Lemma retryLoop_reuses_slice {W : Type} {sorter : SliceSorter}
  (env : Collaborators W) (ctx : Context W) (cfg : Config)
  (migrationCfg : migrationConfig) (driver : MigrationDriver W) (idxs : list Z) :
  forall migrations w,
    attempts_reuse_slice migrations
      (retry_attempts (retryLoop env ctx cfg migrationCfg driver idxs migrations w)).
Proof.
  induction idxs as [|i rest IH]; intros migrations w; cbn [retryLoop].
  - exact I.
  - set (lg := Some (mkLogger (mc_Name migrationCfg ++ " (attempt "
                                 ++ itoa (i + 1) ++ ")"))).
    pose proof (RunMigrations_sorts ctx driver lg migrations w) as Hsort.
    destruct (rr_outcome (RunMigrations ctx driver lg migrations w))
      as [[e|]|msg].
    + specialize (IH (rr_migrations (RunMigrations ctx driver lg migrations w))
                    (time_Sleep env (RetryDelay cfg)
                       (rr_world (RunMigrations ctx driver lg migrations w)))).
      destruct (retryLoop env ctx cfg migrationCfg driver rest _ _)
        as [[[atts p] w2] evs].
      unfold retry_attempts in *. cbn [fst attempts_reuse_slice at_input at_result] in *.
      rewrite Hsort in IH. auto.
    + unfold retry_attempts. cbn [fst attempts_reuse_slice at_input at_result]. auto.
    + unfold retry_attempts. cbn [fst attempts_reuse_slice at_input at_result]. auto.
Qed.

Lemma reused_slices_sorted {W : Type} {sorter : SliceSorter}
  (atts : list (Attempt W)) :
  forall input,
    attempts_reuse_slice input atts ->
    Forall (fun a => StronglySorted version_le (at_input a)
                     /\ Permutation input (at_input a)) (tl atts).
Proof.
  destruct atts as [|a atts]; intros input H; [constructor|].
  destruct H as (_ & _ & H). cbn [tl].
  assert (G : forall (l : list (Attempt W)) inp, attempts_reuse_slice inp l ->
                StronglySorted version_le inp -> Permutation input inp ->
                Forall (fun b => StronglySorted version_le (at_input b)
                                 /\ Permutation input (at_input b)) l).
  { induction l as [|b l IH]; intros inp Hl Hs Hp; [constructor|].
    destruct Hl as (Hb & _ & Hl). constructor.
    - rewrite Hb. now split.
    - apply (IH (sort_Slice inp)); [exact Hl | apply sort_Slice_sorted |].
      etransitivity; [exact Hp | apply sort_Slice_perm]. }
  apply (G atts (sort_Slice input) H);
    [apply sort_Slice_sorted | apply sort_Slice_perm].
Qed.

(** C10. RunMigrations sorts the caller's slice in place before anything
    else: however the call ends, the slice afterwards is the sorted
    permutation of what it was. The retry loop of executeMigration hands
    the same slice to every attempt, so each attempt after the first
    receives it already sorted by the attempt before. *)
Theorem C10_slice_sorted_in_place :
  forall (W : Type) (sorter : SliceSorter) (ctx : Context W)
         (driver : MigrationDriver W) (logger : option stdoutLogger)
         (migrations : list Migration) (w : W),
    let r := RunMigrations ctx driver logger migrations w in
    (rr_migrations r = sort_Slice migrations
     /\ Permutation migrations (rr_migrations r)
     /\ StronglySorted version_le (rr_migrations r))
    /\ forall (env : Collaborators W) (cfg : Config)
              (migrationCfg : migrationConfig) (idxs : list Z) (w' : W),
        let atts :=
          retry_attempts
            (retryLoop env ctx cfg migrationCfg driver idxs migrations w') in
        attempts_reuse_slice migrations atts
        /\ Forall (fun a => StronglySorted version_le (at_input a)
                            /\ Permutation migrations (at_input a)) (tl atts).
Proof.
  intros W sorter ctx driver logger migrations w r. split.
  - unfold r. rewrite RunMigrations_sorts.
    split; [reflexivity|]. split; [apply sort_Slice_perm | apply sort_Slice_sorted].
  - intros env cfg migrationCfg idxs w' atts.
    pose proof (retryLoop_reuses_slice env ctx cfg migrationCfg driver idxs
                  migrations w') as H.
    split; [exact H | now apply reused_slices_sorted].
Qed.

(** Execute has only one flag to return. *)
Lemma Execute_flag {W : Type} {sorter : SliceSorter} (env : Collaborators W)
  (ctx : Context W) (cfg : Config) (w : W) :
  fst (Execute env ctx cfg w) <> Some false.
Proof.
  unfold Execute. now destruct (existsb _ _).
Qed.

(** C1 (the code departs from the claim). The claim: Execute returns
    true exactly when every unit completed its Runner within its retry
    budget. Execute ends in [return true]: whatever the units did, it
    never reports failure. Three configurations with one failing unit
    each: a driver that cannot be resolved, an empty source directory, and
    a database that refuses every connection for the whole retry budget.
    In each, no Runner invocation succeeded and Execute returns true. *)
Theorem C1_Execute_reports_success_when_a_unit_fails :
  (forall (W : Type) (sorter : SliceSorter) (env : Collaborators W)
          (ctx : Context W) (cfg : Config) (w : W),
      fst (Execute env ctx cfg w) <> Some false)
  /\ (let cfg := mkConfig 3 0 30 false
                   [mkMigrationConfig "main" "migrations" None] in
      let res := Execute (mockEnv (fun _ => [("1_a.sql", MemFile "A")]))
                   mockCtx cfg (mockWorld []) in
      fst res = Some true /\ forallb unit_succeeded (snd res) = false)
  /\ (let cfg := mkConfig 3 0 30 false
                   [mkMigrationConfig "main" "migrations"
                      (Some (mkPostgresConfig "postgres://db"))] in
      let res := Execute (mockEnv (fun _ => [])) mockCtx cfg (mockWorld []) in
      fst res = Some true /\ forallb unit_succeeded (snd res) = false)
  /\ (let cfg := mkConfig 3 0 30 false
                   [mkMigrationConfig "main" "migrations"
                      (Some (mkPostgresConfig "postgres://db"))] in
      let res := Execute (mockEnv (fun _ => [("1_a.sql", MemFile "A")]))
                   mockCtx cfg
                   (mkMock (Some (errors_New "connection refused"))
                      None None None 0 [] 0) in
      fst res = Some true
      /\ forallb unit_succeeded (snd res) = false
      /\ map (fun u => List.length (ur_attempts u)) (snd res) = [3%nat]).
Proof.
  split; [intros; apply Execute_flag|].
  repeat split; vm_compute; reflexivity.
Qed.

(** ** The postgres driver *)

Lemma memPgx_transactional : PgxTransactional memPgx memdb_visible memdb_in_tx.
Proof.
  constructor; unfold memdb_visible, memdb_in_tx;
    cbn [memPgx conn_Begin conn_Exec tx_Exec tx_Commit tx_Rollback].
  - intros _ c. now destruct (db_tx c).
  - intros _ c c'. destruct (db_tx c); [discriminate|].
    intros H. now injection H as <-.
  - intros _ sql c. destruct (db_tx c) as [rows|] eqn:T; [|discriminate].
    intros _. destruct (db_aborted c); cbn [snd]; [now rewrite T|].
    destruct (String.eqb sql "FAIL"); cbn [snd]; [now split | now rewrite T].
  - intros _ sql args c. destruct (db_tx c) as [rows|]; [|discriminate].
    intros _. destruct (db_aborted c); [reflexivity|].
    now destruct (memdb_insert args rows).
  - intros _ c e c'. destruct (db_tx c) as [rows|].
    + destruct (db_aborted c); [|discriminate].
      intros H. now injection H as _ <-.
    + intros H. now injection H as _ <-.
  - intros _ c. now destruct (db_tx c).
Qed.

(** When the ApplyMigration of the postgres driver returns an error, the
    ledger that is visible is the one from before the call: the migration
    and its ledger row are not committed. *)
Lemma postgres_apply_failure_atomic {C : Type} (pgx : PgxConn C)
  (migrationsTable : string) (visible : C -> list Z) (in_tx : C -> bool) :
  PgxTransactional pgx visible in_tx ->
  forall (ctx : Context C) (m : Migration) (c c' : C) (e : error),
    postgres_ApplyMigration pgx migrationsTable ctx m c = (Some e, c') ->
    visible c' = visible c.
Proof.
  intros T ctx m c c' e. unfold postgres_ApplyMigration.
  pose proof (pt_Begin_visible _ _ _ T ctx c) as HB.
  destruct (conn_Begin pgx ctx c) as [[eb|] c1] eqn:B; cbn [snd] in HB.
  - intros H. injection H as _ <-. exact HB.
  - pose proof (pt_Begin_in_tx _ _ _ T _ _ _ B) as I1.
    destruct (pt_tx_Exec _ _ _ T ctx (MigrationSQL m) c1 I1) as [V2 I2].
    destruct (tx_Exec pgx ctx (MigrationSQL m) c1) as [[ex|] c2]; cbn [snd] in *.
    + pose proof (pt_Rollback _ _ _ T ctx c2) as VR.
      destruct (tx_Rollback pgx ctx c2) as [r c6]. cbn [snd] in VR.
      intros H. injection H as _ <-. congruence.
    + pose proof (pt_conn_Exec _ _ _ T ctx (insertQuery migrationsTable)
                    [ArgInt (Version m); ArgString (Name m);
                     ArgInt (time_Now_Unix pgx c2)] c2 I2) as V3.
      destruct (conn_Exec pgx ctx _ _ c2) as [ei c3]. cbn [snd] in V3.
      destruct (tx_Commit pgx ctx c3) as [[ec|] c4] eqn:Cm.
      * pose proof (pt_Commit_fail _ _ _ T _ _ _ _ Cm) as V4.
        pose proof (pt_Rollback _ _ _ T ctx c4) as VR.
        destruct (tx_Rollback pgx ctx c4) as [r c6]. cbn [snd] in VR.
        intros H. injection H as _ <-. congruence.
      * destruct (tx_Rollback pgx ctx c4) as [r c6]. discriminate.
Qed.

Lemma postgres_apply_failure_atomic_witness :
  memdb_visible
    (snd (postgres_ApplyMigration memPgx "migrations" (fun _ => None)
            (mig 2 "b" "FAIL") (mkMemDB [(1, "a")] None false)))
  = memdb_visible (mkMemDB [(1, "a")] None false).
Proof.
  apply (postgres_apply_failure_atomic memPgx "migrations"
           memdb_visible memdb_in_tx memPgx_transactional
           (fun _ => None) (mig 2 "b" "FAIL")
           (mkMemDB [(1, "a")] None false) _
           (fmt_Errorf "failed to apply migration (b): "
              (errors_New "syntax error"))).
  reflexivity.
Defined.

Example postgres_apply_success :
  postgres_ApplyMigration memPgx "migrations" (fun _ => None)
    (mig 2 "b" "CREATE TABLE b (id INT);") (mkMemDB [(1, "a")] None false)
  = (None, mkMemDB [(2, "b"); (1, "a")] None false).
Proof. reflexivity. Qed.

(** ** The repository's tests, replayed on the model *)

(** "migrations are sorted by version". *)
Example test_sorted_by_version :
  map Version
    (applied (rr_trace (RunMigrations mockCtx mockDriver None three_migrations
                          (mockWorld []))))
  = [1; 2; 3].
Proof. reflexivity. Qed.

(** "skips already applied migrations". *)
Example test_skips_applied :
  map Version
    (attempted (rr_trace (RunMigrations mockCtx mockDriver None three_migrations
                            (mockWorld [1]))))
  = [2; 3].
Proof. reflexivity. Qed.

(** "handles connect error": [Close] is not called. *)
Example test_connect_error :
  rr_trace (RunMigrations mockCtx mockDriver None three_migrations
              (mkMock (Some (errors_New "connection failed")) None None None 0 [] 0))
  = [EvConnect (Some (errors_New "connection failed"))].
Proof. reflexivity. Qed.

(** "handles create table error": [Close] is called. *)
Example test_create_table_error :
  rr_trace (RunMigrations mockCtx mockDriver None three_migrations
              (mkMock None (Some (errors_New "table creation failed")) None None 0 [] 0))
  = [EvConnect None;
     EvCreateMigrationsTable (Some (errors_New "table creation failed"));
     EvClose None].
Proof. reflexivity. Qed.

(** "handles context cancellation": cancelled from the start. *)
Example test_context_cancelled :
  let r := RunMigrations mockCtx mockDriver None three_migrations
             (mkMock None None None (Some 0%nat) 0 [] 0) in
  rr_outcome r = Return (Some context_Canceled) /\ attempted (rr_trace r) = [].
Proof. split; reflexivity. Qed.

(** "handles empty migrations list". *)
Example test_empty_list :
  let r := RunMigrations mockCtx mockDriver None [] (mockWorld []) in
  rr_outcome r = Return None /\ attempted (rr_trace r) = [].
Proof. split; reflexivity. Qed.

(** TestParseMigrationFileName, on parseMigrationFileName of
    src/migration.go. *)
Example test_parse_file_names :
  Legacy.parseMigrationFileName "1_createusers.sql" = (1, "createusers.sql", None)
  /\ Legacy.parseMigrationFileName "5_create_users_table.sql"
     = (5, "create_users_table.sql", None)
  /\ snd (Legacy.parseMigrationFileName "1create_users.sql") <> None
  /\ snd (Legacy.parseMigrationFileName "abc_create_table.sql") <> None
  /\ snd (Legacy.parseMigrationFileName "0_create_table.sql") <> None
  /\ snd (Legacy.parseMigrationFileName "-1_create_table.sql") <> None.
Proof. repeat split; try reflexivity; vm_compute; discriminate. Qed.

(* ================================================================== *)
(** * Part III. Further properties of the code *)
(* ================================================================== *)

(** ** The loader: what an accepted file name looks like *)

Lemma no_underscore_Index (s : string) :
  no_underscore s = true -> strings_Index s "_" = -1.
Proof.
  induction s as [|c s IH]; intros H; [reflexivity|].
  simpl in H. apply andb_true_iff in H as [Hc Hs]. apply negb_true_iff in Hc.
  change (strings_Index (String c s) "_")
    with (if String.prefix "_" (String c s) then 0
          else let r := strings_Index s "_" in if r <? 0 then -1 else 1 + r).
  change (String.prefix "_" (String c s))
    with (if ascii_dec "_" c then String.prefix "" s else false).
  destruct (ascii_dec "_" c) as [E|E]; [subst c; discriminate Hc|].
  cbv zeta. now rewrite (IH Hs).
Qed.

(** [strings.Index(s, "_")] is [-1], or the position of an underscore
    with no underscore before it. *)
Lemma Index_underscore_found (s : string) :
  let i := strings_Index s "_" in
  i = -1
  \/ (0 <= i
      /\ s = (str_take (Z.to_nat i) s ++ "_" ++ str_drop (S (Z.to_nat i)) s)%string
      /\ no_underscore (str_take (Z.to_nat i) s) = true).
Proof.
  induction s as [|c s IH]; [now left|].
  change (strings_Index (String c s) "_")
    with (if String.prefix "_" (String c s) then 0
          else let r := strings_Index s "_" in if r <? 0 then -1 else 1 + r).
  change (String.prefix "_" (String c s))
    with (if ascii_dec "_" c then String.prefix "" s else false).
  destruct (ascii_dec "_" c) as [E|E].
  - subst c. assert (P : String.prefix "" s = true) by now destruct s.
    rewrite P. right. change (Z.to_nat 0) with 0%nat.
    cbn [str_take str_drop String.append no_underscore].
    split; [lia|]. split; reflexivity.
  - cbv zeta in *. destruct (strings_Index s "_" <? 0) eqn:L; [now left|].
    apply Z.ltb_ge in L. right.
    destruct IH as [IH|(H0 & Hs & Hn)]; [lia|].
    replace (Z.to_nat (1 + strings_Index s "_"))
      with (S (Z.to_nat (strings_Index s "_"))) by lia.
    split; [lia|]. split.
    + cbn [str_take str_drop String.append]. f_equal. exact Hs.
    + cbn [str_take no_underscore]. rewrite Hn, andb_true_r.
      apply negb_true_iff.
      destruct (Ascii.eqb_spec c "_") as [->|]; [now elim E | reflexivity].
Qed.

Lemma parse_digits_nonneg (s : string) :
  forall acc n, 0 <= acc -> parse_digits s acc = DigitsValue n -> 0 <= n.
Proof.
  induction s as [|c s IH]; intros acc n Ha H; cbn [parse_digits] in H.
  - now injection H as <-.
  - destruct (is_digit c) eqn:D; [|discriminate].
    destruct (maxUint64 / 10 + 1 <=? acc); [discriminate|].
    destruct (maxUint64 <? 10 * acc + digit_val c); [discriminate|].
    apply IH in H; [exact H|].
    unfold is_digit in D. apply andb_true_iff in D as [D1 _].
    apply Nat.leb_le in D1. unfold digit_val.
    remember (nat_of_ascii c) as k. lia.
Qed.

(** What [strconv.Atoi] returns without error fits a 64-bit [int]. *)
Lemma Atoi_range (s : string) (v : Z) :
  strconv_Atoi s = (v, None) -> minInt <= v <= maxInt.
Proof.
  assert (G : forall s0 neg digits, atoi_digits s0 neg digits = (v, None) ->
                                    minInt <= v <= maxInt).
  { intros s0 neg digits. unfold atoi_digits.
    destruct digits as [|c d]; [discriminate|].
    destruct (parse_digits (String c d) 0) as [n| |] eqn:P;
      [|discriminate|destruct neg; discriminate].
    pose proof (parse_digits_nonneg _ _ _ (Z.le_refl 0) P) as Hn.
    unfold minInt, maxInt in *.
    destruct neg.
    - destruct (n <=? - - 2 ^ 63) eqn:E; [|discriminate].
      apply Z.leb_le in E. intros H. injection H as <-. lia.
    - destruct (n <=? 2 ^ 63 - 1) eqn:E; [|discriminate].
      apply Z.leb_le in E. intros H. injection H as <-. lia. }
  unfold strconv_Atoi. destruct s as [|c rest]; [apply G|].
  destruct (Ascii.eqb c "+"); [apply G|].
  destruct (Ascii.eqb c "-"); apply G.
Qed.

Lemma loadFixture_ok (afs : FS) (stem : string) (b m : Migration) :
  loadFixture afs stem b = (Some m, None) ->
  Version m = Version b /\ Name m = Name b /\ MigrationSQL m = MigrationSQL b.
Proof.
  unfold loadFixture.
  destruct (fs_Stat afs (stem ++ ".fixture.sql")).
  - intros H. injection H as <-. auto.
  - destruct (fs_ReadFile afs (stem ++ ".fixture.sql")) as [c [e|]];
      [discriminate|].
    intros H. injection H as <-. auto.
Qed.

Lemma parseMigrationFile_ok_inv :
  forall (afs : FS) (file : DirEntry) (fixtures : bool) (m : Migration),
    parseMigrationFile afs file fixtures = (Some m, None) ->
    exists vs,
      de_Name file = (vs ++ "_" ++ Name m ++ ".sql")%string
      /\ no_underscore vs = true
      /\ strconv_Atoi vs = (Version m, None)
      /\ 0 < Version m <= maxInt
      /\ is_fixture (de_Name file) = false
      /\ fs_ReadFile afs (de_Name file) = (MigrationSQL m, None)
      /\ (fixtures = false -> FixturesSQL m = "").
Proof.
  intros afs file fixtures m. unfold parseMigrationFile, is_fixture.
  destruct (strings_HasSuffix (de_Name file) ".sql") eqn:S1;
    cbn [negb]; [|discriminate].
  destruct (strings_HasSuffix (de_Name file) ".fixture.sql") eqn:S2;
    [discriminate|].
  pose proof (TrimSuffix_restore _ _ S1) as Hname.
  set (stem := strings_TrimSuffix (de_Name file) ".sql") in *.
  pose proof (Index_underscore_found stem) as Hidx. cbv zeta in Hidx.
  destruct (strings_Index stem "_" =? -1) eqn:E; [discriminate|].
  apply Z.eqb_neq in E. destruct Hidx as [Hidx|(H0 & Hstem & Hnu)]; [lia|].
  unfold slice_to, slice_from.
  replace (Z.to_nat (strings_Index stem "_" + 1))
    with (S (Z.to_nat (strings_Index stem "_"))) by lia.
  set (vs := str_take (Z.to_nat (strings_Index stem "_")) stem) in *.
  set (rest := str_drop (S (Z.to_nat (strings_Index stem "_"))) stem) in *.
  destruct (strconv_Atoi vs) as [v [e|]] eqn:A; [discriminate|].
  cbn [set_Version set_Name Version Name MigrationSQL FixturesSQL zeroMigration].
  destruct (v <=? 0) eqn:Hv; [discriminate|]. apply Z.leb_gt in Hv.
  destruct (fs_ReadFile afs (stem ++ ".sql")) as [sql [e|]] eqn:R;
    [discriminate|].
  rewrite Hname in R.
  assert (Hfile : de_Name file = (vs ++ "_" ++ rest ++ ".sql")%string).
  { rewrite <- Hname. rewrite Hstem at 1. now rewrite !string_app_assoc. }
  pose proof (Atoi_range _ _ A) as Hr.
  intros H. exists vs.
  destruct fixtures.
  - apply loadFixture_ok in H as (Hver & Hn & Hsql).
    cbn [Version Name MigrationSQL set_MigrationSQL set_Version set_Name] in *.
    rewrite Hver, Hn, Hsql.
    repeat split; try assumption; try lia; try discriminate.
  - injection H as <-.
    cbn [Version Name MigrationSQL FixturesSQL set_MigrationSQL set_Version set_Name].
    repeat split; try assumption; try lia.
Qed.

(** X2. parseMigrationFile, fixtures disabled, returns migration [m]
    without error exactly when the file name is [<vs>_<Name>.sql] for a
    prefix [vs] without underscore that [strconv.Atoi] reads as the
    version, the version is positive, the name is not a fixture name,
    [MigrationSQL] is what [fs.ReadFile] returns for the file and
    [FixturesSQL] is empty. So the migration determines its file, up to the
    spelling of the version. *)
Theorem parseMigrationFile_inversion :
  forall (afs : FS) (file : DirEntry) (m : Migration),
    parseMigrationFile afs file false = (Some m, None)
    <-> exists vs,
        de_Name file = (vs ++ "_" ++ Name m ++ ".sql")%string
        /\ no_underscore vs = true
        /\ strconv_Atoi vs = (Version m, None)
        /\ 0 < Version m <= maxInt
        /\ is_fixture (de_Name file) = false
        /\ fs_ReadFile afs (de_Name file) = (MigrationSQL m, None)
        /\ FixturesSQL m = "".
Proof.
  intros afs file m. split.
  - intros H.
    destruct (parseMigrationFile_ok_inv afs file false m H)
      as (vs & H1 & H2 & H3 & H4 & H5 & H6 & H7).
    exists vs. repeat split; auto; lia.
  - intros (vs & H1 & _ & H3 & H4 & H5 & H6 & H7).
    destruct file as [name isDir]. cbn [de_Name] in *. subst name.
    rewrite (parseMigrationFile_valid afs isDir false vs (Name m)
               (MigrationSQL m) (Version m) H3 (proj1 H4) H5 H6).
    destruct m as [v n sql fx]. cbn in *. now subst fx.
Qed.

Lemma parseMigrationFile_inversion_witness :
  exists vs,
    "10_add_index_to_users_table.sql"
    = (vs ++ "_" ++ "add_index_to_users_table" ++ ".sql")%string
    /\ strconv_Atoi vs = (10, None).
Proof.
  destruct (proj1 (parseMigrationFile_inversion
              (memFS [("10_add_index_to_users_table.sql", MemFile "CREATE INDEX i;")])
              (mkDirEntry "10_add_index_to_users_table.sql" false)
              (mkMigration 10 "add_index_to_users_table" "CREATE INDEX i;" ""))
              eq_refl) as (vs & H1 & _ & H3 & _).
  exists vs. split; [exact H1 | exact H3].
Defined.

(** X3. A [.sql] file that is not a fixture is rejected with an error
    when its stem holds no underscore, when the prefix before the first
    underscore is not an integer for [strconv.Atoi] (the error of Atoi is
    wrapped), and when that integer is zero or negative. *)
Theorem parseMigrationFile_rejects :
  forall (afs : FS) (file : DirEntry) (fixtures : bool),
    is_sql (de_Name file) = true ->
    is_fixture (de_Name file) = false ->
    let stem := strings_TrimSuffix (de_Name file) ".sql" in
    let result := parseMigrationFile afs file fixtures in
    (no_underscore stem = true ->
     snd result
     = Some (errors_New ("invalid migration file name format for file: "
                         ++ stem ++ ", (the format is <id>_<name>.sql)")))
    /\ forall (vs rest : string) (v : Z),
        stem = (vs ++ "_" ++ rest)%string ->
        no_underscore vs = true ->
        (forall e, strconv_Atoi vs = (v, Some e) ->
                   snd result
                   = Some (fmt_Errorf ("failed to parse migration file version ("
                                       ++ stem ++ "): ") e))
        /\ (strconv_Atoi vs = (v, None) -> v <= 0 ->
            snd result
            = Some (errors_New ("migration file version cannot be <= 0: "
                                ++ stem))).
Proof.
  intros afs file fixtures S1 S2 stem result. unfold is_sql, is_fixture in *.
  subst result. unfold parseMigrationFile. rewrite S1, S2. cbn [negb].
  fold stem. split.
  - intros Hnu. now rewrite (no_underscore_Index _ Hnu).
  - intros vs rest v Hstem Hnu.
    destruct (split_at_first_underscore vs rest Hnu) as (Hidx & Hto & Hfrom).
    rewrite <- Hstem in Hidx, Hto, Hfrom. rewrite Hidx, Hto, Hfrom. split.
    + intros e A. now rewrite A.
    + intros A Hv. rewrite A.
      cbn [set_Version set_Name Version].
      destruct (v <=? 0) eqn:E; [reflexivity | apply Z.leb_gt in E; lia].
Qed.

Lemma parseMigrationFile_rejects_witness :
  snd (parseMigrationFile (memFS []) (mkDirEntry "0_create_table.sql" false) false)
  = Some (errors_New "migration file version cannot be <= 0: 0_create_table").
Proof.
  apply (proj2 (proj2 (parseMigrationFile_rejects (memFS [])
                         (mkDirEntry "0_create_table.sql" false) false
                         eq_refl eq_refl)
                  "0" "create_table" 0 eq_refl eq_refl) eq_refl).
  lia.
Defined.

(** ** The loader: the whole listing *)

Lemma loadEntries_fails_fast (afs : FS) (fixtures : bool)
  (pre : list DirEntry) (file : DirEntry) (post : list DirEntry) (e : error) :
  Forall (fun f => de_IsDir f = true
                   \/ snd (parseMigrationFile afs f fixtures) = None) pre ->
  de_IsDir file = false ->
  snd (parseMigrationFile afs file fixtures) = Some e ->
  forall acc,
    loadEntries afs fixtures (pre ++ file :: post) acc = ([], Some e).
Proof.
  intros Hpre Hd He. induction Hpre as [|f pre Hf _ IH]; intros acc;
    cbn [app loadEntries].
  - rewrite Hd.
    destruct (parseMigrationFile afs file fixtures) as [m err].
    cbn [snd] in He. now subst err.
  - destruct (de_IsDir f) eqn:D; [apply IH|].
    destruct Hf as [Hf|Hf]; [discriminate|].
    destruct (parseMigrationFile afs f fixtures) as [m err].
    cbn [snd] in Hf. subst err. destruct m; apply IH.
Qed.

(** X4. LoadMigrationsFromFS stops at the first entry, in listing order,
    that parseMigrationFile rejects: it returns that entry's error and no
    migrations, whatever the entries after it. *)
Theorem LoadMigrationsFromFS_fails_fast :
  forall (afs : FS) (fixtures : bool) (pre post : list DirEntry)
         (file : DirEntry) (e : error),
    fs_ReadDir afs = (pre ++ file :: post, None) ->
    Forall (fun f => de_IsDir f = true
                     \/ snd (parseMigrationFile afs f fixtures) = None) pre ->
    de_IsDir file = false ->
    snd (parseMigrationFile afs file fixtures) = Some e ->
    LoadMigrationsFromFS afs fixtures = ([], Some e).
Proof.
  intros afs fixtures pre post file e Hdir Hpre Hd He.
  unfold LoadMigrationsFromFS. rewrite Hdir.
  destruct (Z.of_nat (List.length (pre ++ file :: post)) =? 0) eqn:E.
  - apply Z.eqb_eq in E. rewrite length_app in E. cbn in E. lia.
  - now apply loadEntries_fails_fast.
Qed.

Lemma LoadMigrationsFromFS_fails_fast_witness :
  LoadMigrationsFromFS
    (memFS [("1_users.sql", MemFile "CREATE TABLE users (id INT);");
            ("invalid.sql", MemFile "CREATE TABLE posts (id INT);");
            ("3_later.sql", MemFile "CREATE TABLE later (id INT);")]) false
  = ([], Some (errors_New ("invalid migration file name format for file: "
                           ++ "invalid" ++ ", (the format is <id>_<name>.sql)"))).
Proof.
  apply (LoadMigrationsFromFS_fails_fast
           (memFS [("1_users.sql", MemFile "CREATE TABLE users (id INT);");
                   ("invalid.sql", MemFile "CREATE TABLE posts (id INT);");
                   ("3_later.sql", MemFile "CREATE TABLE later (id INT);")])
           false [mkDirEntry "1_users.sql" false] [mkDirEntry "3_later.sql" false]
           (mkDirEntry "invalid.sql" false)).
  - reflexivity.
  - constructor; [right; reflexivity | constructor].
  - reflexivity.
  - reflexivity.
Defined.

Lemma Forall2_Forall_r {A B : Type} (P : A -> B -> Prop) (Q : B -> Prop)
  (l : list A) (l' : list B) :
  Forall2 P l l' ->
  (forall a b, In a l -> P a b -> Q b) ->
  Forall Q l'.
Proof.
  induction 1 as [|a b l l' Hab _ IH]; intros HQ; constructor.
  - apply (HQ a b); [now left | exact Hab].
  - apply IH. intros a' b' Hin. apply HQ. now right.
Qed.

(** X5. Every migration that LoadMigrationsFromFS returns has a positive
    version that fits an [int], and comes from a regular top-level file
    named [<vs>_<Name>.sql] whose contents are its [MigrationSQL]; there
    is one migration per usable entry. *)
Theorem LoadMigrationsFromFS_loaded :
  forall (afs : FS) (fixtures : bool) (ms : list Migration),
    LoadMigrationsFromFS afs fixtures = (ms, None) ->
    List.length ms = List.length (filter usable (fst (fs_ReadDir afs)))
    /\ Forall (fun m =>
                 0 < Version m <= maxInt
                 /\ exists file vs,
                     In file (fst (fs_ReadDir afs))
                     /\ de_IsDir file = false
                     /\ de_Name file = (vs ++ "_" ++ Name m ++ ".sql")%string
                     /\ strconv_Atoi vs = (Version m, None)
                     /\ fs_ReadFile afs (de_Name file) = (MigrationSQL m, None))
         ms.
Proof.
  intros afs fixtures ms H. unfold LoadMigrationsFromFS in H.
  destruct (fs_ReadDir afs) as [files [e|]]; [discriminate|].
  destruct (Z.of_nat (List.length files) =? 0); [discriminate|].
  destruct (loadEntries_usable afs fixtures files [] ms H) as (new & -> & HF).
  cbn [app fst]. split; [symmetry; exact (Forall2_length HF)|].
  apply (Forall2_Forall_r _ _ _ _ HF). intros file m Hin Hp.
  apply filter_In in Hin as [Hin U]. unfold usable in U.
  apply andb_true_iff in U as [U _]. apply andb_true_iff in U as [U _].
  apply negb_true_iff in U.
  destruct (parseMigrationFile_ok_inv afs file fixtures m Hp)
    as (vs & Hn & _ & Ha & Hv & _ & Hr & _).
  split; [exact Hv|]. exists file, vs. auto.
Qed.

Lemma LoadMigrationsFromFS_loaded_witness :
  Forall (fun m => 0 < Version m <= maxInt)
    (fst (LoadMigrationsFromFS
            (memFS [("docs", MemDir);
                    ("2_posts.sql", MemFile "CREATE TABLE posts (id INT);");
                    ("1_users.sql", MemFile "CREATE TABLE users (id INT);")])
            false)).
Proof.
  destruct (LoadMigrationsFromFS_loaded
              (memFS [("docs", MemDir);
                      ("2_posts.sql", MemFile "CREATE TABLE posts (id INT);");
                      ("1_users.sql", MemFile "CREATE TABLE users (id INT);")])
              false _ eq_refl) as [_ H].
  eapply Forall_impl; [|exact H]. cbv beta. intros m [Hm _]. exact Hm.
Defined.

(** ** The loader: what the flag [fixtures] changes *)

Lemma set_FixturesSQL_same (m : Migration) :
  FixturesSQL m = "" -> set_FixturesSQL m "" = m.
Proof. destruct m as [v n s f]. cbn. now intros ->. Qed.

Lemma parseMigrationFile_skipped_both (afs : FS) (file : DirEntry) :
  parseMigrationFile afs file false = (None, None) ->
  parseMigrationFile afs file true = (None, None).
Proof.
  intros H. apply parseMigrationFile_skips.
  destruct (is_sql (de_Name file)) eqn:S1; [|now left].
  destruct (is_fixture (de_Name file)) eqn:S2; [now right|].
  destruct (parseMigrationFile_usable afs file false S1 S2) as [m Hm].
  rewrite H in Hm. discriminate.
Qed.

Lemma loadEntries_fixtures (afs : FS) (files : list DirEntry) :
  forall acc acc' ms,
    loadEntries afs false files acc = (ms, None) ->
    map (fun m => set_FixturesSQL m "") acc' = acc ->
    (exists ms',
        loadEntries afs true files acc' = (ms', None)
        /\ map (fun m => set_FixturesSQL m "") ms' = ms)
    \/ (exists stem e,
           loadEntries afs true files acc'
           = ([], Some (fmt_Errorf ("failed to read fixture file ("
                                    ++ stem ++ "): ") e))).
Proof.
  induction files as [|file rest IH]; intros acc acc' ms H Hacc;
    cbn [loadEntries] in *.
  - injection H as <-. left. exists acc'. auto.
  - destruct (de_IsDir file); [now apply (IH acc)|].
    destruct (parseMigrationFile afs file false) as [[m|] [e|]] eqn:P;
      try discriminate.
    + destruct (parseMigrationFile_fixtures afs file m P) as [-> Hf].
      unfold loadFixture.
      destruct (fs_Stat afs _).
      * apply (IH _ (acc' ++ [m]) _ H).
        rewrite map_app, Hacc. cbn [map]. now rewrite set_FixturesSQL_same.
      * destruct (fs_ReadFile afs _) as [c [e|]].
        -- right. eexists _, e. reflexivity.
        -- apply (IH _ (acc' ++ [set_FixturesSQL m c]) _ H).
           rewrite map_app, Hacc. cbn [map].
           f_equal. f_equal. destruct m as [v n s f]. cbn in *. now subst f.
    + rewrite (parseMigrationFile_skipped_both afs file P). now apply (IH acc).
Qed.

(** X6. If a source loads with fixtures disabled, then with fixtures
    enabled it either loads the same migrations, differing at most in
    [FixturesSQL], or fails because a fixture file that exists cannot be
    read; enabling fixtures has no other effect on loading. *)
Theorem LoadMigrationsFromFS_fixtures_flag :
  forall (afs : FS) (ms : list Migration),
    LoadMigrationsFromFS afs false = (ms, None) ->
    (exists ms',
        LoadMigrationsFromFS afs true = (ms', None)
        /\ map (fun m => set_FixturesSQL m "") ms' = ms)
    \/ (exists stem e,
           LoadMigrationsFromFS afs true
           = ([], Some (fmt_Errorf ("failed to read fixture file ("
                                    ++ stem ++ "): ") e))).
Proof.
  intros afs ms. unfold LoadMigrationsFromFS.
  destruct (fs_ReadDir afs) as [files [e|]]; [discriminate|].
  destruct (Z.of_nat (List.length files) =? 0); [discriminate|].
  intros H. now apply (loadEntries_fixtures afs files [] [] ms H).
Qed.

Lemma LoadMigrationsFromFS_fixtures_flag_witness :
  map (fun m => set_FixturesSQL m "")
    (fst (LoadMigrationsFromFS
            (memFS [("1_users.fixture.sql", MemFile "INSERT INTO users VALUES (1);");
                    ("1_users.sql", MemFile "CREATE TABLE users (id INT);")])
            true))
  = [mkMigration 1 "users" "CREATE TABLE users (id INT);" ""].
Proof.
  destruct (LoadMigrationsFromFS_fixtures_flag
              (memFS [("1_users.fixture.sql", MemFile "INSERT INTO users VALUES (1);");
                      ("1_users.sql", MemFile "CREATE TABLE users (id INT);")])
              _ eq_refl) as [(ms' & H1 & H2)|(stem & e & H)].
  - rewrite H1. exact H2.
  - discriminate H.
Defined.

(** ** The loader of src/migration.go *)

Lemma Legacy_parse_inversion (fileName name : string) (v : Z) :
  Legacy.parseMigrationFileName fileName = (v, name, None) ->
  exists vs,
    fileName = (vs ++ "_" ++ name)%string
    /\ no_underscore vs = true
    /\ strconv_Atoi vs = (v, None)
    /\ 0 < v <= maxInt.
Proof.
  unfold Legacy.parseMigrationFileName.
  pose proof (Index_underscore_found fileName) as Hidx. cbv zeta in Hidx.
  destruct (strings_Index fileName "_" =? -1) eqn:E; [discriminate|].
  apply Z.eqb_neq in E. destruct Hidx as [Hidx|(H0 & Hs & Hnu)]; [lia|].
  unfold slice_to, slice_from.
  replace (Z.to_nat (strings_Index fileName "_" + 1))
    with (S (Z.to_nat (strings_Index fileName "_"))) by lia.
  destruct (strconv_Atoi _) as [v' [e|]] eqn:A; [discriminate|].
  destruct (v' <=? 0) eqn:Hv; [discriminate|]. apply Z.leb_gt in Hv.
  intros H. injection H as <- <-.
  eexists. split; [exact Hs|]. split; [exact Hnu|]. split; [exact A|].
  pose proof (Atoi_range _ _ A). lia.
Qed.

Lemma Legacy_loadEntries_all (afs : FS) (files : list DirEntry) :
  forall acc ms,
    Legacy.loadEntries afs files acc = (ms, None) ->
    exists new,
      ms = acc ++ new
      /\ Forall2 (fun file m =>
                    Legacy.parseMigrationFileName (de_Name file)
                    = (Legacy.Version m, Legacy.Name m, None)
                    /\ fs_ReadFile afs (de_Name file) = (Legacy.SQL m, None))
           (filter (fun f => negb (de_IsDir f)) files) new.
Proof.
  induction files as [|file rest IH]; intros acc ms H;
    cbn [Legacy.loadEntries filter] in *.
  - injection H as <-. exists []. rewrite app_nil_r. split; [reflexivity|constructor].
  - destruct (de_IsDir file); cbn [negb]; [now apply IH|].
    destruct (fs_ReadFile afs (de_Name file)) as [content [e|]] eqn:R;
      [discriminate|].
    destruct (Legacy.parseMigrationFileName (de_Name file))
      as [[version name] [e|]] eqn:P; [discriminate|].
    destruct (IH _ _ H) as (new & -> & HF).
    exists (Legacy.mkMigration version name content :: new).
    rewrite <- app_assoc. split; [reflexivity|].
    constructor; [|exact HF]. cbn. auto.
Qed.

(** X7. The loader of src/migration.go accepts a source only if every
    top-level entry that is not a directory, whatever its extension, is
    named [<vs>_<name>] with [vs] an integer above zero and can be read;
    it then returns one migration per such entry, in listing order, whose
    name is everything after the first underscore and whose SQL is the
    file's contents. *)
Theorem Legacy_LoadMigrationsFromFS_loaded :
  forall (afs : FS) (ms : list Legacy.Migration),
    Legacy.LoadMigrationsFromFS afs = (ms, None) ->
    Forall2 (fun file m =>
               (exists vs,
                   de_Name file = (vs ++ "_" ++ Legacy.Name m)%string
                   /\ strconv_Atoi vs = (Legacy.Version m, None)
                   /\ 0 < Legacy.Version m <= maxInt)
               /\ fs_ReadFile afs (de_Name file) = (Legacy.SQL m, None))
      (filter (fun f => negb (de_IsDir f)) (fst (fs_ReadDir afs))) ms.
Proof.
  intros afs ms. unfold Legacy.LoadMigrationsFromFS.
  destruct (fs_ReadDir afs) as [files [e|]]; [discriminate|].
  destruct (Z.of_nat (List.length files) =? 0); [discriminate|].
  intros H. destruct (Legacy_loadEntries_all afs files [] ms H) as (new & -> & HF).
  cbn [app fst]. eapply Forall2_impl; [|exact HF].
  intros file m [Hp Hr]. split; [|exact Hr].
  destruct (Legacy_parse_inversion _ _ _ Hp) as (vs & H1 & _ & H3 & H4).
  exists vs. auto.
Qed.

Lemma Legacy_LoadMigrationsFromFS_loaded_witness :
  Forall2 (fun file m => fs_ReadFile (memFS [("1_users.txt", MemFile "CREATE TABLE u;")])
                           (de_Name file) = (Legacy.SQL m, None))
    [mkDirEntry "1_users.txt" false]
    [Legacy.mkMigration 1 "users.txt" "CREATE TABLE u;"].
Proof.
  pose proof (Legacy_LoadMigrationsFromFS_loaded
                (memFS [("1_users.txt", MemFile "CREATE TABLE u;")])
                [Legacy.mkMigration 1 "users.txt" "CREATE TABLE u;"] eq_refl) as H.
  eapply Forall2_impl; [|exact H]. intros file m [_ Hr]. exact Hr.
Defined.

(** ** RunMigrations: which errors it returns and which it logs *)

Lemma logged_errors_app (a b : list Event) :
  logged_errors (a ++ b) = logged_errors a ++ logged_errors b.
Proof.
  induction a as [|e a IH]; simpl; [reflexivity|].
  destruct e; simpl; now rewrite ?IH.
Qed.

Lemma logged_errors_logInfo (logger : option stdoutLogger) (msg : string) :
  logged_errors (logInfo logger msg) = [].
Proof. now destruct logger. Qed.

Section RunnerErrors.

Context {W : Type} {sorter : SliceSorter}.
Variable ctx : Context W.
Variable driver : MigrationDriver W.
Variable logger : option stdoutLogger.

Lemma applyLoop_error_report (migrations : list Migration) (idxs : list Z) :
  forall a w,
    loop_error_report logger
      (fst (fst (applyLoop ctx driver logger migrations idxs a w)))
      (snd (applyLoop ctx driver logger migrations idxs a w)).
Proof.
  induction idxs as [|i rest IH]; intros a w; cbn [applyLoop].
  - reflexivity.
  - destruct (ctx w) as [e|].
    { cbn. left. auto. }
    destruct (slice_index migrations i) as [m|]; [|reflexivity].
    fold (applyInfo logger m). fold (applyError m).
    pose proof (logged_errors_logInfo logger
                  ("applying migration " ++ itoa (Version m) ++ ": " ++ Name m))
      as Hi.
    fold (applyInfo logger m) in Hi.
    destruct (ApplyMigration driver ctx m w) as [[e|] w1].
    + cbn [fst snd loop_error_report]. right. split.
      * cbn [logged_errors]. rewrite logged_errors_app, Hi. reflexivity.
      * exists m, e. split; [reflexivity|].
        right. apply in_or_app. right. now left.
    + specialize (IH (a + 1) w1).
      destruct (applyLoop ctx driver logger migrations rest (a + 1) w1)
        as [[f w2] evs].
      cbn [fst snd] in *.
      assert (L : logged_errors
                    (EvCtxErr None :: applyInfo logger m
                       ++ EvApplyMigration m None :: evs)
                  = logged_errors evs).
      { cbn [logged_errors]. now rewrite logged_errors_app, Hi. }
      destruct f as [a'|[[err|]|msg]]; cbn [loop_error_report] in *;
        rewrite ?L; try exact IH.
      destruct IH as [[Hin Hl]|[Hl (m' & e' & He & Hin)]].
      * left. split; [|exact Hl].
        right. apply in_or_app. right. now right.
      * right. split; [exact Hl|]. exists m', e'. split; [exact He|].
        right. apply in_or_app. right. now right.
Qed.

End RunnerErrors.

(** X8. An error returned by RunMigrations is either the context's error,
    returned as it is and not logged, or the error of [Connect],
    [CreateMigrationsTable], [GetCurrentVersion] or [ApplyMigration]
    wrapped with the step's text, which is also the one error handed to
    [logger.Error] when a logger is given. A call that returns nil or
    panics logs no error. *)
Theorem RunMigrations_errors_reported :
  forall (W : Type) (sorter : SliceSorter) (ctx : Context W)
         (driver : MigrationDriver W) (logger : option stdoutLogger)
         (migrations : list Migration) (w : W),
    let r := RunMigrations ctx driver logger migrations w in
    match rr_outcome r with
    | Return (Some err) =>
        (In (EvCtxErr (Some err)) (rr_trace r)
         /\ logged_errors (rr_trace r) = [])
        \/ (logged_errors (rr_trace r) = logged_errors (logError logger err)
            /\ ((exists e, err = fmt_Errorf "failed to connect to the database: " e
                           /\ In (EvConnect (Some e)) (rr_trace r))
                \/ (exists e, err = fmt_Errorf "failed to create migrations table: " e
                              /\ In (EvCreateMigrationsTable (Some e)) (rr_trace r))
                \/ (exists v e, err = fmt_Errorf "failed to get current version: " e
                                /\ In (EvGetCurrentVersion v (Some e)) (rr_trace r))
                \/ (exists m e, err = applyError m e
                                /\ In (EvApplyMigration m (Some e)) (rr_trace r))))
    | _ => logged_errors (rr_trace r) = []
    end.
Proof.
  intros W sorter ctx driver logger migrations w. cbv zeta.
  unfold RunMigrations, runConnected.
  destruct (Connect driver ctx w) as [[e|] w1].
  { cbn [rr_outcome rr_trace]. right. split; [reflexivity|].
    left. exists e. split; [reflexivity | now left]. }
  destruct (CreateMigrationsTable driver ctx w1) as [[e|] w2].
  { destruct (Close driver ctx w2) as [cerr w5]. cbn [rr_outcome rr_trace].
    right. split.
    - cbn [logged_errors app]. rewrite logged_errors_app. cbn [logged_errors].
      now rewrite app_nil_r.
    - right. left. exists e. split; [reflexivity | right; now left]. }
  destruct (GetCurrentVersion driver ctx w2) as [[v [e|]] w3].
  { destruct (Close driver ctx w3) as [cerr w5]. cbn [rr_outcome rr_trace].
    right. split.
    - cbn [logged_errors app]. rewrite logged_errors_app. cbn [logged_errors].
      now rewrite app_nil_r.
    - right. right. left. exists v, e. split; [reflexivity|].
      right. right. now left. }
  pose proof (applyLoop_error_report ctx driver logger (sort_Slice migrations)
                (for_range v (len (sort_Slice migrations))) 0 w3) as Hrep.
  destruct (applyLoop ctx driver logger (sort_Slice migrations)
              (for_range v (len (sort_Slice migrations))) 0 w3) as [[f w4] evs].
  cbn [fst snd] in Hrep.
  pose proof (logged_errors_logInfo logger ("current version: " ++ itoa v)) as Hcv.
  assert (Lhead : forall tail cerr,
             logged_errors
               (EvConnect None
                  :: (EvCreateMigrationsTable None
                        :: EvGetCurrentVersion v None
                        :: logInfo logger ("current version: " ++ itoa v))
                       ++ evs ++ tail ++ [EvClose cerr])
             = logged_errors evs ++ logged_errors tail).
  { intros tail cerr. cbn [logged_errors app].
    rewrite !logged_errors_app, Hcv. cbn [logged_errors app].
    now rewrite app_nil_r. }
  destruct f as [a|o]; destruct (Close driver ctx w4) as [cerr w5];
    cbn [rr_outcome rr_trace].
  - cbn [loop_error_report] in Hrep.
    rewrite <- app_assoc, <- app_assoc, Lhead, Hrep, logged_errors_logInfo.
    reflexivity.
  - assert (Ltr : logged_errors
                    (EvConnect None
                       :: ((EvCreateMigrationsTable None
                              :: EvGetCurrentVersion v None
                              :: logInfo logger ("current version: " ++ itoa v))
                             ++ evs) ++ [EvClose cerr])
                  = logged_errors evs).
    { rewrite <- app_assoc. pose proof (Lhead [] cerr) as L.
      cbn [app logged_errors] in L. rewrite app_nil_r in L. exact L. }
    assert (Hin : forall x, In x evs ->
                In x (EvConnect None
                        :: ((EvCreateMigrationsTable None
                               :: EvGetCurrentVersion v None
                               :: logInfo logger ("current version: " ++ itoa v))
                              ++ evs) ++ [EvClose cerr])).
    { intros x Hx. right. apply in_or_app. left. apply in_or_app. now right. }
    destruct o as [[err|]|msg]; cbn [loop_error_report] in Hrep; rewrite Ltr.
    + destruct Hrep as [[Hc Hl]|[Hl (m & e & He & Ha)]].
      * left. split; [now apply Hin | exact Hl].
      * right. split; [exact Hl|]. right. right. right.
        exists m, e. split; [exact He | now apply Hin].
    + contradiction.
    + exact Hrep.
Qed.

(** X9. When [GetCurrentVersion] returns a negative version, the first
    pass of the loop indexes the slice out of range: unless the context is
    already cancelled, RunMigrations panics, even for an empty slice. No
    [ApplyMigration] is called, and the deferred [Close] still runs. The
    context is asked once, and once more for the error to return when it
    is cancelled. *)
Theorem RunMigrations_negative_version :
  forall (W : Type) (sorter : SliceSorter) (ctx : Context W)
         (driver : MigrationDriver W) (logger : option stdoutLogger)
         (migrations : list Migration) (w w3 : W) (v : Z),
    setup_ok ctx driver w v w3 -> v < 0 ->
    let r := RunMigrations ctx driver logger migrations w in
    rr_outcome r
    = match ctx w3 with
      | Some e => Return (Some e)
      | None => Panic "index out of range"
      end
    /\ rr_trace r
       = setupEvents logger v
           ++ EvCtxErr (ctx w3)
           :: match ctx w3 with
              | Some _ => [EvCtxErr (ctx w3)]
              | None => []
              end
           ++ [EvClose (fst (Close driver ctx w3))]
    /\ rr_world r = snd (Close driver ctx w3).
Proof.
  intros W sorter ctx driver logger migrations w w3 v
         (w1 & w2 & H1 & H2 & H3) Hv r.
  assert (HR : r = mkRunResult
                     match ctx w3 with
                     | Some e => Return (Some e)
                     | None => Panic "index out of range"
                     end
                     (sort_Slice migrations) (snd (Close driver ctx w3))
                     (setupEvents logger v
                        ++ EvCtxErr (ctx w3)
                        :: match ctx w3 with
                           | Some _ => [EvCtxErr (ctx w3)]
                           | None => []
                           end
                        ++ [EvClose (fst (Close driver ctx w3))])).
  { unfold r, RunMigrations, runConnected. rewrite H1, H2, H3.
    assert (Hlt : v < len (sort_Slice migrations)) by (unfold len; lia).
    rewrite (for_range_cons _ _ Hlt). cbn [applyLoop].
    unfold setupEvents.
    destruct (ctx w3) as [e|].
    - destruct (Close driver ctx w3) as [cerr w5]. cbn [fst snd]. trace_assoc.
    - unfold slice_index. destruct (v <? 0) eqn:E; [|apply Z.ltb_ge in E; lia].
      destruct (Close driver ctx w3) as [cerr w5]. cbn [fst snd]. trace_assoc. }
  rewrite HR. cbn [rr_outcome rr_trace rr_world]. repeat split.
Qed.

Lemma RunMigrations_negative_version_witness :
  rr_outcome (RunMigrations mockCtx
                (mkDriver (Connect mockDriver) (CreateMigrationsTable mockDriver)
                   (fun _ w => (-1, None, w))
                   (ApplyMigration mockDriver) (Close mockDriver))
                None [] (mockWorld []))
  = Panic "index out of range".
Proof.
  apply (RunMigrations_negative_version MockWorld insertionSorter mockCtx
           (mkDriver (Connect mockDriver) (CreateMigrationsTable mockDriver)
              (fun _ w => (-1, None, w))
              (ApplyMigration mockDriver) (Close mockDriver))
           None [] (mockWorld []) (mockWorld []) (-1)).
  - exists (mockWorld []), (mockWorld []). repeat split.
  - lia.
Defined.

(** ** RunMigrations and the ledger *)

Lemma currentVersion_app (a b : list Z) :
  currentVersion (a ++ b) = Z.max (currentVersion a) (currentVersion b).
Proof.
  induction a as [|x a IH]; cbn [app currentVersion fold_right].
  - destruct (currentVersion_bounds b) as [H _]. fold (currentVersion b). lia.
  - fold (currentVersion (a ++ b)) (currentVersion a). rewrite IH. lia.
Qed.

Lemma currentVersion_perm (a b : list Z) :
  Permutation a b -> currentVersion a = currentVersion b.
Proof.
  unfold currentVersion. induction 1; cbn [fold_right]; lia.
Qed.

Lemma currentVersion_In (rows : list Z) (x : Z) :
  In x rows -> x <= currentVersion rows.
Proof.
  intros H. destruct (currentVersion_bounds rows) as [_ Hb].
  exact (proj1 (Forall_forall _ _) Hb x H).
Qed.

(** In a sorted slice, the greatest version is in every non-empty tail. *)
Lemma currentVersion_sorted_tail (l : list Migration) (n : nat) :
  StronglySorted version_le l -> (n < List.length l)%nat ->
  currentVersion (map Version (skipn n l)) = currentVersion (map Version l).
Proof.
  intros Hs Hn.
  rewrite <- (firstn_skipn n l) at 2. rewrite map_app, currentVersion_app.
  destruct (skipn n l) as [|x rest] eqn:E.
  - exfalso. assert (List.length (skipn n l) = 0%nat) by now rewrite E.
    rewrite length_skipn in H. lia.
  - rewrite <- (firstn_skipn n l), E in Hs.
    pose proof (sorted_before _ _ _ Hs) as Hle.
    assert (B : currentVersion (map Version (firstn n l))
                <= currentVersion (map Version (x :: rest))).
    { destruct (currentVersion_bounds (map Version (x :: rest))) as [H0 _].
      assert (Hx : Version x <= currentVersion (map Version (x :: rest)))
        by (apply currentVersion_In; now left).
      remember (currentVersion (map Version (x :: rest))) as M.
      clear - Hle H0 Hx. induction Hle as [|d a Hd _ IH];
        cbn [map currentVersion fold_right]; [exact H0|].
      fold (currentVersion (map Version a)). unfold version_le in Hd. lia. }
    lia.
Qed.

(** Positive, pairwise distinct versions: the greatest of [n] of them is
    at least [n]. *)
Lemma currentVersion_at_least_len (l : list Migration) :
  StronglySorted version_le l ->
  NoDup (map Version l) -> Forall (fun x => 0 < x) (map Version l) ->
  len l <= currentVersion (map Version l).
Proof.
  intros Hs ND Hpos. unfold len.
  destruct (nth_error (map Version l) (List.length l - 1)) as [x|] eqn:E.
  - pose proof (sorted_distinct_above _ (versions_sorted _ Hs) ND 0 Hpos _ _ E).
    pose proof (currentVersion_In _ _ (nth_error_In _ _ E)).
    destruct l; cbn [List.length] in *; lia.
  - apply nth_error_None in E. rewrite length_map in E.
    destruct l; cbn [List.length] in *; [|lia].
    cbn. lia.
Qed.

Section LedgerAfterSuccess.

Context {W : Type} {sorter : SliceSorter}.
Variable ctx : Context W.
Variable driver : MigrationDriver W.
Variable logger : option stdoutLogger.
Variable ledger : W -> list Z.
Hypothesis contract : LedgerContract driver ledger.

Lemma RunMigrations_success_ledger (migrations : list Migration) (w : W) :
  rr_outcome (RunMigrations ctx driver logger migrations w) = Return None ->
  exists v,
    v = currentVersion (ledger w) /\ 0 <= v
    /\ applied (rr_trace (RunMigrations ctx driver logger migrations w))
       = skipn (Z.to_nat v) (sort_Slice migrations)
    /\ ledger (rr_world (RunMigrations ctx driver logger migrations w))
       = rev (map Version (skipn (Z.to_nat v) (sort_Slice migrations)))
           ++ ledger w.
Proof.
  intros Hok.
  destruct (RunMigrations_cases ctx driver logger migrations w)
    as [(v & w3 & Hs & Hv)|[Hbad _]]; [|now elim Hbad].
  destruct (applyPending ctx driver logger
              (skipn (Z.to_nat v) (sort_Slice migrations)) 0 w3)
    as [[f w4] evs] eqn:HL.
  pose proof (RunMigrations_after_setup ctx driver logger migrations w w3 v
                Hs Hv f w4 evs HL) as HR.
  destruct (run_trace_reading logger v evs f (fst (Close driver ctx w4)))
    as (_ & Hap & _).
  destruct (ledger_setup ctx driver ledger contract w w3 v Hs) as [Hl3 Hv'].
  rewrite HR in Hok |- *. cbn [rr_outcome rr_trace rr_world] in *.
  exists v. split; [exact Hv'|]. split; [exact Hv|].
  destruct f as [a|o].
  - destruct (applyPending_done ctx driver logger _ _ _ _ _ _ HL)
      as (_ & _ & Happ & _ & Ht).
    rewrite Hap, Happ. split; [reflexivity|].
    rewrite (lc_Close _ _ contract).
    rewrite (ledger_applied_through ctx driver ledger contract _ _ _ Ht).
    now rewrite Hl3.
  - cbn [flow_outcome] in Hok. subst o.
    destruct (applyPending_exit ctx driver logger _ _ _ _ _ _ HL)
      as (done & m & rest & w_mid & pre & _ & _ & _ & _ & _ & Hcase).
    destruct Hcase as [(e & _ & Ho & _)|(e & _ & _ & Ho & _)]; discriminate Ho.
Qed.

End LedgerAfterSuccess.

(** The version reported after the rows of a sorted tail were added. *)
Lemma ledger_version_after {sorter : SliceSorter} (migrations : list Migration)
  (rows : list Z) (v : Z) :
  NoDup (map Version migrations) ->
  Forall (fun x => 0 < Version x) migrations ->
  v = currentVersion rows ->
  let after :=
    rev (map Version (skipn (Z.to_nat v) (sort_Slice migrations))) ++ rows in
  len migrations <= currentVersion after
  /\ (v < len migrations ->
      currentVersion after = currentVersion (map Version migrations)).
Proof.
  intros Hnodup Hpos Hv after. subst after.
  destruct (currentVersion_bounds rows) as [H0 _].
  pose proof (sort_Slice_perm migrations) as Hperm.
  pose proof (sort_Slice_sorted migrations) as Hsorted.
  assert (ND : NoDup (map Version (sort_Slice migrations)))
    by (eapply Permutation_NoDup; [apply Permutation_map, Hperm | exact Hnodup]).
  assert (Hpos' : Forall (fun x => 0 < x) (map Version (sort_Slice migrations))).
  { apply Forall_map. eapply Permutation_Forall; [exact Hperm | exact Hpos]. }
  pose proof (currentVersion_at_least_len _ Hsorted ND Hpos') as Hlen.
  rewrite len_sort_Slice in Hlen.
  assert (HM : currentVersion (map Version (sort_Slice migrations))
               = currentVersion (map Version migrations)).
  { symmetry. apply currentVersion_perm, Permutation_map, Hperm. }
  rewrite currentVersion_app.
  rewrite <- (currentVersion_perm _ _ (Permutation_rev _)).
  destruct (Z_lt_ge_dec v (len migrations)) as [Hlt|Hge].
  - rewrite currentVersion_sorted_tail; [|exact Hsorted|].
    + rewrite HM in *. split; [lia|]. intros _. lia.
    + pose proof (len_sort_Slice migrations) as L. unfold len in *. lia.
  - rewrite skipn_len_nil by (rewrite len_sort_Slice; lia).
    cbn [map currentVersion fold_right]. split; lia.
Qed.

(** X10. With a driver that keeps the ledger contract, a run that
    returns nil leaves the ledger it found plus one row per migration it
    applied. If the versions of the slice are positive and pairwise
    distinct, the ledger then reports a version that is at least the
    number of migrations, and, when something was pending, exactly the
    greatest version of the slice. *)
Theorem RunMigrations_ledger_after_success :
  forall (W : Type) (sorter : SliceSorter) (ctx : Context W)
         (driver : MigrationDriver W) (logger : option stdoutLogger)
         (ledger : W -> list Z) (migrations : list Migration) (w : W),
    LedgerContract driver ledger ->
    let r := RunMigrations ctx driver logger migrations w in
    rr_outcome r = Return None ->
    ledger (rr_world r) = rev (map Version (applied (rr_trace r))) ++ ledger w
    /\ (NoDup (map Version migrations) ->
        Forall (fun x => 0 < Version x) migrations ->
        len migrations <= currentVersion (ledger (rr_world r))
        /\ (currentVersion (ledger w) < len migrations ->
            currentVersion (ledger (rr_world r))
            = currentVersion (map Version migrations))).
Proof.
  intros W sorter ctx driver logger ledger migrations w contract r Hok.
  destruct (RunMigrations_success_ledger ctx driver logger ledger contract
              migrations w Hok) as (v & Hv' & Hv & Happ & Hled).
  fold r in Happ, Hled. rewrite Happ. split; [exact Hled|].
  intros Hnodup Hpos. rewrite Hled, <- Hv'.
  exact (ledger_version_after migrations (ledger w) v Hnodup Hpos Hv').
Qed.

Lemma RunMigrations_ledger_after_success_witness :
  currentVersion
    (mw_ledger (rr_world (RunMigrations mockCtx mockDriver None
                            three_migrations (mockWorld [1]))))
  = 3.
Proof.
  destruct (RunMigrations_ledger_after_success MockWorld insertionSorter
              mockCtx mockDriver None mw_ledger three_migrations (mockWorld [1])
              mockDriver_contract eq_refl) as [_ H].
  destruct H as [_ H].
  - vm_compute. repeat constructor; cbn; intuition discriminate.
  - repeat constructor.
  - rewrite H; [reflexivity | vm_compute; reflexivity].
Defined.

(** X11. Running again after a success applies nothing: with a driver
    that keeps the ledger contract and a slice of positive, pairwise
    distinct versions, a RunMigrations call that starts in the world left
    by a call that returned nil, on the same migrations in any order,
    calls [ApplyMigration] zero times, and returns nil if its setup
    succeeds. *)
Theorem RunMigrations_rerun_applies_nothing :
  forall (W : Type) (sorter : SliceSorter) (ctx ctx' : Context W)
         (driver : MigrationDriver W) (logger logger' : option stdoutLogger)
         (ledger : W -> list Z) (migrations migrations' : list Migration) (w : W),
    LedgerContract driver ledger ->
    NoDup (map Version migrations) ->
    Forall (fun x => 0 < Version x) migrations ->
    Permutation migrations migrations' ->
    let r := RunMigrations ctx driver logger migrations w in
    rr_outcome r = Return None ->
    let r' := RunMigrations ctx' driver logger' migrations' (rr_world r) in
    attempted (rr_trace r') = []
    /\ ((exists v w3, setup_ok ctx' driver (rr_world r) v w3) ->
        rr_outcome r' = Return None).
Proof.
  intros W sorter ctx ctx' driver logger logger' ledger migrations migrations' w
         contract Hnodup Hpos Hperm r Hok r'.
  destruct (RunMigrations_success_ledger ctx driver logger ledger contract
              migrations w Hok) as (v0 & Hv0 & _ & _ & Hled).
  fold r in Hled.
  destruct (ledger_version_after migrations (ledger w) v0 Hnodup Hpos Hv0)
    as [Hlen _].
  rewrite <- Hled in Hlen.
  assert (Hrun : forall v w3, setup_ok ctx' driver (rr_world r) v w3 ->
             rr_outcome r' = Return None /\ attempted (rr_trace r') = []).
  { intros v w3 Hs.
    destruct (ledger_setup ctx' driver ledger contract _ _ _ Hs) as [_ Hv].
    destruct (currentVersion_bounds (ledger (rr_world r))) as [H0 _].
    assert (Hn : len (sort_Slice migrations') <= v).
    { rewrite len_sort_Slice. unfold len in *.
      rewrite <- (Permutation_length Hperm). lia. }
    pose proof (RunMigrations_after_setup ctx' driver logger' migrations'
                  (rr_world r) w3 v Hs ltac:(lia)) as HR.
    rewrite (skipn_len_nil _ _ Hn) in HR. specialize (HR _ _ _ eq_refl).
    fold r' in HR. rewrite HR. cbn [rr_outcome rr_trace flow_outcome].
    split; [reflexivity|].
    destruct (run_trace_reading logger' v [] (LoopDone 0)
                (fst (Close driver ctx' w3))) as (A & _).
    exact A. }
  split.
  - destruct (RunMigrations_cases ctx' driver logger' migrations' (rr_world r))
      as [(v & w3 & Hs & _)|[_ Hnone]]; [|exact Hnone].
    exact (proj2 (Hrun v w3 Hs)).
  - intros (v & w3 & Hs). exact (proj1 (Hrun v w3 Hs)).
Qed.

Lemma RunMigrations_rerun_applies_nothing_witness :
  attempted
    (rr_trace
       (RunMigrations mockCtx mockDriver None three_migrations
          (rr_world (RunMigrations mockCtx mockDriver None three_migrations
                       (mockWorld [])))))
  = [].
Proof.
  apply (RunMigrations_rerun_applies_nothing MockWorld insertionSorter
           mockCtx mockCtx mockDriver None None mw_ledger
           three_migrations three_migrations (mockWorld []) mockDriver_contract).
  - vm_compute. repeat constructor; cbn; intuition discriminate.
  - repeat constructor.
  - reflexivity.
  - reflexivity.
Defined.

(** ** The retry loop of executeMigration *)

Lemma for_range_length (lo hi : Z) :
  List.length (for_range lo hi) = Z.to_nat (hi - lo).
Proof. unfold for_range. now rewrite length_map, length_seq. Qed.






(** X13. A unit whose driver cannot be resolved, or whose migrations
    cannot be loaded, never calls RunMigrations: it logs that one error
    under the target's name and leaves the world untouched, without
    retrying and without sleeping. The load error is wrapped. *)
Theorem executeMigration_fails_fast :
  forall (W : Type) (sorter : SliceSorter) (env : Collaborators W)
         (ctx : Context W) (cfg : Config) (migrationCfg : migrationConfig) (w : W),
    let u := executeMigration env ctx cfg migrationCfg w in
    (getDriver env migrationCfg = None ->
     u = mkUnitResult [] false w
           [EvLogError (mc_Name migrationCfg)
              (errors_New "failed to resolve driver")])
    /\ (forall e,
           getDriver env migrationCfg <> None ->
           snd (LoadMigrationsFromDir (os_DirFS env) (mc_Source migrationCfg)
                  (Fixtures cfg)) = Some e ->
           u = mkUnitResult [] false w
                 [EvLogError (mc_Name migrationCfg)
                    (fmt_Errorf "failed to load migrations: " e)]).
Proof.
  intros W sorter env ctx cfg migrationCfg w. cbv zeta.
  unfold executeMigration. split.
  - intros ->. reflexivity.
  - intros e Hd Hl. destruct (getDriver env migrationCfg); [|now elim Hd].
    destruct (LoadMigrationsFromDir _ _ _) as [ms err]. cbn [snd] in Hl.
    now subst err.
Qed.

Lemma executeMigration_fails_fast_witness :
  ur_trace (executeMigration (mockEnv (fun _ => [])) mockCtx
              (mkConfig 3 0 30 false [])
              (mkMigrationConfig "main" "migrations"
                 (Some (mkPostgresConfig "postgres://db")))
              (mockWorld []))
  = [EvLogError "main"
       (fmt_Errorf "failed to load migrations: "
          (errors_New "no migrations found"))].
Proof.
  rewrite (proj2 (executeMigration_fails_fast MockWorld insertionSorter
                    (mockEnv (fun _ => [])) mockCtx
                    (mkConfig 3 0 30 false [])
                    (mkMigrationConfig "main" "migrations"
                       (Some (mkPostgresConfig "postgres://db")))
                    (mockWorld []))
             (errors_New "no migrations found")).
  - reflexivity.
  - discriminate.
  - reflexivity.
Defined.

(** ** Validation of the configuration *)

Lemma postgresConfig_validate_nil (p : postgresConfig) :
  postgresConfig_validate p = [] <-> DSN p <> "".
Proof.
  unfold postgresConfig_validate.
  destruct (String.eqb_spec (DSN p) "") as [E|E]; cbn; split; intros H;
    try discriminate; try congruence; auto.
Qed.

Lemma migrationConfig_validate_nil (m : migrationConfig) :
  migrationConfig_validate m = []
  <-> mc_Source m <> "" /\ exists p, mc_Postgres m = Some p /\ DSN p <> "".
Proof.
  unfold migrationConfig_validate.
  destruct (String.eqb_spec (mc_Source m) "") as [E|E];
    destruct (mc_Postgres m) as [p|]; cbn.
  - split; [intros H; destruct (postgresConfig_validate p); discriminate H
           | intros [H _]; congruence].
  - split; [discriminate | intros [H _]; congruence].
  - rewrite postgresConfig_validate_nil. split.
    + intros H. split; [exact E|]. now exists p.
    + intros (_ & q & Hq & Hd). now injection Hq as ->.
  - split; [discriminate | intros (_ & q & Hq & _); discriminate].
Qed.

(** The default name given to an unnamed target changes the text of the
    faults, not whether there are any. *)
Lemma migrationConfig_validate_renamed (m : migrationConfig) (name : string) :
  migrationConfig_validate
    (mkMigrationConfig name (mc_Source m) (mc_Postgres m)) = []
  <-> migrationConfig_validate m = [].
Proof. now rewrite !migrationConfig_validate_nil. Qed.

Lemma validate_targets_nil (targets : list migrationConfig) :
  forall i faults,
    validate_targets i targets faults = []
    <-> faults = []
        /\ Forall (fun m => migrationConfig_validate m = []) targets.
Proof.
  induction targets as [|m rest IH]; intros i faults; cbn [validate_targets].
  - split; [intros ->; auto | now intros [-> _]].
  - rewrite IH. split.
    + intros [H HF]. apply app_eq_nil in H as [-> H]. split; [reflexivity|].
      constructor; [|exact HF].
      destruct (String.eqb (mc_Name m) ""); [|exact H].
      now apply migrationConfig_validate_renamed in H.
    + intros [-> HF]. inversion HF as [|? ? H HF']; subst.
      split; [|exact HF']. cbn [app].
      destruct (String.eqb (mc_Name m) ""); [|exact H].
      now apply migrationConfig_validate_renamed.
Qed.

(** X14. validate reports no fault exactly when the timeout is
    positive, at least one target is configured, and every target has a
    source and a postgres section with a DSN. The name of a target,
    [MaxRetries], [RetryDelay] and [Fixtures] are not looked at. *)
Theorem Config_validate_accepts :
  forall c : Config,
    Config_validate c = []
    <-> 0 < Timeout c
        /\ Migrations c <> []
        /\ Forall (fun m => mc_Source m <> ""
                            /\ exists p, mc_Postgres m = Some p /\ DSN p <> "")
             (Migrations c).
Proof.
  intros c. unfold Config_validate. rewrite validate_targets_nil.
  assert (HF : Forall (fun m => migrationConfig_validate m = []) (Migrations c)
               <-> Forall (fun m => mc_Source m <> ""
                                    /\ exists p, mc_Postgres m = Some p
                                                 /\ DSN p <> "")
                     (Migrations c)).
  { split; apply Forall_impl; intros m; apply migrationConfig_validate_nil. }
  rewrite HF. unfold len.
  destruct (Z.leb_spec (Timeout c) 0) as [T|T];
    destruct (Migrations c) as [|m rest] eqn:M; cbn.
  - split; [intros [H _]; discriminate | intros [H _]; lia].
  - split; [intros [H _]; discriminate | intros [H _]; lia].
  - split; [intros [H _]; discriminate | intros (_ & H & _); congruence].
  - split; [intros [_ H] | intros (_ & _ & H)]; repeat split; auto; discriminate.
Qed.

Lemma Config_validate_accepts_witness :
  Config_validate
    (mkConfig 0 0 1 false
       [mkMigrationConfig "" "migrations" (Some (mkPostgresConfig "postgres://db"))])
  = [].
Proof.
  apply (proj2 (Config_validate_accepts
                  (mkConfig 0 0 1 false
                     [mkMigrationConfig "" "migrations"
                        (Some (mkPostgresConfig "postgres://db"))]))).
  split; [reflexivity|]. split; [discriminate|].
  constructor; [|constructor]. split; [discriminate|].
  exists (mkPostgresConfig "postgres://db"). split; [reflexivity | discriminate].
Defined.

(** X15. For a configuration that validate accepts, getDriver
    resolves a driver for every target, so no unit ends with "failed to
    resolve driver". As [MaxRetries] is not validated, an accepted
    configuration may hold a retry budget of zero or less: then every
    unit whose source loads makes no call at all, neither on the driver
    nor on the logger, and Execute still returns true. *)
Theorem Execute_accepted_config :
  forall (W : Type) (sorter : SliceSorter) (env : Collaborators W)
         (ctx : Context W) (cfg : Config) (w : W),
    Config_validate cfg = [] ->
    (forall m, In m (Migrations cfg) -> getDriver env m <> None)
    /\ (MaxRetries cfg <= 0 ->
        (forall m, In m (Migrations cfg) ->
                   snd (LoadMigrationsFromDir (os_DirFS env) (mc_Source m)
                          (Fixtures cfg)) = None) ->
        Execute env ctx cfg w
        = (Some true,
           map (fun _ => mkUnitResult [] false w []) (Migrations cfg))).
Proof.
  intros W sorter env ctx cfg w Hv.
  unfold Config_validate in Hv. apply validate_targets_nil in Hv as [_ HF].
  rewrite Forall_forall in HF.
  assert (HD : forall m, In m (Migrations cfg) -> getDriver env m <> None).
  { intros m Hin.
    destruct (proj1 (migrationConfig_validate_nil m) (HF m Hin))
      as (_ & p & Hp & _).
    unfold getDriver. rewrite Hp. discriminate. }
  split; [exact HD|].
  intros Hm Hload. unfold Execute.
  assert (E : map (fun migration => executeMigration env ctx cfg migration w)
                (Migrations cfg)
              = map (fun _ => mkUnitResult [] false w []) (Migrations cfg)).
  { apply map_ext_in. intros m Hin. unfold executeMigration.
    specialize (HD m Hin). specialize (Hload m Hin).
    destruct (getDriver env m) as [driver|]; [|now elim HD].
    destruct (LoadMigrationsFromDir (os_DirFS env) (mc_Source m) (Fixtures cfg))
      as [ms err]. cbn [snd] in Hload. subst err.
    now rewrite (for_range_nil 0 (MaxRetries cfg) Hm). }
  rewrite E.
  assert (P : forall targets : list migrationConfig,
             existsb ur_panicked
               (map (fun _ => mkUnitResult [] false w []) targets) = false).
  { intros targets. induction targets as [|m rest IH]; [reflexivity | exact IH]. }
  now rewrite P.
Qed.

Lemma Execute_accepted_config_witness :
  Execute (mockEnv (fun _ => [("1_a.sql", MemFile "A")])) mockCtx
    (mkConfig 0 0 1 false
       [mkMigrationConfig "" "migrations" (Some (mkPostgresConfig "postgres://db"))])
    (mockWorld [])
  = (Some true, [mkUnitResult [] false (mockWorld []) []]).
Proof.
  apply (proj2 (Execute_accepted_config MockWorld insertionSorter
                  (mockEnv (fun _ => [("1_a.sql", MemFile "A")])) mockCtx
                  (mkConfig 0 0 1 false
                     [mkMigrationConfig "" "migrations"
                        (Some (mkPostgresConfig "postgres://db"))])
                  (mockWorld []) eq_refl)).
  - cbn. lia.
  - intros m [<-|[]]. reflexivity.
Defined.

(** ** The postgres driver: what ApplyMigration returns *)

(** X16. ApplyMigration never looks at the error of the ledger
    insert: its result is overwritten by that of [tx.Commit]. Two
    sessions that agree on everything but the error value the insert
    returns give the same result and the same final state. *)
Theorem postgres_apply_ignores_insert_error :
  forall (C : Type) (pgx pgx' : PgxConn C) (migrationsTable : string)
         (ctx : Context C) (migration : Migration) (c : C),
    conn_Begin pgx = conn_Begin pgx' ->
    tx_Exec pgx = tx_Exec pgx' ->
    tx_Commit pgx = tx_Commit pgx' ->
    tx_Rollback pgx = tx_Rollback pgx' ->
    time_Now_Unix pgx = time_Now_Unix pgx' ->
    (forall ctx sql args c,
        snd (conn_Exec pgx ctx sql args c) = snd (conn_Exec pgx' ctx sql args c)) ->
    postgres_ApplyMigration pgx migrationsTable ctx migration c
    = postgres_ApplyMigration pgx' migrationsTable ctx migration c.
Proof.
  intros C pgx pgx' migrationsTable ctx migration c HB HE HC HR HT HX.
  unfold postgres_ApplyMigration. rewrite <- HB, <- HE, <- HC, <- HR, <- HT.
  destruct (conn_Begin pgx ctx c) as [[e|] c1]; [reflexivity|].
  destruct (tx_Exec pgx ctx (MigrationSQL migration) c1) as [[e|] c2];
    [reflexivity|].
  specialize (HX ctx (insertQuery migrationsTable)
                [ArgInt (Version migration); ArgString (Name migration);
                 ArgInt (time_Now_Unix pgx c2)] c2).
  destruct (conn_Exec pgx ctx _ _ c2) as [r3 c3].
  destruct (conn_Exec pgx' ctx _ _ c2) as [r3' c3'].
  cbn [snd] in HX. now subst c3'.
Qed.

Lemma postgres_apply_ignores_insert_error_witness :
  postgres_ApplyMigration memPgx "migrations" (fun _ => None)
    (mig 1 "again" "SELECT 1;") (mkMemDB [(1, "a")] None false)
  = postgres_ApplyMigration
      (mkPgxConn (conn_Begin memPgx)
         (fun ctx sql args c => (None, snd (conn_Exec memPgx ctx sql args c)))
         (tx_Exec memPgx) (tx_Commit memPgx) (tx_Rollback memPgx)
         (time_Now_Unix memPgx))
      "migrations" (fun _ => None)
      (mig 1 "again" "SELECT 1;") (mkMemDB [(1, "a")] None false).
Proof.
  apply (postgres_apply_ignores_insert_error MemDB memPgx
           (mkPgxConn (conn_Begin memPgx)
              (fun ctx sql args c => (None, snd (conn_Exec memPgx ctx sql args c)))
              (tx_Exec memPgx) (tx_Commit memPgx) (tx_Rollback memPgx)
              (time_Now_Unix memPgx))
           "migrations" (fun _ => None) (mig 1 "again" "SELECT 1;")
           (mkMemDB [(1, "a")] None false));
    reflexivity.
Defined.


(** ** The current version used as an index *)

Lemma Permutation_filter_length {A : Type} (p : A -> bool) (a b : list A) :
  Permutation a b -> List.length (filter p a) = List.length (filter p b).
Proof.
  induction 1 as [|x a b _ IH|x y a|a b c _ IH1 _ IH2]; cbn [filter].
  - reflexivity.
  - destruct (p x); cbn [List.length]; now rewrite IH.
  - destruct (p x), (p y); reflexivity.
  - now rewrite IH1.
Qed.

Lemma filter_none {A : Type} (p : A -> bool) (l : list A) :
  Forall (fun x => p x = false) l -> filter p l = [].
Proof.
  induction 1 as [|x l Hx _ IH]; cbn [filter]; [reflexivity|].
  now rewrite Hx.
Qed.

Lemma filter_all {A : Type} (p : A -> bool) (l : list A) :
  Forall (fun x => p x = true) l -> filter p l = l.
Proof.
  induction 1 as [|x l Hx _ IH]; cbn [filter]; [reflexivity|].
  now rewrite Hx, IH.
Qed.

(** In a slice sorted by version, the migrations up to version [v] come
    first and those above it follow. *)
Lemma sorted_split_at_version (l : list Migration) (v : Z) :
  StronglySorted version_le l ->
  l = filter (fun m => Version m <=? v) l ++ filter (fun m => v <? Version m) l.
Proof.
  induction 1 as [|a l Hs IH Ha]; [reflexivity|]. cbn [filter].
  destruct (Z.leb_spec (Version a) v) as [L|L];
    destruct (Z.ltb_spec v (Version a)) as [G|G]; try lia.
  - cbn [app]. now rewrite <- IH.
  - rewrite (filter_none (fun m => Version m <=? v) l).
    + cbn [app]. f_equal. symmetry. apply filter_all.
      eapply Forall_impl; [|exact Ha]. unfold version_le. intros b Hb.
      apply Z.ltb_lt. lia.
    + eapply Forall_impl; [|exact Ha]. unfold version_le. intros b Hb.
      apply Z.leb_gt. lia.
Qed.

(** Skipping [k] elements of [a ++ b] leaves [b] exactly when [a] holds
    [k] elements, or holds everything and [k] is beyond the end. *)
Lemma skipn_app_is_tail {A : Type} (a b : list A) (k : nat) :
  skipn k (a ++ b) = b
  <-> List.length a = Nat.min k (List.length (a ++ b)).
Proof.
  split.
  - intros H. apply (f_equal (@List.length A)) in H.
    rewrite length_skipn, length_app in H. rewrite length_app. lia.
  - rewrite length_app. intros H.
    destruct (Nat.le_gt_cases k (List.length a + List.length b)) as [L|G].
    + assert (k = List.length a) as -> by lia.
      rewrite skipn_app, skipn_all, Nat.sub_diag. reflexivity.
    + assert (Hb : List.length b = 0%nat) by lia.
      apply length_zero_iff_nil in Hb. subst b.
      apply skipn_all2. rewrite length_app. cbn [List.length]. lia.
Qed.

(** X17. RunMigrations takes the version the ledger reports as an
    index into the sorted slice. A call that returns nil has applied
    exactly the migrations whose version is above the reported version
    [v] if and only if the number of migrations with a version up to [v]
    is [v] itself, or is the whole slice when [v] is at least its
    length. Otherwise what it applied differs from the migrations newer
    than the ledger. *)
Theorem RunMigrations_applies_newer_versions_iff :
  forall (W : Type) (sorter : SliceSorter) (ctx : Context W)
         (driver : MigrationDriver W) (logger : option stdoutLogger)
         (migrations : list Migration) (w w3 : W) (v : Z),
    setup_ok ctx driver w v w3 -> 0 <= v ->
    let r := RunMigrations ctx driver logger migrations w in
    rr_outcome r = Return None ->
    (applied (rr_trace r)
     = filter (fun m => v <? Version m) (sort_Slice migrations)
     <-> len (filter (fun m => Version m <=? v) migrations)
         = Z.min v (len migrations)).
Proof.
  intros W sorter ctx driver logger migrations w w3 v Hs Hv r Hok.
  destruct (applyPending ctx driver logger
              (skipn (Z.to_nat v) (sort_Slice migrations)) 0 w3)
    as [[f w4] evs] eqn:HL.
  pose proof (RunMigrations_after_setup ctx driver logger migrations w w3 v
                Hs Hv f w4 evs HL) as HR.
  fold r in HR.
  destruct (run_trace_reading logger v evs f (fst (Close driver ctx w4)))
    as (_ & Hap & _).
  rewrite HR in Hok |- *. cbn [rr_outcome rr_trace] in *. rewrite Hap.
  destruct f as [a|o].
  2:{ cbn [flow_outcome] in Hok. subst o.
      destruct (applyPending_exit ctx driver logger _ _ _ _ _ _ HL)
        as (done & m & rest & w_mid & pre & _ & _ & _ & _ & _ & Hcase).
      destruct Hcase as [(e & _ & Ho & _)|(e & _ & _ & Ho & _)]; discriminate Ho. }
  destruct (applyPending_done ctx driver logger _ _ _ _ _ _ HL)
    as (_ & _ & -> & _).
  pose proof (sorted_split_at_version (sort_Slice migrations) v
                (sort_Slice_sorted migrations)) as Hsplit.
  pose proof (Permutation_filter_length (fun m => Version m <=? v) _ _
                (sort_Slice_perm migrations)) as Hcount.
  pose proof (Permutation_length (sort_Slice_perm migrations)) as Hlen.
  pose proof (skipn_app_is_tail
                (filter (fun m => Version m <=? v) (sort_Slice migrations))
                (filter (fun m => v <? Version m) (sort_Slice migrations))
                (Z.to_nat v)) as Hiff.
  rewrite <- Hsplit in Hiff. rewrite Hiff. unfold len.
  rewrite <- Hcount, <- Hlen. lia.
Qed.

Lemma RunMigrations_applies_newer_versions_iff_witness :
  applied (rr_trace (RunMigrations mockCtx mockDriver None three_migrations
                       (mockWorld [1])))
  = filter (fun m => 1 <? Version m) (insertionSort three_migrations).
Proof.
  apply (proj2 (RunMigrations_applies_newer_versions_iff MockWorld
                  insertionSorter mockCtx mockDriver None three_migrations
                  (mockWorld [1]) (mockWorld [1]) 1
                  (ex_intro _ (mockWorld [1])
                     (ex_intro _ (mockWorld [1])
                        (conj eq_refl (conj eq_refl eq_refl))))
                  ltac:(lia) eq_refl)).
  reflexivity.
Defined.

(** ** The logger *)

Section LoggerFacts.

Context {W : Type} {sorter : SliceSorter}.
Variable ctx : Context W.
Variable driver : MigrationDriver W.

Lemma filter_logs_nil (tr : list Event) :
  forallb is_log tr = true -> filter (fun e => negb (is_log e)) tr = [].
Proof.
  induction tr as [|e tr IH]; cbn [forallb filter]; [reflexivity|].
  intros H. apply andb_true_iff in H as [He H]. rewrite He. cbn [negb]. auto.
Qed.

Lemma applyLoop_logger (l1 l2 : option stdoutLogger)
  (migrations : list Migration) (idxs : list Z) :
  forall a w,
    fst (applyLoop ctx driver l1 migrations idxs a w)
    = fst (applyLoop ctx driver l2 migrations idxs a w)
    /\ filter (fun e => negb (is_log e))
         (snd (applyLoop ctx driver l1 migrations idxs a w))
       = filter (fun e => negb (is_log e))
           (snd (applyLoop ctx driver l2 migrations idxs a w)).
Proof.
  induction idxs as [|i rest IH]; intros a w; cbn [applyLoop];
    [split; reflexivity|].
  destruct (ctx w); [split; reflexivity|].
  destruct (slice_index migrations i) as [m|]; [|split; reflexivity].
  destruct (ApplyMigration driver ctx m w) as [[e|] w1].
  - cbn [fst snd]. split; [reflexivity|]. cbn [filter is_log negb].
    rewrite !filter_app. cbn [filter is_log negb].
    now rewrite !(filter_logs_nil _ (logInfo_is_log _ _)),
                !(filter_logs_nil _ (logError_is_log _ _)).
  - destruct (IH (a + 1) w1) as [I1 I2].
    destruct (applyLoop ctx driver l1 migrations rest (a + 1) w1) as [[f1 w2] e1].
    destruct (applyLoop ctx driver l2 migrations rest (a + 1) w1) as [[f2 w2'] e2].
    cbn [fst snd] in *. injection I1 as -> ->. split; [reflexivity|].
    cbn [filter is_log negb]. rewrite !filter_app. cbn [filter is_log negb].
    now rewrite !(filter_logs_nil _ (logInfo_is_log _ _)), I2.
Qed.

End LoggerFacts.

(** X18. The logger does not steer RunMigrations: with any two
    loggers, or none, the call returns the same result, leaves the same
    slice and the same world, and makes the same calls on the context and
    the driver in the same order. Without a logger no log call is made. *)
Theorem RunMigrations_logger_irrelevant :
  forall (W : Type) (sorter : SliceSorter) (ctx : Context W)
         (driver : MigrationDriver W) (l1 l2 : option stdoutLogger)
         (migrations : list Migration) (w : W),
    let r1 := RunMigrations ctx driver l1 migrations w in
    let r2 := RunMigrations ctx driver l2 migrations w in
    rr_outcome r1 = rr_outcome r2
    /\ rr_migrations r1 = rr_migrations r2
    /\ rr_world r1 = rr_world r2
    /\ filter (fun e => negb (is_log e)) (rr_trace r1)
       = filter (fun e => negb (is_log e)) (rr_trace r2)
    /\ filter is_log (rr_trace (RunMigrations ctx driver None migrations w)) = [].
Proof.
  intros W sorter ctx driver l1 l2 migrations w. cbv zeta.
  assert (HN : forall tr, forallb is_log tr = true ->
                          filter (fun e => negb (is_log e)) tr = [])
    by apply filter_logs_nil.
  split; [|split; [|split; [|split]]].
  5:{ unfold RunMigrations, runConnected.
      destruct (Connect driver ctx w) as [[e|] w1]; [reflexivity|].
      destruct (CreateMigrationsTable driver ctx w1) as [[e|] w2].
      { now destruct (Close driver ctx w2). }
      destruct (GetCurrentVersion driver ctx w2) as [[v [e|]] w3].
      { now destruct (Close driver ctx w3). }
      assert (HL : forall idxs a w0,
                 filter is_log
                   (snd (applyLoop ctx driver None (sort_Slice migrations)
                           idxs a w0)) = []).
      { induction idxs as [|i rest IH]; intros a w0; cbn [applyLoop];
          [reflexivity|].
        destruct (ctx w0); [reflexivity|].
        destruct (slice_index (sort_Slice migrations) i) as [m|]; [|reflexivity].
        destruct (ApplyMigration driver ctx m w0) as [[e|] w1']; [reflexivity|].
        specialize (IH (a + 1) w1').
        destruct (applyLoop ctx driver None (sort_Slice migrations) rest
                    (a + 1) w1') as [[f w2'] evs].
        cbn [snd] in *. cbn [logInfo app filter is_log]. exact IH. }
      specialize (HL (for_range v (len (sort_Slice migrations))) 0 w3).
      destruct (applyLoop ctx driver None (sort_Slice migrations)
                  (for_range v (len (sort_Slice migrations))) 0 w3)
        as [[f w4] evs].
      cbn [snd] in HL.
      destruct f as [a|o]; destruct (Close driver ctx w4) as [cerr w5];
        cbn [rr_trace logInfo app filter is_log];
        rewrite ?filter_app, HL; reflexivity. }
  all: unfold RunMigrations, runConnected.
  all: destruct (Connect driver ctx w) as [[e|] w1];
    [cbn [rr_outcome rr_migrations rr_world rr_trace filter is_log negb];
     rewrite ?(HN _ (logError_is_log _ _)); reflexivity|].
  all: destruct (CreateMigrationsTable driver ctx w1) as [[e|] w2];
    [destruct (Close driver ctx w2) as [cerr w5];
     cbn [rr_outcome rr_migrations rr_world rr_trace filter is_log negb app];
     rewrite ?filter_app, ?(HN _ (logError_is_log _ _)); reflexivity|].
  all: destruct (GetCurrentVersion driver ctx w2) as [[v [e|]] w3];
    [destruct (Close driver ctx w3) as [cerr w5];
     cbn [rr_outcome rr_migrations rr_world rr_trace filter is_log negb app];
     rewrite ?filter_app, ?(HN _ (logError_is_log _ _)); reflexivity|].
  all: destruct (applyLoop_logger ctx driver l1 l2 (sort_Slice migrations)
                   (for_range v (len (sort_Slice migrations))) 0 w3) as [I1 I2].
  all: destruct (applyLoop ctx driver l1 (sort_Slice migrations)
                   (for_range v (len (sort_Slice migrations))) 0 w3)
         as [[f1 w4] e1].
  all: destruct (applyLoop ctx driver l2 (sort_Slice migrations)
                   (for_range v (len (sort_Slice migrations))) 0 w3)
         as [[f2 w4'] e2].
  all: cbn [fst snd] in I1, I2; injection I1 as -> ->.
  all: destruct f2 as [a|o]; destruct (Close driver ctx w4') as [cerr w5].
  all: cbn [rr_outcome rr_migrations rr_world rr_trace filter is_log negb app];
    try reflexivity.
  all: rewrite ?filter_app, ?(HN _ (logInfo_is_log _ _)), I2;
    cbn [filter is_log negb app]; reflexivity.
Qed.

(** ** Retries and the ledger *)

Lemma for_range_In (lo hi x : Z) : In x (for_range lo hi) -> lo <= x < hi.
Proof.
  unfold for_range. intros H. apply in_map_iff in H as (k & <- & Hk).
  apply in_seq in Hk. lia.
Qed.

Lemma for_range_sorted (lo hi : Z) : StronglySorted Z.le (for_range lo hi).
Proof.
  remember (Z.to_nat (hi - lo)) as n eqn:Hn. revert lo Hn.
  induction n as [|n IH]; intros lo Hn.
  - rewrite for_range_nil by lia. constructor.
  - rewrite for_range_cons by lia. constructor; [apply IH; lia|].
    apply Forall_forall. intros x Hx. apply for_range_In in Hx. lia.
Qed.

Lemma for_range_prefix (p rest : list Z) :
  forall lo hi,
    for_range lo hi = p ++ rest ->
    p = for_range lo (lo + len p) /\ rest = for_range (lo + len p) hi.
Proof.
  unfold len. induction p as [|x p IH]; intros lo hi H; cbn [app List.length] in *.
  - rewrite Z.add_0_r. rewrite for_range_nil by lia. auto.
  - destruct (Z.lt_ge_cases lo hi) as [L|G].
    2:{ rewrite for_range_nil in H by lia. discriminate. }
    rewrite for_range_cons in H by exact L. injection H as <- H.
    destruct (IH _ _ H) as [Hp Hr].
    rewrite (for_range_cons lo) by lia.
    replace (lo + Z.of_nat (S (List.length p)))
      with (lo + 1 + Z.of_nat (List.length p)) by lia.
    split; [now rewrite <- Hp | exact Hr].
Qed.

Lemma for_range_app (lo mid hi : Z) :
  lo <= mid <= hi -> (for_range lo mid ++ for_range mid hi)%list = for_range lo hi.
Proof.
  intros H. remember (Z.to_nat (mid - lo)) as n eqn:Hn. revert lo H Hn.
  induction n as [|n IH]; intros lo H Hn.
  - assert (mid = lo) as -> by lia. now rewrite for_range_nil by lia.
  - rewrite (for_range_cons lo mid), (for_range_cons lo hi) by lia.
    cbn [app]. f_equal. apply IH; lia.
Qed.

Lemma skipn_for_range (k : nat) :
  forall lo hi, skipn k (for_range lo hi) = for_range (lo + Z.of_nat k) hi.
Proof.
  induction k as [|k IH]; intros lo hi.
  - now rewrite Z.add_0_r.
  - destruct (Z.lt_ge_cases lo hi) as [L|G].
    + rewrite for_range_cons by exact L. cbn [skipn]. rewrite IH. f_equal. lia.
    + rewrite !for_range_nil by lia. reflexivity.
Qed.

(** The ledger version after rows [v+1 .. v+j] are added to a ledger at
    version [v]. *)
Lemma currentVersion_extended (rows : list Z) (j : nat) :
  forall v,
    0 <= v -> currentVersion rows = v ->
    currentVersion (rev (for_range (v + 1) (v + 1 + Z.of_nat j)) ++ rows)
    = v + Z.of_nat j.
Proof.
  intros v Hv Hrows. rewrite currentVersion_app, Hrows.
  rewrite (currentVersion_perm _ _ (Permutation_sym (Permutation_rev _))).
  clear Hrows rows. revert v Hv.
  induction j as [|j IH]; intros v Hv.
  - rewrite for_range_nil by lia. cbn. lia.
  - rewrite for_range_cons by lia.
    change (currentVersion (v + 1 :: for_range (v + 1 + 1) (v + 1 + Z.of_nat (S j))))
      with (Z.max (v + 1)
              (currentVersion (for_range (v + 1 + 1) (v + 1 + Z.of_nat (S j))))).
    specialize (IH (v + 1) ltac:(lia)).
    replace (v + 1 + Z.of_nat (S j)) with (v + 1 + 1 + Z.of_nat j) by lia.
    lia.
Qed.

(** Two lists in ascending order with the same elements are equal. *)
Lemma sorted_perm_unique (a : list Z) :
  forall b, StronglySorted Z.le a -> StronglySorted Z.le b ->
            Permutation a b -> a = b.
Proof.
  induction a as [|x a IH]; intros b Ha Hb P.
  - now apply Permutation_nil in P.
  - destruct b as [|y b].
    { apply Permutation_sym, Permutation_nil in P. discriminate. }
    apply StronglySorted_inv in Ha as [Ha Hx].
    apply StronglySorted_inv in Hb as [Hb Hy].
    rewrite Forall_forall in Hx, Hy.
    assert (Hxy : x = y).
    { assert (In x (y :: b)) as [->|I1]
        by (apply (Permutation_in _ P); now left); [reflexivity|].
      assert (In y (x :: a)) as [->|I2]
        by (apply (Permutation_in _ (Permutation_sym P)); now left);
        [reflexivity|].
      specialize (Hx _ I2). specialize (Hy _ I1). lia. }
    subst y. f_equal. apply IH; auto. now apply Permutation_cons_inv in P.
Qed.

(** When the versions of a slice are 1 .. n, the sorted slice carries
    version [i + 1] at index [i]. *)
Lemma consecutive_sorted {sorter : SliceSorter} (ms : list Migration) :
  Permutation (map Version ms) (for_range 1 (len ms + 1)) ->
  map Version (sort_Slice ms) = for_range 1 (len ms + 1).
Proof.
  intros P. apply sorted_perm_unique.
  - apply versions_sorted, sort_Slice_sorted.
  - apply for_range_sorted.
  - eapply Permutation_trans; [|exact P].
    apply Permutation_map, Permutation_sym, sort_Slice_perm.
Qed.

Section LedgerProgress.

Context {W : Type} {sorter : SliceSorter}.
Variable ctx : Context W.
Variable driver : MigrationDriver W.
Variable ledger : W -> list Z.
Hypothesis contract : LedgerContract driver ledger.

(** Whatever its outcome, a run applies a prefix of the migrations from
    the index the ledger reports, and adds their rows and no other. *)
Lemma RunMigrations_ledger_progress (logger : option stdoutLogger)
  (migrations : list Migration) (w : W) :
  exists rest,
    skipn (Z.to_nat (currentVersion (ledger w))) (sort_Slice migrations)
    = applied (rr_trace (RunMigrations ctx driver logger migrations w)) ++ rest
    /\ ledger (rr_world (RunMigrations ctx driver logger migrations w))
       = rev (map Version
                (applied (rr_trace (RunMigrations ctx driver logger migrations w))))
           ++ ledger w
    /\ (rr_outcome (RunMigrations ctx driver logger migrations w) = Return None ->
        rest = []).
Proof.
  pose proof (fun e => proj1 (proj2 (logs_silent _ (logError_is_log logger e))))
    as LE.
  pose proof (lc_Connect _ _ contract ctx w) as L1.
  destruct (Connect driver ctx w) as [[e|] w1] eqn:HC; cbn [snd] in L1.
  { unfold RunMigrations. rewrite HC. cbn [rr_trace rr_world rr_outcome applied].
    rewrite LE. cbn [app map rev]. eexists. repeat split; auto; discriminate. }
  pose proof (lc_CreateMigrationsTable _ _ contract ctx w1) as L2.
  destruct (CreateMigrationsTable driver ctx w1) as [[e|] w2] eqn:HT;
    cbn [snd] in L2.
  { unfold RunMigrations, runConnected. rewrite HC, HT.
    pose proof (lc_Close _ _ contract ctx w2) as L5.
    destruct (Close driver ctx w2) as [cerr w5]. cbn [snd] in L5.
    cbn [rr_trace rr_world rr_outcome applied app].
    rewrite applied_app, LE. cbn [applied app map rev].
    eexists. repeat split; [congruence | discriminate]. }
  pose proof (lc_GetCurrentVersion _ _ contract ctx w2) as L3.
  destruct (GetCurrentVersion driver ctx w2) as [[v [e|]] w3] eqn:HG;
    cbn [snd] in L3.
  { unfold RunMigrations, runConnected. rewrite HC, HT, HG.
    pose proof (lc_Close _ _ contract ctx w3) as L5.
    destruct (Close driver ctx w3) as [cerr w5]. cbn [snd] in L5.
    cbn [rr_trace rr_world rr_outcome applied app].
    rewrite applied_app, LE. cbn [applied app map rev].
    eexists. repeat split; [congruence | discriminate]. }
  assert (Hs : setup_ok ctx driver w v w3) by (exists w1, w2; auto).
  destruct (ledger_setup ctx driver ledger contract w w3 v Hs) as [Hl3 Hv].
  assert (Hv0 : 0 <= v)
    by (rewrite Hv; apply currentVersion_bounds).
  rewrite <- Hv.
  destruct (applyPending ctx driver logger
              (skipn (Z.to_nat v) (sort_Slice migrations)) 0 w3)
    as [[f w4] evs] eqn:HL.
  rewrite (RunMigrations_after_setup ctx driver logger migrations w w3 v
             Hs Hv0 f w4 evs HL).
  destruct (run_trace_reading logger v evs f (fst (Close driver ctx w4)))
    as (_ & Hap & _).
  cbn [rr_outcome rr_trace rr_world]. rewrite Hap.
  rewrite (lc_Close _ _ contract).
  destruct f as [a|o].
  - destruct (applyPending_done ctx driver logger _ _ _ _ _ _ HL)
      as (_ & _ & Happ & _ & Ht).
    exists []. rewrite Happ, app_nil_r.
    rewrite (ledger_applied_through ctx driver ledger contract _ _ _ Ht), Hl3.
    auto.
  - destruct (applyPending_exit ctx driver logger _ _ _ _ _ _ HL)
      as (done & m & rest & w_mid & pre & Hp & Ht & _ & Hpre & _ & Hcase).
    pose proof (ledger_applied_through ctx driver ledger contract _ _ _ Ht) as Hm.
    exists (m :: rest). rewrite Hp.
    destruct Hcase as [(e & _ & Ho & -> & ->)|(e & _ & HA & Ho & ->)].
    + rewrite applied_app, Hpre. cbn [applied]. rewrite app_nil_r.
      rewrite Hm, Hl3. cbn [flow_outcome]. subst o.
      repeat split; auto; discriminate.
    + rewrite applied_app, Hpre. cbn [applied]. rewrite LE, app_nil_r.
      rewrite (lc_apply_fail _ _ contract _ _ _ _ _ HA), Hm, Hl3.
      cbn [flow_outcome]. subst o. repeat split; auto; discriminate.
Qed.

Variable env : Collaborators W.
Variable cfg : Config.
Variable migrationCfg : migrationConfig.
Hypothesis sleep_keeps_ledger : forall d w, ledger (time_Sleep env d w) = ledger w.

Lemma retryLoop_progress (idxs : list Z) :
  forall migrations w,
    Permutation (map Version migrations) (for_range 1 (len migrations + 1)) ->
    exists j,
      0 <= j
      /\ map Version
           (flat_map (fun a => applied (rr_trace (at_result a)))
              (retry_attempts
                 (retryLoop env ctx cfg migrationCfg driver idxs migrations w)))
         = for_range (currentVersion (ledger w) + 1)
             (currentVersion (ledger w) + 1 + j)
      /\ currentVersion
           (ledger (snd (fst (retryLoop env ctx cfg migrationCfg driver idxs
                                migrations w))))
         = currentVersion (ledger w) + j
      /\ currentVersion (ledger w) + j
         <= Z.max (currentVersion (ledger w)) (len migrations)
      /\ (existsb attempt_succeeded
            (retry_attempts
               (retryLoop env ctx cfg migrationCfg driver idxs migrations w))
          = true ->
          currentVersion (ledger w) + j
          = Z.max (currentVersion (ledger w)) (len migrations)).
Proof.
  induction idxs as [|i rest IH]; intros migrations w P; cbn [retryLoop].
  - exists 0. unfold retry_attempts. cbn [fst snd flat_map map existsb].
    rewrite for_range_nil by lia.
    repeat split; try lia; discriminate.
  - set (lg := Some (mkLogger (mc_Name migrationCfg ++ " (attempt "
                                 ++ itoa (i + 1) ++ ")"))).
    destruct (RunMigrations_ledger_progress lg migrations w)
      as (tail & Hskip & Hled & Hdone).
    pose proof (RunMigrations_sorts ctx driver lg migrations w) as Hsort.
    pose proof (proj1 (currentVersion_bounds (ledger w))) as Hv0.
    set (r := RunMigrations ctx driver lg migrations w) in *.
    set (v0 := currentVersion (ledger w)) in *.
    (* the versions the attempt applied *)
    pose proof (f_equal (map Version) Hskip) as Hver.
    rewrite <- skipn_map, (consecutive_sorted migrations P), skipn_for_range,
      map_app, Z2Nat.id in Hver by exact Hv0.
    destruct (for_range_prefix _ _ _ _ Hver) as [Hap Htail].
    pose proof (f_equal (@List.length Z) Hver) as Hlen.
    rewrite for_range_length, length_app in Hlen.
    unfold len in Hap, Htail. rewrite length_map in Hap, Htail.
    rewrite !length_map in Hlen.
    set (j1 := List.length (applied (rr_trace r))) in *.
    assert (Hbound : v0 + Z.of_nat j1 <= Z.max v0 (len migrations))
      by (unfold len in *; lia).
    assert (Hcv : currentVersion (ledger (rr_world r)) = v0 + Z.of_nat j1).
    { rewrite Hled, Hap.
      replace (1 + v0) with (v0 + 1) by lia.
      now apply currentVersion_extended. }
    assert (Hfull : rr_outcome r = Return None ->
                    v0 + Z.of_nat j1 = Z.max v0 (len migrations)).
    { intros Hok. specialize (Hdone Hok). subst tail.
      cbn [List.length] in Hlen. unfold len in *. lia. }
    replace (1 + v0) with (v0 + 1) in Hap by lia.
    destruct (rr_outcome r) as [[e|]|msg] eqn:Ho.
    + assert (P' : Permutation (map Version (rr_migrations r))
                     (for_range 1 (len (rr_migrations r) + 1))).
      { rewrite Hsort, len_sort_Slice.
        eapply Permutation_trans; [|exact P].
        apply Permutation_map, Permutation_sym, sort_Slice_perm. }
      destruct (IH (rr_migrations r)
                  (time_Sleep env (RetryDelay cfg) (rr_world r)) P')
        as (j2 & Hj2 & Hap2 & Hcv2 & Hb2 & Hfull2).
      rewrite sleep_keeps_ledger, Hcv in Hap2, Hcv2, Hb2, Hfull2.
      assert (Hn : len (rr_migrations r) = len migrations)
        by (rewrite Hsort; apply len_sort_Slice).
      rewrite Hn in Hb2, Hfull2.
      destruct (retryLoop env ctx cfg migrationCfg driver rest _ _)
        as [[[atts p] w2] evs].
      unfold retry_attempts in *. cbn [fst snd] in *.
      exists (Z.of_nat j1 + j2).
      cbn [flat_map at_result existsb]. rewrite map_app, Hap, Hap2.
      unfold attempt_succeeded at 1. cbn [at_result]. rewrite Ho. cbn [orb].
      split; [lia|]. split.
      { replace (v0 + 1 + (Z.of_nat j1 + j2))
          with (v0 + Z.of_nat j1 + 1 + j2) by lia.
        replace (v0 + 1 + Z.of_nat j1) with (v0 + Z.of_nat j1 + 1) by lia.
        apply for_range_app. lia. }
      split; [lia|]. split; [lia|].
      intros Hok. specialize (Hfull2 Hok). lia.
    + unfold retry_attempts. cbn [fst snd flat_map at_result existsb].
      exists (Z.of_nat j1). rewrite app_nil_r. specialize (Hfull eq_refl).
      repeat split; auto; lia.
    + unfold retry_attempts. cbn [fst snd flat_map at_result existsb].
      exists (Z.of_nat j1). rewrite app_nil_r.
      unfold attempt_succeeded. cbn [at_result]. rewrite Ho. cbn [orb].
      repeat split; auto; try lia; discriminate.
Qed.

End LedgerProgress.

(** X19. Retries resume where the ledger stands. When the loaded
    versions are 1 .. n, the driver keeps the ledger contract and
    sleeping leaves the ledger alone, the migrations applied by all the
    attempts of a unit, taken together and in order, are those of
    versions [v0 + 1, v0 + 2, ...] without gap or repetition, [v0] being
    the version of the ledger the unit found; the ledger ends at the
    last of them. If an attempt of the unit returned nil, they reach
    version n: every migration above [v0] was applied exactly once. *)
Theorem executeMigration_retries_resume :
  forall (W : Type) (sorter : SliceSorter) (env : Collaborators W)
         (ctx : Context W) (cfg : Config) (migrationCfg : migrationConfig)
         (ledger : W -> list Z) (driver : MigrationDriver W)
         (migrations : list Migration) (w : W),
    getDriver env migrationCfg = Some driver ->
    LedgerContract driver ledger ->
    (forall d w, ledger (time_Sleep env d w) = ledger w) ->
    LoadMigrationsFromDir (os_DirFS env) (mc_Source migrationCfg) (Fixtures cfg)
    = (migrations, None) ->
    Permutation (map Version migrations) (for_range 1 (len migrations + 1)) ->
    let u := executeMigration env ctx cfg migrationCfg w in
    let v0 := currentVersion (ledger w) in
    exists j,
      0 <= j
      /\ map Version
           (flat_map (fun a => applied (rr_trace (at_result a))) (ur_attempts u))
         = for_range (v0 + 1) (v0 + 1 + j)
      /\ currentVersion (ledger (ur_world u)) = v0 + j
      /\ v0 + j <= Z.max v0 (len migrations)
      /\ (unit_succeeded u = true -> v0 + j = Z.max v0 (len migrations)).
Proof.
  intros W sorter env ctx cfg migrationCfg ledger driver migrations w
         Hd contract Hsleep Hload P u v0.
  destruct (retryLoop_progress (context_WithTimeout env ctx (Timeout cfg) w)
              driver ledger contract env cfg migrationCfg Hsleep
              (for_range 0 (MaxRetries cfg)) migrations w P)
    as (j & Hj & Hap & Hcv & Hb & Hfull).
  exists j. subst u. unfold executeMigration, unit_succeeded.
  rewrite Hd, Hload.
  destruct (retryLoop env (context_WithTimeout env ctx (Timeout cfg) w) cfg
              migrationCfg driver (for_range 0 (MaxRetries cfg)) migrations w)
    as [[[atts p] w1] evs].
  unfold retry_attempts in *. cbn [fst snd ur_attempts ur_world] in *.
  auto.
Qed.

Lemma executeMigration_retries_resume_witness :
  map Version
    (flat_map (fun a => applied (rr_trace (at_result a)))
       (ur_attempts
          (executeMigration
             (mockEnv (fun _ => [("2_b.sql", MemFile "B"); ("1_a.sql", MemFile "A");
                                 ("3_c.sql", MemFile "FAIL")]))
             mockCtx (mkConfig 3 0 30 false [])
             (mkMigrationConfig "main" "migrations"
                (Some (mkPostgresConfig "postgres://db")))
             (mockWorld []))))
  = [1; 2].
Proof.
  destruct (executeMigration_retries_resume MockWorld insertionSorter
              (mockEnv (fun _ => [("2_b.sql", MemFile "B"); ("1_a.sql", MemFile "A");
                                  ("3_c.sql", MemFile "FAIL")]))
              mockCtx (mkConfig 3 0 30 false [])
              (mkMigrationConfig "main" "migrations"
                 (Some (mkPostgresConfig "postgres://db")))
              mw_ledger mockDriver
              [mig 2 "b" "B"; mig 1 "a" "A"; mig 3 "c" "FAIL"]
              (mockWorld []) eq_refl mockDriver_contract
              (fun _ _ => eq_refl) eq_refl)
    as (j & _ & Hap & Hcv & _).
  - vm_compute. apply perm_swap.
  - rewrite Hap. vm_compute in Hcv.
    assert (j = 2) as -> by lia. reflexivity.
Defined.
